(** * dianping_crawler: request orchestration and glyph decoding

    A shallow embedding of [utils/requests_utils.py] (class [RequestsUtils])
    and the properties of its pacing scheduler, proxy pool, challenge
    handling, retry loop and glyph decoder.

    Conventions of the embedding.
    - A Python [str] is a [list ascii]: the UTF-8 bytes of the text.  The
      literal substring operations used by the source ([in], [replace],
      [split], [strip]) act on valid UTF-8 exactly as they act on code points
      as long as the searched pattern is not empty, which holds at every call
      site of the source.
    - Python [int] is [Z]; [%] is [Z.modulo] (floor modulo, sign of the
      divisor), with the division by zero written out.
    - Methods read and write the instance ([self]), the [cache] module and the
      network.  They are functions in a small monad that threads the state,
      returns how the call ended (a value, [sys.exit], an uncaught exception)
      and collects the observable events (network calls, sleeps, prompts).
    - The network is an oracle: the [n]-th call of [requests.get] of the
      process receives [net n].  Recursion without a ceiling in the source
      ([get_requests] re-dispatching itself) is bounded by a [fuel] argument. *)

From Stdlib Require Import String Ascii ZArith Lia Bool Arith DecimalString DecimalZ List.
Import ListNotations.

Set Warnings "-register-all".

Abbreviation str := (list ascii).
Coercion list_ascii_of_string : string >-> list.

Open Scope string_scope.
Open Scope list_scope.
Open Scope Z_scope.

(* ================================================================= *)
(** ** Python strings *)

Module PyStr.

(** The double quote character, [chr(34)]. *)
Definition dq : ascii := ascii_of_nat 34.
(** The backslash character, [chr(92)]. *)
Definition bs : ascii := ascii_of_nat 92.

Fixpoint str_eqb (s t : str) : bool :=
  match s, t with
  | [], [] => true
  | a :: s', b :: t' => Ascii.eqb a b && str_eqb s' t'
  | _, _ => false
  end.

(** [t.startswith(p)] *)
Fixpoint prefixb (p t : str) : bool :=
  match p, t with
  | [], _ => true
  | a :: p', b :: t' => Ascii.eqb a b && prefixb p' t'
  | _ :: _, [] => false
  end.

(** [w in t] for strings: [w] occurs in [t] as a contiguous substring. *)
Fixpoint contains (w t : str) : bool :=
  prefixb w t ||
  match t with
  | [] => false
  | _ :: t' => contains w t'
  end.

(** The same as a proposition. *)
Definition occurs (w t : str) : Prop := exists l r, t = l ++ w ++ r.

(** [x in xs] for a list of strings. *)
Definition str_mem (x : str) (xs : list str) : bool := existsb (str_eqb x) xs.

(** Scan of [str.replace] for a non-empty pattern: leftmost occurrences,
    not overlapping, the scan resuming after each replaced occurrence.
    [fuel] bounds the number of steps; [S (length t)] is enough. *)
Fixpoint replace_from (fuel : nat) (old new t : str) : str :=
  match fuel with
  | O => t
  | S fuel' =>
      if prefixb old t
      then new ++ replace_from fuel' old new (skipn (length old) t)
      else match t with
           | [] => []
           | a :: t' => a :: replace_from fuel' old new t'
           end
  end.

(** [t.replace(old, new)].  With an empty [old] Python inserts [new] before
    every character and at the end. *)
Definition replace (t old new : str) : str :=
  match old with
  | [] => new ++ flat_map (fun a => a :: new) t
  | _ :: _ => replace_from (S (length t)) old new t
  end.

(** [t.split(sep)] for a one-character separator, which is what both call
    sites pass ([';'] and [',']). *)
Fixpoint split (t : str) (sep : ascii) : list str :=
  match t with
  | [] => [[]]
  | a :: t' =>
      if Ascii.eqb a sep then [] :: split t' sep
      else match split t' sep with
           | h :: rest => (a :: h) :: rest
           | [] => [[a]]
           end
  end.

Definition char_in (a : ascii) (chars : str) : bool := existsb (Ascii.eqb a) chars.

(** Leading characters that satisfy [p] removed. *)
Fixpoint lstrip_by (p : ascii -> bool) (t : str) : str :=
  match t with
  | [] => []
  | a :: t' => if p a then lstrip_by p t' else t
  end.

Definition strip_by (p : ascii -> bool) (t : str) : str :=
  rev (lstrip_by p (rev (lstrip_by p t))).

(** [t.strip(chars)]: leading and trailing characters of [chars] removed. *)
Definition strip (t chars : str) : str := strip_by (fun a => char_in a chars) t.

(** ASCII white space, as [int()] skips it around the number. *)
Definition is_space (a : ascii) : bool :=
  let n := nat_of_ascii a in
  ((9 <=? n) && (n <=? 13) || (28 <=? n) && (n <=? 32))%nat.

Definition digit_val (a : ascii) : option Z :=
  let n := nat_of_ascii a in
  if ((48 <=? n) && (n <=? 57))%nat then Some (Z.of_nat n - 48) else None.

Definition underscore : ascii := ascii_of_nat 95.

(** Digits after the first one: a digit, or one underscore followed by a
    digit. *)
Fixpoint digits_from (acc : Z) (s : str) : option Z :=
  match s with
  | [] => Some acc
  | a :: s' =>
      match digit_val a with
      | Some d => digits_from (acc * 10 + d) s'
      | None =>
          if Ascii.eqb a underscore then
            match s' with
            | b :: s'' =>
                match digit_val b with
                | Some d => digits_from (acc * 10 + d) s''
                | None => None
                end
            | [] => None
            end
          else None
      end
  end.

Definition digits (s : str) : option Z :=
  match s with
  | a :: s' =>
      match digit_val a with
      | Some d => digits_from d s'
      | None => None
      end
  | [] => None
  end.

(** [int(s)] in base ten on ASCII text; [None] stands for [ValueError].
    Python's [int] also takes the decimal digits and the white space of
    other scripts: a string with a byte outside ASCII is outside what this
    function describes (see [ascii_text]). *)
Definition py_int (s : str) : option Z :=
  let body := strip_by is_space s in
  match body with
  | a :: rest =>
      if Ascii.eqb a "-"%char then option_map Z.opp (digits rest)
      else if Ascii.eqb a "+"%char then digits rest
      else digits body
  | [] => None
  end.


End PyStr.
Export PyStr.

(* ================================================================= *)
(** ** Values exchanged with the outside *)

(** A parsed JSON document ([json.loads], [Response.json]).  Numbers are
    integers; an object is the list of its members in document order, keys
    unique. *)
Inductive json : Type :=
  | JNull
  | JBool (b : bool)
  | JInt (z : Z)
  | JStr (s : str)
  | JArr (items : list json)
  | JObj (members : list (str * json)).

(** What a Python call can end with, besides a value. *)
Inductive exn : Type :=
  | AssertionError
  | AttributeError
  | IndexError
  | KeyError
  | TypeError
  | ValueError
  | ZeroDivisionError
  | UnboundLocalError
  | RequestException
  | RecursionError.     (* the interpreter's stack has no room for the call *)

Inductive outcome (A : Type) : Type :=
  | Return (a : A)
  | Exit                (* [sys.exit()], [exit()]: the process terminates *)
  | Raise (e : exn)     (* an exception reaches the caller *)
  | OutOfFuel.          (* the model's bound on a loop was reached *)
Arguments Return {A} a.
Arguments Exit {A}.
Arguments Raise {A} e.
Arguments OutOfFuel {A}.

(** An HTTP response, as far as the source reads it: the final URL, the
    body, and what the body parses to ([None]: it is not JSON). *)
Record response : Type := mkResponse {
  r_url : str;
  r_text : str;
  r_json : option json
}.

(** One call of [requests.get]: a [RequestException] (connection error,
    timeout) or a response. *)
Inductive net_outcome : Type :=
  | NetError
  | NetResponse (r : response).

(** A request header dictionary: keys and values in insertion order; a value
    is [None] when the configured cookie is [None]. *)
Definition header : Type := list (str * option str).

(** The pieces of an f-string, in order. *)
Inductive fpart : Type :=
  | Lit (s : str)
  | Val (j : json).

(** The [proxies] dictionary passed to [requests.get]. *)
Record proxies : Type := mkProxies {
  http : list fpart;
  https : list fpart
}.

(** Which of the two blocking prompts is shown. *)
Inductive challenge : Type :=
  | RedirectChallenge   (* [handle_verify]: the response URL has the marker *)
  | ApiChallenge.       (* [get_request_for_interface]: JSON code 406 *)

(** Observable events of a run, in order. *)
Inductive event : Type :=
  | EvGet (url : str) (headers : option header) (proxy : option proxies)
          (timeout : option Z)              (* a call of [requests.get] *)
  | EvSleep                                 (* one [time.sleep(1 + jitter)] *)
  | EvPrompt (c : challenge) (shown : json) (* the URL is printed, [input()] blocks *)
  | EvSkip                                  (* [handle_verify] prints that it skips *)
  | EvPrint (msg : str).                    (* another diagnostic line *)

(** [spider_config]. *)
Record config : Type := mkConfig {
  REQUESTS_TIMES : str;
  COOKIE : option str;
  USER_AGENT : option str;
  USE_COOKIE_POOL : bool;
  USE_PROXY : bool;
  REPEAT_NUMBER : Z;
  HTTP_EXTRACT : bool;
  KEY_EXTRACT : bool;
  HTTP_LINK : str;
  KEY_ID : str;
  KEY_KEY : str;
  PROXY_HOST : str;
  PROXY_PORT : str
}.

(** A slot of the proxy pool: the two-element list [[ip, port]] appended by
    a refill.  Each [append] creates a new list object; [slot_id] is the
    identity of that object (the number of slots created before it). *)
Record slot : Type := mkSlot {
  slot_id : nat;
  slot_ip : json;
  slot_port : json
}.

(** The mutable state of the process: the fields of the [RequestsUtils]
    instance, [cache.is_cold_start], and two counters of the model
    ([net_calls]: calls of [requests.get] so far, the index into the network
    oracle; [next_slot]: pool slots created so far). *)
Record state : Type := mkState {
  cookie : option str;
  ua : option str;
  cookie_pool : bool;
  ip_proxy : bool;
  proxy_pool : list slot;
  stop_times : list (list str);
  global_time : Z;
  is_cold_start : bool;
  net_calls : nat;
  next_slot : nat
}.

(** What the process does not control: the configuration, the network and
    the user agent the [faker] engine would produce. *)
Record env : Type := mkEnv {
  cfg : config;
  net : nat -> net_outcome;
  faker_user_agent : str
}.

(* ================================================================= *)
(** ** The monad of method calls *)

Definition M (A : Type) : Type := state -> outcome A * state * list event.

Definition ret {A} (a : A) : M A := fun st => (Return a, st, []).

Definition bind {A B} (m : M A) (k : A -> M B) : M B :=
  fun st =>
    match m st with
    | (Return a, st1, ev1) =>
        let '(o, st2, ev2) := k a st1 in (o, st2, ev1 ++ ev2)
    | (Exit, st1, ev1) => (Exit, st1, ev1)
    | (Raise e, st1, ev1) => (Raise e, st1, ev1)
    | (OutOfFuel, st1, ev1) => (OutOfFuel, st1, ev1)
    end.

Notation "x <- m ;; k" := (bind m (fun x => k))
  (at level 61, m at next level, right associativity).
Notation "m ;;; k" := (bind m (fun _ => k))
  (at level 61, right associativity).

Definition raise {A} (e : exn) : M A := fun st => (Raise e, st, []).
Definition sys_exit {A} : M A := fun st => (Exit, st, []).
Definition out_of_fuel {A} : M A := fun st => (OutOfFuel, st, []).
Definition emit (e : event) : M unit := fun st => (Return tt, st, [e]).
Definition gets {A} (f : state -> A) : M A := fun st => (Return (f st), st, []).
Definition modify (f : state -> state) : M unit := fun st => (Return tt, f st, []).

(** A pure computation that may raise. *)
Definition lift {A} (o : outcome A) : M A := fun st => (o, st, []).

(** [try: m except requests.RequestException: h].  Only that exception is
    caught; [sys.exit] and the other exceptions pass through. *)
Definition try_except_request {A} (m : M A) (h : M A) : M A :=
  fun st =>
    match m st with
    | (Raise RequestException, st1, ev1) =>
        let '(o, st2, ev2) := h st1 in (o, st2, ev1 ++ ev2)
    | other => other
    end.

(* ================================================================= *)
(** ** Field updates *)

Definition set_global_time (g : Z) (st : state) : state :=
  mkState (cookie st) (ua st) (cookie_pool st) (ip_proxy st) (proxy_pool st)
          (stop_times st) g (is_cold_start st) (net_calls st) (next_slot st).

Definition set_is_cold_start (b : bool) (st : state) : state :=
  mkState (cookie st) (ua st) (cookie_pool st) (ip_proxy st) (proxy_pool st)
          (stop_times st) (global_time st) b (net_calls st) (next_slot st).

Definition set_net_calls (n : nat) (st : state) : state :=
  mkState (cookie st) (ua st) (cookie_pool st) (ip_proxy st) (proxy_pool st)
          (stop_times st) (global_time st) (is_cold_start st) n (next_slot st).

Definition set_proxy_pool (p : list slot) (st : state) : state :=
  mkState (cookie st) (ua st) (cookie_pool st) (ip_proxy st) p
          (stop_times st) (global_time st) (is_cold_start st) (net_calls st)
          (next_slot st).

Definition set_next_slot (n : nat) (st : state) : state :=
  mkState (cookie st) (ua st) (cookie_pool st) (ip_proxy st) (proxy_pool st)
          (stop_times st) (global_time st) (is_cold_start st) (net_calls st) n.

(* ================================================================= *)
(** ** Python operations on JSON values *)

Fixpoint assoc {V} (k : str) (kvs : list (str * V)) : option V :=
  match kvs with
  | [] => None
  | (k', v) :: rest => if str_eqb k k' then Some v else assoc k rest
  end.

(** [j[key]] with a string key. *)
Definition subscript (j : json) (key : str) : outcome json :=
  match j with
  | JObj members =>
      match assoc key members with
      | Some v => Return v
      | None => Raise KeyError
      end
  | _ => Raise TypeError
  end.

(** [j.get(key)]: only a dictionary has the method. *)
Definition json_get (j : json) (key : str) : outcome json :=
  match j with
  | JObj members =>
      match assoc key members with
      | Some v => Return v
      | None => Return JNull
      end
  | _ => Raise AttributeError
  end.

(** [j == n] for an integer literal [n]. *)
Definition json_eq_int (j : json) (n : Z) : bool :=
  match j with
  | JInt z => z =? n
  | JBool b => (if b then 1 else 0) =? n
  | _ => false
  end.

(** [for x in j]: the values iterated over. *)
Definition json_iter (j : json) : outcome (list json) :=
  match j with
  | JArr items => Return items
  | JObj members => Return (map (fun kv => JStr (fst kv)) members)
  | JStr s => Return (map (fun a => JStr [a]) s)
  | _ => Raise TypeError
  end.

(* ================================================================= *)
(** ** RequestsUtils *)

(** [parse_stop_time]: the loop [for i in range(len(each_stop) - 1, -1, -1)],
    with [n] the number of indices still to visit, from [n - 1] down to 0. *)
Fixpoint parse_stop_time_loop (each_stop : list str) (n : nat)
    (stop_time : list (list str)) : list (list str) :=
  match n with
  | O => stop_time
  | S i =>
      parse_stop_time_loop each_stop i
        (stop_time ++ [split (nth i each_stop []) ","%char])
  end.

Definition parse_stop_time (requests_times : str) : list (list str) :=
  let each_stop := split (strip requests_times ";") ";"%char in
  parse_stop_time_loop each_stop (List.length each_stop) [].

(** [__init__].  [cold] is the value of [cache.is_cold_start] when the
    process starts.  The pool attribute is created only when proxies are in
    use: with [ip_proxy] false the field [proxy_pool] stands for no
    attribute (see [pool_slot]). *)
Definition initial_state (c : config) (cold : bool) : state :=
  mkState (COOKIE c) (USER_AGENT c) (USE_COOKIE_POOL c) (USE_PROXY c) []
          (parse_stop_time (REQUESTS_TIMES c)) 0 cold 0%nat 0%nat.

Definition init (c : config) (cold : bool) : outcome state :=
  match USER_AGENT c with
  | None => Exit
  | Some _ => Return (initial_state c cold)
  end.

(** [row[i]] on a list. *)
Definition index {A} (row : list A) (i : nat) : outcome A :=
  match nth_error row i with
  | Some x => Return x
  | None => Raise IndexError
  end.

(** [int(s)] *)
Definition to_int (s : str) : outcome Z :=
  match py_int s with
  | Some z => Return z
  | None => Raise ValueError
  end.

(** [for _ in range(n)] over a body without result. *)
Fixpoint for_range (n : nat) (body : M unit) : M unit :=
  match n with
  | O => ret tt
  | S n' => body ;;; for_range n' body
  end.

(** The scan of [freeze_time] over [self.stop_times] with the counter at
    [g]: the first row whose count divides [g] sleeps [sleep_duration] times
    and ends the scan ([break]). *)
Fixpoint freeze_scan (g : Z) (rows : list (list str)) : M unit :=
  match rows with
  | [] => ret tt
  | each_stop_time :: rest =>
      s0 <- lift (index each_stop_time 0) ;;
      request_count <- lift (to_int s0) ;;
      s1 <- lift (index each_stop_time 1) ;;
      sleep_duration <- lift (to_int s1) ;;
      if request_count =? 0 then raise ZeroDivisionError
      else if g mod request_count =? 0
           then for_range (Z.to_nat sleep_duration) (emit EvSleep)
           else freeze_scan g rest
  end.

Definition freeze_time : M unit :=
  modify (fun st => set_global_time (global_time st + 1) st) ;;;
  g <- gets global_time ;;
  if negb (g =? 1) then
    rows <- gets stop_times ;;
    freeze_scan g rows
  else ret tt.

Definition get_retry_time (c : config) : Z :=
  if REPEAT_NUMBER c =? 0 then 5 else REPEAT_NUMBER c + 1.

Definition get_cookie (url : str) : M (option str) := gets cookie.

Definition judge_request_type (url : str) : str :=
  if contains "shop" url then "detail"
  else if contains "review" url then "review"
  else "search".

Definition http_proxy_utils (ip port : json) : proxies :=
  let proxyMeta := [Lit "http://"; Val ip; Lit ":"; Val port] in
  mkProxies proxyMeta proxyMeta.

Definition key_proxy_utils (c : config) : proxies :=
  let proxyMeta :=
    [Lit "http://"; Val (JStr (KEY_ID c)); Lit ":"; Val (JStr (KEY_KEY c));
     Lit "@"; Val (JStr (PROXY_HOST c)); Lit ":"; Val (JStr (PROXY_PORT c))] in
  mkProxies proxyMeta proxyMeta.

Definition valid_request_types : list str :=
  [ list_ascii_of_string "no header";
    list_ascii_of_string "no proxy, cookie";
    list_ascii_of_string "no proxy, no cookie";
    list_ascii_of_string "proxy, no cookie";
    list_ascii_of_string "proxy, cookie" ].

Section Methods.

Variable E : env.

(** [requests.get]: the next answer of the network. *)
Definition requests_get (url : str) (headers : option header)
    (proxy : option proxies) (timeout : option Z) : M response :=
  fun st =>
    let st' := set_net_calls (S (net_calls st)) st in
    let ev := [EvGet url headers proxy timeout] in
    match net E (net_calls st) with
    | NetError => (Raise RequestException, st', ev)
    | NetResponse r => (Return r, st', ev)
    end.

Definition get_header (cookie_arg : option str) (need_cookie : bool) : M header :=
  self_ua <- gets ua ;;
  let ua_value :=
    match self_ua with
    | Some u => u
    | None => faker_user_agent E
    end in
  self_cookie <- gets cookie ;;
  let cookie_value :=
    match cookie_arg with
    | Some c => Some c
    | None => self_cookie
    end in
  if need_cookie
  then ret [(list_ascii_of_string "User-Agent", Some ua_value);
            (list_ascii_of_string "Cookie", cookie_value)]
  else ret [(list_ascii_of_string "User-Agent", Some ua_value)].

(** [self.proxy_pool.append([proxy['ip'], proxy['port']])] *)
Definition append_slot (proxy : json) : M unit :=
  ip <- lift (subscript proxy "ip") ;;
  port <- lift (subscript proxy "port") ;;
  modify (fun st =>
    set_next_slot (S (next_slot st))
      (set_proxy_pool (proxy_pool st ++ [mkSlot (next_slot st) ip port]) st)).

(** The loop [for proxy in r_json: for _ in range(repeat_nub): ...]. *)
Fixpoint refill_loop (repeat_nub : Z) (items : list json) : M unit :=
  match items with
  | [] => ret tt
  | proxy :: rest =>
      for_range (Z.to_nat repeat_nub) (append_slot proxy) ;;;
      refill_loop repeat_nub rest
  end.

(** The body of the [try] of [get_proxy].  [r.json()] raises a
    [RequestException] (requests' [JSONDecodeError]) on a body that is not
    JSON. *)
Definition refill (repeat_nub : Z) : M unit :=
  r <- requests_get (HTTP_LINK (cfg E)) None None None ;;
  match r_json r with
  | None => raise RequestException
  | Some r_json =>
      items <- lift (json_iter r_json) ;;
      refill_loop repeat_nub items
  end.

(** [self.proxy_pool.pop(0)] *)
Definition pop_front : M slot :=
  pool <- gets proxy_pool ;;
  match pool with
  | [] => raise IndexError
  | s :: rest => modify (set_proxy_pool rest) ;;; ret s
  end.

(** The pool part of [get_proxy] in HTTP extraction mode, on an instance
    that has a pool: the refill of an empty pool, then the [pop]. *)
Definition refill_and_pop (repeat_nub : Z) : M slot :=
  pool <- gets proxy_pool ;;
  (if (List.length pool =? 0)%nat
   then try_except_request (refill repeat_nub)
          (emit (EvPrint "Failed to fetch proxies") ;;; sys_exit)
   else ret tt) ;;;
  pop_front.

(** [__init__] creates the attribute [proxy_pool] only when proxies are in
    use, and nothing else assigns it or [ip_proxy]: on an instance without
    proxies the first access, [len(self.proxy_pool)], raises
    [AttributeError], and the field [proxy_pool] of the state means
    nothing. *)
Definition pool_slot (repeat_nub : Z) : M slot :=
  created <- gets ip_proxy ;;
  if (created : bool) then refill_and_pop repeat_nub
  else raise AttributeError.

Definition get_proxy : M proxies :=
  let repeat_nub := REPEAT_NUMBER (cfg E) in
  if HTTP_EXTRACT (cfg E) then
    s <- pool_slot repeat_nub ;;
    ret (http_proxy_utils (slot_ip s) (slot_port s))
  else if KEY_EXTRACT (cfg E) then
    ret (key_proxy_utils (cfg E))
  else
    emit (EvPrint "When using proxies, you must choose either HTTP extraction or key extraction mode.") ;;;
    sys_exit.

(** [handle_verify], with the method it calls back, [self.get_requests], as
    the argument [self_get_requests]. *)
Definition handle_verify (self_get_requests : str -> str -> M response)
    (r : response) (url request_type : str) : M response :=
  if contains "verify" (r_url r) then
    (if negb (str_eqb request_type "proxy, no cookie") || negb (USE_PROXY (cfg E))
     then emit (EvPrompt RedirectChallenge (JStr (r_url r)))
     else emit EvSkip) ;;;
    self_get_requests url request_type
  else ret r.

(** A [requests.get] inside [try: ... except requests.RequestException]:
    [None] when the exception was caught. *)
Definition attempt (m : M response) : M (option response) :=
  try_except_request (r <- m ;; ret (Some r))
    (emit (EvPrint "Proxy request failed") ;;; ret None).

(** [get_requests].  The method calls itself, directly and through
    [handle_verify], and nothing in it bounds the depth: the interpreter
    does.  [fuel] is the number of nested invocations of the method that
    the interpreter's stack still has room for; the invocation that does
    not fit ends with [RecursionError], which no handler of this class
    catches. *)
Fixpoint get_requests (fuel : nat) (url request_type : str) : M response :=
  match fuel with
  | O => raise RecursionError
  | S fuel' =>
      if negb (str_mem request_type valid_request_types) then raise AssertionError
      else if str_eqb request_type "no header" then
        requests_get url None None None
      else if contains "no proxy" request_type then
        freeze_time ;;;
        r <- (if str_eqb request_type "no proxy, no cookie" then
                h <- get_header None false ;;
                requests_get url (Some h) None None
              else if str_eqb request_type "no proxy, cookie" then
                cur_cookie <- get_cookie url ;;
                h <- get_header cur_cookie true ;;
                requests_get url (Some h) None None
              else raise UnboundLocalError) ;;
        handle_verify (get_requests fuel') r url request_type
      else if str_eqb request_type "proxy, no cookie" then
        use_proxy <- gets ip_proxy ;;
        if use_proxy then
          a <- attempt (h <- get_header None false ;;
                        p <- get_proxy ;;
                        requests_get url (Some h) (Some p) (Some 10)) ;;
          match a with
          | None => get_requests fuel' url request_type
          | Some r => handle_verify (get_requests fuel') r url request_type
          end
        else
          h <- get_header None false ;;
          r <- requests_get url (Some h) None None ;;
          handle_verify (get_requests fuel') r url request_type
      else if str_eqb request_type "proxy, cookie" then
        freeze_time ;;;
        cur_cookie <- get_cookie url ;;
        h <- get_header cur_cookie true ;;
        use_proxy <- gets ip_proxy ;;
        if use_proxy then
          a <- attempt (p <- get_proxy ;;
                        requests_get url (Some h) (Some p) (Some 10)) ;;
          match a with
          | None => get_requests fuel' url request_type
          | Some r => handle_verify (get_requests fuel') r url request_type
          end
        else
          r <- requests_get url (Some h) None None ;;
          handle_verify (get_requests fuel') r url request_type
      else raise AttributeError
  end.

(** The test [if r_json.get('code') == 406:] of [get_request_for_interface]
    and what it guards: on a cold start the verification URL is printed, the
    operator is waited for, the request is sent once more and the flag is
    cleared.  Returns the value of [r] afterwards. *)
Definition cold_start_check (fuel : nat) (url : str) (r : response)
    (r_json : json) : M response :=
  code <- lift (json_get r_json "code") ;;
  if json_eq_int code 406 then
    cold <- gets is_cold_start ;;
    if (cold : bool) then
      custom <- lift (subscript r_json "customData") ;;
      page <- lift (subscript custom "verifyPageUrl") ;;
      emit (EvPrompt ApiChallenge page) ;;;
      r' <- get_requests fuel url "proxy, no cookie" ;;
      modify (set_is_cold_start false) ;;;
      ret r'
    else ret r
  else ret r.

(** The [while retry_time > 0] loop of [get_request_for_interface].  [r] is
    the local variable of that name, unbound before the first iteration;
    [gas] bounds the number of iterations ([Z.to_nat retry_time] is
    enough). *)
Fixpoint interface_loop (gas : nat) (fuel : nat) (url : str)
    (retry_time : Z) (r : option response) : M response :=
  if retry_time >? 0 then
    match gas with
    | O => out_of_fuel
    | S gas' =>
        let retry_time := retry_time - 1 in
        r1 <- get_requests fuel url "proxy, no cookie" ;;
        match r_json r1 with
        | None =>
            emit (EvPrint "JSON decoding failed. Retrying...") ;;;
            interface_loop gas' fuel url retry_time (Some r1)
        | Some r_json =>
            r2 <- cold_start_check fuel url r1 r_json ;;
            code <- lift (json_get r_json "code") ;;
            if json_eq_int code 200 then ret r2
            else if retry_time <=? 0 then
              emit (EvPrint "Please check your tsv and uuid, or the proxy quality may be low.") ;;;
              sys_exit
            else interface_loop gas' fuel url retry_time (Some r2)
        end
    end
  else
    match r with
    | Some r => ret r
    | None => raise UnboundLocalError
    end.

Definition get_request_for_interface (fuel : nat) (url : str) : M response :=
  let retry_time := get_retry_time (cfg E) in
  interface_loop (Z.to_nat retry_time) fuel url retry_time None.

End Methods.

(* ================================================================= *)
(** ** Glyph decoding *)

(** A dictionary with string keys and values, as the list of its items in
    iteration (insertion) order. *)
Definition dict : Type := list (str * str).

Section Decoder.

(** [utils.get_file_map.get_map]: the character mapping of a font file,
    from glyph name to character.  The module is a collaborator of this
    class. *)
Variable get_map : str -> dict.

(** The marker and its replacement built by [replace_search_html] for one
    item of a font map. *)
Definition search_key (font_id code_point : str) : str :=
  let key := replace code_point "uni" "&#x" in
  [dq] ++ font_id ++ [dq] ++ ">" ++ key ++ ";".

Definition search_value (font_id character : str) : str :=
  [dq] ++ font_id ++ [dq] ++ ">" ++ character.

(** The same for [replace_review_html]: the marker is built from the glyph
    name itself, the font identifier is not used. *)
Definition review_key (code_point : str) : str :=
  [dq] ++ code_point ++ [dq] ++ "><".

Definition review_value (code_point character : str) : str :=
  [dq] ++ code_point ++ [dq] ++ ">" ++ character ++ "<".

(** The same for [replace_json_text]: the quotes are escaped. *)
Definition json_key (font_id code_point : str) : str :=
  let key := replace code_point "uni" "&#x" in
  [bs; dq] ++ font_id ++ [bs; dq] ++ ">" ++ key ++ ";".

Definition json_value (font_id character : str) : str :=
  [bs; dq] ++ font_id ++ [bs; dq] ++ ">" ++ character.

Definition replace_search_html (page_source : str) (file_map : dict) : str :=
  fold_left
    (fun page_source '(font_id, font_path) =>
       let font_map := get_map font_path in
       fold_left
         (fun page_source '(code_point, character) =>
            replace page_source (search_key font_id code_point)
                    (search_value font_id character))
         font_map page_source)
    file_map page_source.

Definition replace_review_html (page_source : str) (file_map : dict) : str :=
  fold_left
    (fun page_source '(font_id, font_path) =>
       let font_map := get_map font_path in
       fold_left
         (fun page_source '(code_point, character) =>
            replace page_source (review_key code_point)
                    (review_value code_point character))
         font_map page_source)
    file_map page_source.

Definition replace_json_text (json_text : str) (file_map : dict) : str :=
  fold_left
    (fun json_text '(font_id, font_path) =>
       let font_map := get_map font_path in
       fold_left
         (fun json_text '(code_point, character) =>
            replace json_text (json_key font_id code_point)
                    (json_value font_id character))
         font_map json_text)
    file_map json_text.

(** Every marker with its replacement, in the order the loops visit them. *)
Definition search_pairs (file_map : dict) : list (str * str) :=
  flat_map
    (fun '(font_id, font_path) =>
       map (fun '(code_point, character) =>
              (search_key font_id code_point, search_value font_id character))
           (get_map font_path))
    file_map.

Definition review_pairs (file_map : dict) : list (str * str) :=
  flat_map
    (fun '(font_id, font_path) =>
       map (fun '(code_point, character) =>
              (review_key code_point, review_value code_point character))
           (get_map font_path))
    file_map.

Definition json_pairs (file_map : dict) : list (str * str) :=
  flat_map
    (fun '(font_id, font_path) =>
       map (fun '(code_point, character) =>
              (json_key font_id code_point, json_value font_id character))
           (get_map font_path))
    file_map.

(** The replacement characters of all the fonts of [file_map]. *)
Definition characters (file_map : dict) : list str :=
  flat_map (fun '(font_id, font_path) => map snd (get_map font_path)) file_map.

End Decoder.

(** A run of replacements, one after the other. *)
Definition replace_all (pairs : list (str * str)) (t : str) : str :=
  fold_left (fun t '(key, value) => replace t key value) pairs t.

(** The three textual shapes of the decoder and the method of each. *)
Inductive shape : Type := RawSpan | DelimitedSpan | EscapedJson.

Definition decode (get_map : str -> dict) (sh : shape) (text : str)
    (file_map : dict) : str :=
  match sh with
  | RawSpan => replace_search_html get_map text file_map
  | DelimitedSpan => replace_review_html get_map text file_map
  | EscapedJson => replace_json_text get_map text file_map
  end.

Definition pairs_of (get_map : str -> dict) (sh : shape) (file_map : dict)
    : list (str * str) :=
  match sh with
  | RawSpan => search_pairs get_map file_map
  | DelimitedSpan => review_pairs get_map file_map
  | EscapedJson => json_pairs get_map file_map
  end.

(* ================================================================= *)
(** ** Vocabulary of the properties *)

(** *** Decoder *)

(** No replacement string contains a marker of an entry. *)
Definition no_marker_in_replacements (pairs : list (str * str)) : Prop :=
  forall key value key' value',
    In (key, value) pairs -> In (key', value') pairs -> ~ occurs key' value.

Definition no_marker_in_replacementsb (pairs : list (str * str)) : bool :=
  forallb (fun kv => forallb (fun kv' => negb (contains (fst kv') (snd kv))) pairs)
          pairs.

(** What a marker and its replacement begin with in common, the last
    character of the marker left out: the part of the text that a
    replacement leaves as it was. *)
Fixpoint common_prefix (a b : str) : str :=
  match a, b with
  | x :: a', y :: b' => if Ascii.eqb x y then x :: common_prefix a' b' else []
  | _, _ => []
  end.

Definition stem (key value : str) : str := common_prefix (removelast key) value.

(** A marker [w] laid over the replacement [value] of [key] at some offset,
    beginning in [value] or in front of it, agrees with it as far as both
    go and ends behind the stem: [value], put where [key] stood, can be
    part of an occurrence of [w] that was not in the text before. *)
Definition comparable (a b : str) : bool := prefixb a b || prefixb b a.

Definition completes (w key value : str) : bool :=
  let p := List.length (stem key value) in
  existsb (fun i => comparable w (skipn i value) && (p <? i + List.length w)%nat)
          (seq 0 (List.length value))
  || existsb (fun j => comparable (skipn j w) value && (p + j <? List.length w)%nat)
             (seq 1 (List.length w - 1)).

(** No replacement completes its own marker or that of an entry before it:
    a text in which the replacement [value] of [key] stands and such a
    marker [w] occurs has an occurrence of [w] in front of the point where
    [value] departs from [key], or behind [value].  The markers of the
    entries after it are left out: their turn in the run is still to
    come. *)
Definition no_marker_completed (pairs : list (str * str)) : Prop :=
  forall before key value rest w v,
    pairs = before ++ (key, value) :: rest ->
    In (w, v) (before ++ [(key, value)]) ->
    forall x y,
      occurs w (x ++ value ++ y) ->
      occurs w (x ++ stem key value) \/ occurs w y.

(** The same, decided along the run; [earlier] holds the markers of the
    entries already passed. *)
Fixpoint no_marker_completed_from (earlier : list str) (pairs : list (str * str))
    : bool :=
  match pairs with
  | [] => true
  | (key, value) :: rest =>
      forallb (fun w => negb (completes w key value)) (key :: earlier)
      && no_marker_completed_from (key :: earlier) rest
  end.

Definition no_marker_completedb (pairs : list (str * str)) : bool :=
  no_marker_completed_from [] pairs.

(** One pass of the run, [old] replaced by [new]: where [new] stands, an
    occurrence of the marker [w] is explained by the text that was there
    before. *)
Definition explained (old new w : str) : Prop :=
  forall x y, occurs w (x ++ new ++ y) -> occurs w (x ++ stem old new) \/ occurs w y.

(** Every occurrence of [old] in [x ++ t] begins in [t]. *)
Definition begins_behind (old x t : str) : Prop :=
  forall l r, x ++ t = l ++ old ++ r -> (List.length x <= List.length l)%nat.

(** [w] has no border: no proper prefix of it, the empty one apart, is also
    a suffix of it.  Two occurrences of such a string never overlap. *)
Definition unbordered (w : str) : bool :=
  forallb (fun n => negb (str_eqb (firstn n w) (skipn (List.length w - n) w)))
          (seq 1 (List.length w - 1)).

(** *** Pacing *)



(** The suspension the pacing rules ask for at counter value [g]: the
    [suspendSeconds] of the first rule, in reversed declaration order, whose
    [requestCount] divides [g]; none when no rule does. *)
Definition suspension (rules : list (Z * Z)) (g : Z) : nat :=
  match find (fun rule => g mod fst rule =? 0) (rev rules) with
  | Some rule => Z.to_nat (snd rule)
  | None => O
  end.

(** *** Events *)

(** A credentialed network call: a [requests.get] that carries headers. *)
Definition is_credentialed (e : event) : bool :=
  match e with
  | EvGet _ (Some _) _ _ => true
  | _ => false
  end.

Definition is_sleep (e : event) : bool :=
  match e with
  | EvSleep => true
  | _ => false
  end.

Definition is_api_prompt (e : event) : bool :=
  match e with
  | EvPrompt ApiChallenge _ => true
  | _ => false
  end.

Definition is_get (e : event) : bool :=
  match e with
  | EvGet _ _ _ _ => true
  | _ => false
  end.

Definition count (p : event -> bool) (ev : list event) : nat :=
  List.length (filter p ev).

Definition is_returned {A} (o : outcome A) : bool :=
  match o with
  | Return _ => true
  | _ => false
  end.

(** [m] leaves the projection [f] of the state alone and emits no event
    that satisfies [p], however it ends. *)
Definition inert {X A} (f : state -> X) (p : event -> bool) (m : M A) : Prop :=
  forall st o st' ev,
    m st = (o, st', ev) -> f st' = f st /\ count p ev = O.

(** [m] never ends with a [RequestException]. *)
Definition no_request_exception {A} (m : M A) : Prop :=
  forall st o st' ev, m st = (o, st', ev) -> o <> Raise RequestException.

(** The manual pause for an API challenge happens at most once: never when
    the cold-start flag is down, which then stays down; and if it happens
    and [m] returns, the flag is down afterwards. *)
Definition pauses_once {A} (m : M A) : Prop :=
  forall st o st' ev,
    m st = (o, st', ev) ->
    (is_cold_start st = false ->
       count is_api_prompt ev = O /\ is_cold_start st' = false) /\
    (count is_api_prompt ev <= 1)%nat /\
    (count is_api_prompt ev = 1%nat -> is_returned o = true ->
       is_cold_start st' = false).

(** *** Runs *)

(** Calls of [get_request_for_interface] one after the other, as long as
    they return. *)
Fixpoint run_interface (E : env) (fuel : nat) (urls : list str)
    : M (list response) :=
  match urls with
  | [] => ret []
  | url :: rest =>
      r <- get_request_for_interface E fuel url ;;
      rs <- run_interface E fuel rest ;;
      ret (r :: rs)
  end.


(** The slots a refill appends for the fetched [entries] (pairs of [ip] and
    [port]), the first of them with identity [first]: [n] slots per entry,
    in fetch order. *)
Fixpoint number_from (first : nat) (l : list (json * json)) : list slot :=
  match l with
  | [] => []
  | (ip, port) :: rest => mkSlot first ip port :: number_from (S first) rest
  end.

Definition expand (n : nat) (first : nat) (entries : list (json * json))
    : list slot :=
  number_from first (flat_map (fun e => repeat e n) entries).

(** A fetched entry as the JSON object it comes in. *)
Definition entry_object (e : json * json) : json :=
  JObj [(list_ascii_of_string "ip", fst e); (list_ascii_of_string "port", snd e)].



(** The body of an API answer with status [code] and nothing else. *)
Definition status_body (code : Z) : json :=
  JObj [(list_ascii_of_string "code", JInt code)].

(** The state after the slots [l] were appended to the pool. *)
Definition add_slots (l : list slot) (st : state) : state :=
  set_next_slot (next_slot st + List.length l)%nat
    (set_proxy_pool (proxy_pool st ++ l) st).

(** Every run of [m] relates the state before to the state after by [R]. *)
Definition respects {A} (R : state -> state -> Prop) (m : M A) : Prop :=
  forall st o st' ev, m st = (o, st', ev) -> R st st'.


(** The counter against the credentialed network calls.  A pacing check
    counts the request that follows it, so between the check and the
    request one call is owed; [owed_before] and [owed_after] are what is owed
    when [m] starts and when it returns.  Whatever the outcome the counter
    does not go down; when [m] returns the accounts are settled up to what
    is owed, when it ends with a [RequestException] the request was made and
    nothing is owed, and otherwise at most one counted request was not
    made. *)
Definition ledger {A} (owed_before owed_after : Z) (m : M A) : Prop :=
  forall st o st' ev,
    m st = (o, st', ev) ->
    let calls := Z.of_nat (count is_credentialed ev) in
    global_time st <= global_time st' /\
    match o with
    | Return _ =>
        global_time st' + owed_before = global_time st + calls + owed_after
    | Raise RequestException =>
        global_time st' + owed_before = global_time st + calls
    | _ =>
        global_time st + calls <= global_time st' + owed_before
        <= global_time st + calls + 1
    end.

(* ================================================================= *)
(** ** Sample configurations, answers and runs *)

Module Sample.

(** A crawl from the local address: no proxy, budget of five attempts. *)
Definition local_config : config :=
  mkConfig "100,5;200,10" (Some (list_ascii_of_string "uuid=1"))
           (Some (list_ascii_of_string "Mozilla/5.0")) false false 0 false false
           "http://proxy.example/get" "id" "key" "host" "8080".

(** The same through a pool of proxies, each handed out twice. *)
Definition pool_config : config :=
  mkConfig "100,5;200,10" (Some (list_ascii_of_string "uuid=1"))
           (Some (list_ascii_of_string "Mozilla/5.0")) false true 2 true false
           "http://proxy.example/get" "id" "key" "host" "8080".

Definition shop_url : str := "http://www.dianping.com/shop/1".
Definition api_url : str := "http://www.dianping.com/ajax/json/shopDynamic/1".

(** A page, a redirect to the verification site, an API answer that is not
    JSON, API answers with a status, and the answer of the proxy supplier. *)
Definition page : response := mkResponse shop_url "<html>page</html>" None.

Definition challenge_page : response :=
  mkResponse "https://verify.meituan.com/v2/web/general_page" "<html>verify</html>" None.

Definition blocked : response := mkResponse api_url "<html>blocked</html>" None.

Definition status (code : Z) : response :=
  mkResponse api_url "{...}" (Some (status_body code)).

Definition challenge_body : json :=
  JObj [(list_ascii_of_string "code", JInt 406);
        (list_ascii_of_string "customData",
         JObj [(list_ascii_of_string "verifyPageUrl",
                JStr (list_ascii_of_string "http://x"))])].

Definition api_challenge : response := mkResponse api_url "{...}" (Some challenge_body).

Definition two_proxies : list (json * json) :=
  [(JStr (list_ascii_of_string "10.0.0.1"), JInt 8000);
   (JStr (list_ascii_of_string "10.0.0.2"), JInt 8001)].

Definition supply : response :=
  mkResponse "http://proxy.example/get" "[...]"
             (Some (JArr (map entry_object two_proxies))).

Definition empty_supply : response :=
  mkResponse "http://proxy.example/get" "[]" (Some (JArr [])).

(** Networks: every call is answered by [r]; or every call fails. *)
Definition always (r : response) : nat -> net_outcome := fun _ => NetResponse r.

Definition down : nat -> net_outcome := fun _ => NetError.

Definition local_env (net : nat -> net_outcome) : env :=
  mkEnv local_config net "faker".

Definition pool_env (net : nat -> net_outcome) : env :=
  mkEnv pool_config net "faker".

(** The headers of a request without cookie. *)
Definition plain_header : header :=
  [(list_ascii_of_string "User-Agent", Some (list_ascii_of_string "Mozilla/5.0"))].

Definition local_start : state := initial_state local_config true.
Definition pool_start : state := initial_state pool_config true.

(** The local start with [g] requests counted. *)
Definition local_after (g : Z) : state := set_global_time g local_start.

(** A paced dispatch from the start, and a dispatch in mode [proxy, no
    cookie] after 199 counted requests, both answered by the page. *)
Definition paced_run : outcome response * state * list event :=
  Eval vm_compute in
    get_requests (local_env (always page)) 1 shop_url "no proxy, cookie" local_start.

Definition unpaced_run : outcome response * state * list event :=
  Eval vm_compute in
    get_requests (local_env (always page)) 1 shop_url "proxy, no cookie"
                 (local_after 199).

(** A paced dispatch that the network fails, and one after 199 counted
    requests, where the table asks for ten sleeps. *)
Definition failed_paced_run : outcome response * state * list event :=
  Eval vm_compute in
    get_requests (local_env down) 1 shop_url "no proxy, cookie" local_start.

Definition late_paced_run : outcome response * state * list event :=
  Eval vm_compute in
    get_requests (local_env (always page)) 1 shop_url "no proxy, cookie"
                 (local_after 199).

(** Two API calls; the first and the fourth answer of the network are the
    challenge, the others are successes. *)
Definition challenge_at (ns : list nat) : nat -> net_outcome :=
  fun n => if existsb (Nat.eqb n) ns then NetResponse api_challenge
           else NetResponse (status 200).

Definition challenged_run : outcome (list response) * state * list event :=
  Eval vm_compute in
    run_interface (local_env (challenge_at [0; 3]%nat)) 1 [api_url; api_url]
                  local_start.

(** A network whose second answer is a connection error: the challenge,
    the error, the challenge again, then successes.  A first API call, and
    a second one from the state the first one left. *)
Definition flaky : nat -> net_outcome :=
  fun n =>
    match n with
    | 0%nat => NetResponse api_challenge
    | 1%nat => NetError
    | 2%nat => NetResponse api_challenge
    | _ => NetResponse (status 200)
    end.

Definition interrupted_call : outcome response * state * list event :=
  Eval vm_compute in
    get_request_for_interface (local_env flaky) 1 api_url local_start.

Definition resumed_call : outcome response * state * list event :=
  Eval vm_compute in
    get_request_for_interface (local_env flaky) 1 api_url
                              (snd (fst interrupted_call)).


Definition pool_later : state :=
  add_slots [mkSlot 3 (JStr (list_ascii_of_string "10.0.0.2")) (JInt 8001)]
            (set_next_slot 3 (set_net_calls 1 pool_start)).

(** Font maps: the glyph name with and without its [uni] prefix. *)
Definition glyph_map : str -> dict :=
  fun _ => [(list_ascii_of_string "uniE001", list_ascii_of_string "鸡")].

Definition bare_map : str -> dict :=
  fun _ => [(list_ascii_of_string "E001", list_ascii_of_string "鸡")].

Definition font_files : dict :=
  [(list_ascii_of_string "font-id1", list_ascii_of_string "fonts/1.json")].

Definition span_text : str :=
  "<d class=" ++ [dq] ++ "font-id1" ++ [dq] ++ ">&#xE001;</d>".

Definition span_decoded : str :=
  "<d class=" ++ [dq] ++ "font-id1" ++ [dq] ++ ">鸡</d>".

(** Two fonts, the second of which maps a glyph to the quote character. *)
Definition quote_map : str -> dict :=
  fun font_path =>
    if str_eqb font_path "fonts/G.json"
    then [(list_ascii_of_string "uniE002", list_ascii_of_string "b")]
    else [(list_ascii_of_string "uniE001", [dq])].

Definition quote_files : dict :=
  [(list_ascii_of_string "G", list_ascii_of_string "fonts/G.json");
   (list_ascii_of_string "F", list_ascii_of_string "fonts/F.json")].

Definition quote_text : str :=
  [dq] ++ "F" ++ [dq] ++ ">&#xE001;G" ++ [dq] ++ ">&#xE002;".

(** A font that decodes two glyphs to digits, and a page with both. *)
Definition digit_map : str -> dict :=
  fun _ => [(list_ascii_of_string "uniE001", list_ascii_of_string "1");
            (list_ascii_of_string "uniE002", list_ascii_of_string "2")].

Definition digit_text : str :=
  "<d class=" ++ [dq] ++ "font-id1" ++ [dq] ++ ">&#xE001;&#xE002;</d>"
  ++ "<d class=" ++ [dq] ++ "font-id1" ++ [dq] ++ ">&#xE002;</d>".

(** A page with other attributes around the glyph. *)
Definition page_head : str :=
  "<a href=" ++ [dq] ++ "/shop/1" ++ [dq] ++ "><d class=".

Definition page_tail : str :=
  "</d><e class=" ++ [dq] ++ "tag" ++ [dq] ++ ">12</e></a>".

End Sample.

(** *** Networks *)

(** Every call is answered, never by a redirect to the verification site,
    with a response that satisfies [ok]. *)
Definition answers (E : env) (ok : response -> Prop) : Prop :=
  forall n, exists r,
    net E n = NetResponse r /\ contains "verify" (r_url r) = false /\ ok r.

(** The body is not JSON. *)
Definition unparsed (r : response) : Prop := r_json r = None.

(** The body is a JSON object whose status is neither the success nor the
    challenge. *)
Definition failed (r : response) : Prop :=
  exists body code,
    r_json r = Some body /\ json_get body "code" = Return code /\
    json_eq_int code 200 = false /\ json_eq_int code 406 = false.

(* ================================================================= *)
(** ** More of the code *)

Definition set_cookie (c : option str) (st : state) : state :=
  mkState c (ua st) (cookie_pool st) (ip_proxy st) (proxy_pool st)
          (stop_times st) (global_time st) (is_cold_start st) (net_calls st)
          (next_slot st).

(** [update_cookie].  [raw] is what [global_config.getRaw('config', 'Cookie')]
    returns; the module [utils.config] is a collaborator of this class. *)
Definition update_cookie (raw : str) : M unit :=
  modify (set_cookie (Some raw)) ;;;
  emit (EvPrint "Cookie has been updated from the global configuration.").

(** [str(z)] for an integer: its decimal digits, with a minus sign when
    negative. *)
Definition str_of_int (z : Z) : str :=
  list_ascii_of_string (NilEmpty.string_of_int (Z.to_int z)).

(** [get_search_url] of [main.py].  [city_id] and [keyword] are the texts the
    f-string puts in the URL. *)
Definition get_search_url (cur_page : Z) (city_id keyword : str) : str * str :=
  let base_url :=
    "http://www.dianping.com/search/keyword/" ++ city_id ++ "/0_" ++ keyword ++ "/p" in
  if cur_page =? 1
  then (base_url ++ "1", list_ascii_of_string "proxy, cookie")
  else (base_url ++ str_of_int cur_page, list_ascii_of_string "proxy, cookie").



(** *** Vocabulary of the further properties *)

(** The value of the [Cookie] header of a request, if it has one. *)
Definition cookie_header (e : event) : option (option str) :=
  match e with
  | EvGet _ (Some h) _ _ => assoc "Cookie" h
  | _ => None
  end.

(** The value of the [User-Agent] header of a request, if it has one. *)
Definition agent_header (e : event) : option (option str) :=
  match e with
  | EvGet _ (Some h) _ _ => assoc "User-Agent" h
  | _ => None
  end.

(** Run from a state where the projection [f] has the value [x], [m]
    keeps that value and emits only events that satisfy [good]. *)
Definition emits_under {X A} (f : state -> X) (good : event -> Prop) (x : X)
    (m : M A) : Prop :=
  forall st o st' ev,
    f st = x -> m st = (o, st', ev) -> f st' = x /\ Forall good ev.

(** [m] raises no exception outside [allowed]. *)
Definition raises_only {A} (allowed : exn -> bool) (m : M A) : Prop :=
  forall st e st' ev, m st = (Raise e, st', ev) -> allowed e = true.








(** The pauses still to come: one while the cold-start flag is up. *)
Definition pending (st : state) : nat :=
  if is_cold_start st then 1%nat else 0%nat.

(** Every response that [m] returns is free of the challenge marker. *)
Definition returns_unchallenged (m : M response) : Prop :=
  forall st r st' ev,
    m st = (Return r, st', ev) -> contains "verify" (r_url r) = false.

(** What [get_request_for_interface] may hand back: a body that is not
    JSON, or an object whose status is the success sentinel. *)
Definition unparsed_or_success (r : response) : Prop :=
  r_json r = None \/
  exists body code,
    r_json r = Some body /\ json_get body "code" = Return code /\
    json_eq_int code 200 = true.

(** The quotes of a text escaped as inside a JSON string literal. *)
Definition escape_quotes (t : str) : str :=
  flat_map (fun a => if Ascii.eqb a dq then [bs; dq] else [a]) t.

Definition escape_pair (kv : str * str) : str * str :=
  (escape_quotes (fst kv), escape_quotes (snd kv)).

(** No font identifier, glyph name or replacement character of [file_map]
    has a double quote. *)
Definition quote_free (get_map : str -> dict) (file_map : dict) : Prop :=
  forall font_id font_path,
    In (font_id, font_path) file_map ->
    ~ In dq font_id /\
    forall code_point character,
      In (code_point, character) (get_map font_path) ->
      ~ In dq (replace code_point "uni" "&#x") /\ ~ In dq character.

Definition quote_freeb (get_map : str -> dict) (file_map : dict) : bool :=
  forallb
    (fun entry =>
       negb (char_in dq (fst entry)) &&
       forallb
         (fun item =>
            negb (char_in dq (replace (fst item) "uni" "&#x")) &&
            negb (char_in dq (snd item)))
         (get_map (snd entry)))
    file_map.

(** *** Further sample inputs *)

Module Cases.

(** Proxies through the key gateway. *)
Definition key_config : config :=
  mkConfig "100,5;200,10" (Some (list_ascii_of_string "uuid=1"))
           (Some (list_ascii_of_string "Mozilla/5.0")) false true 2 false true
           "http://proxy.example/get" "id" "key" "host" "8080".

Definition key_env (net : nat -> net_outcome) : env :=
  mkEnv key_config net "faker".

Definition key_start : state := initial_state key_config true.

(** The pool of [Sample.pool_start] holding two slots. *)
Definition two_slots : list slot :=
  [mkSlot 0 (JStr "10.0.0.1") (JInt 8000); mkSlot 1 (JStr "10.0.0.2") (JInt 8001)].

Definition stocked : state := set_proxy_pool two_slots Sample.pool_start.




(** A negative repeat number. *)
Definition negative_config : config :=
  mkConfig "100,5;200,10" (Some (list_ascii_of_string "uuid=1"))
           (Some (list_ascii_of_string "Mozilla/5.0")) false false (-1) false false
           "http://proxy.example/get" "id" "key" "host" "8080".

(** A network whose first answer is the redirect to the verification site,
    and a dispatch with cookie on it. *)
Definition redirected : nat -> net_outcome :=
  fun n =>
    match n with
    | O => NetResponse Sample.challenge_page
    | _ => NetResponse Sample.page
    end.

Definition redirected_run : outcome response * state * list event :=
  Eval vm_compute in
    get_requests (Sample.local_env redirected) 2 Sample.shop_url
                 "no proxy, cookie" Sample.local_start.


(** An API answer that is a JSON array. *)
Definition array_answer : response :=
  mkResponse Sample.api_url "[]" (Some (JArr [])).

(** API calls answered by a success, by a failure status, by an array and
    by a challenge without verification URL. *)
Definition success_call : outcome response * state * list event :=
  Eval vm_compute in
    get_request_for_interface (Sample.local_env (Sample.always (Sample.status 200)))
      1 Sample.api_url Sample.local_start.

Definition failure_call : outcome response * state * list event :=
  Eval vm_compute in
    get_request_for_interface (Sample.local_env (Sample.always (Sample.status 500)))
      1 Sample.api_url Sample.local_start.

Definition array_dispatch : outcome response * state * list event :=
  Eval vm_compute in
    get_requests (Sample.local_env (Sample.always array_answer)) 1 Sample.api_url
                 "proxy, no cookie" Sample.local_start.

Definition bare_challenge_dispatch : outcome response * state * list event :=
  Eval vm_compute in
    get_requests (Sample.local_env (Sample.always (Sample.status 406))) 1
                 Sample.api_url "proxy, no cookie" Sample.local_start.

(** A dispatch with cookie right after the cookie was updated. *)
Definition new_cookie : str := "uuid=2".

Definition updated_run : outcome response * state * list event :=
  Eval vm_compute in
    (update_cookie new_cookie ;;;
     get_requests (Sample.local_env (Sample.always Sample.page)) 1 Sample.shop_url
                  "no proxy, cookie") Sample.local_start.

(** The font table of [Sample.font_files] under another name. *)
Definition renamed_files : dict :=
  [(list_ascii_of_string "other", list_ascii_of_string "fonts/1.json")].

Definition plain_text : str := "<p>no attribute here</p>".



End Cases.

(* ================================================================= *)
(** * Properties *)

(** ** Facts about strings *)

Open Scope nat_scope.

Section StringFacts.

Lemma str_eqb_eq (s t : str) : str_eqb s t = true <-> s = t.
Proof.
  revert t; induction s as [|a s IH]; intros [|b t]; simpl; split; try easy.
  - rewrite andb_true_iff, Ascii.eqb_eq, IH. now intros [-> ->].
  - intros [= -> ->]. rewrite andb_true_iff, Ascii.eqb_eq, IH. easy.
Qed.

Lemma str_eqb_refl (s : str) : str_eqb s s = true.
Proof. now apply str_eqb_eq. Qed.

Lemma prefixb_app (p r : str) : prefixb p (p ++ r) = true.
Proof.
  induction p as [|a p IH]; simpl; [easy|].
  now rewrite Ascii.eqb_refl, IH.
Qed.

Lemma prefixb_true (p t : str) :
  prefixb p t = true -> t = p ++ skipn (length p) t.
Proof.
  revert t; induction p as [|a p IH]; intros [|b t]; simpl; try easy.
  rewrite andb_true_iff, Ascii.eqb_eq. intros [-> H]. f_equal. now apply IH.
Qed.

Lemma prefixb_iff (p t : str) :
  prefixb p t = true <-> exists r, t = p ++ r.
Proof.
  split.
  - intros H. eexists. now apply prefixb_true.
  - intros [r ->]. apply prefixb_app.
Qed.

Lemma contains_occurs (w t : str) : contains w t = true <-> occurs w t.
Proof.
  induction t as [|a t IH].
  - simpl. rewrite orb_false_r, prefixb_iff. split.
    + intros [r H]. exists [], r. exact H.
    + intros [l [r H]]. destruct l; [|discriminate]. now exists r.
  - cbn [contains]. rewrite orb_true_iff, IH, prefixb_iff. split.
    + intros [[r H]|[l [r H]]].
      * exists [], r. exact H.
      * exists (a :: l), r. now rewrite H.
    + intros [[|b l] [r H]].
      * left. now exists r.
      * right. injection H as _ H. now exists l, r.
Qed.

Lemma occurs_nil_l (t : str) : occurs [] t.
Proof. now exists [], t. Qed.

Lemma occurs_nil_r (w : str) : occurs w [] -> w = [].
Proof.
  intros [l [r H]]. symmetry in H.
  apply app_eq_nil in H as [_ H]. now apply app_eq_nil in H.
Qed.

Lemma occurs_cons (w : str) (a : ascii) (t : str) :
  occurs w (a :: t) <-> (exists r, a :: t = w ++ r) \/ occurs w t.
Proof.
  split.
  - intros [[|b l] [r H]].
    + left. now exists r.
    + right. injection H as _ H. now exists l, r.
  - intros [[r H]|[l [r H]]].
    + now exists [], r.
    + exists (a :: l), r. now rewrite H.
Qed.

Lemma occurs_app_l (w x y : str) : occurs w x -> occurs w (x ++ y).
Proof.
  intros [l [r ->]]. exists l, (r ++ y). now rewrite <- !app_assoc.
Qed.

Lemma occurs_app_r (w x y : str) : occurs w y -> occurs w (x ++ y).
Proof.
  intros [l [r ->]]. exists (x ++ l), r. now rewrite <- !app_assoc.
Qed.

Lemma occurs_length (w t : str) : occurs w t -> length w <= length t.
Proof. intros [l [r ->]]. rewrite !length_app. lia. Qed.

(** *** The scan of [replace] *)

Variables old new : str.
Hypothesis old_not_empty : old <> [].

Lemma prefixb_old_length (t : str) :
  prefixb old t = true -> length (skipn (length old) t) < length t.
Proof.
  intros H. apply prefixb_true in H. rewrite H at 2.
  rewrite length_app. destruct old; [easy|simpl; lia].
Qed.

Lemma replace_from_fuel (f1 f2 : nat) (t : str) :
  length t < f1 -> length t < f2 ->
  replace_from f1 old new t = replace_from f2 old new t.
Proof.
  revert f2 t; induction f1 as [|f1 IH]; intros [|f2] t H1 H2; try lia.
  simpl. destruct (prefixb old t) eqn:Hp.
  - f_equal. apply prefixb_old_length in Hp. apply IH; lia.
  - destruct t as [|a t]; [easy|]. f_equal. simpl in *. apply IH; lia.
Qed.

Lemma replace_nonempty (t : str) :
  replace t old new = replace_from (S (length t)) old new t.
Proof.
  unfold replace. pose proof old_not_empty as H.
  destruct old; [easy|reflexivity].
Qed.

Lemma replace_unfold (t : str) :
  replace t old new =
  if prefixb old t then new ++ replace (skipn (length old) t) old new
  else match t with
       | [] => []
       | a :: t' => a :: replace t' old new
       end.
Proof.
  rewrite (replace_nonempty t).
  cbn [replace_from]. destruct (prefixb old t) eqn:Hp.
  - f_equal. apply prefixb_old_length in Hp. rewrite replace_nonempty.
    apply replace_from_fuel; lia.
  - destruct t as [|a t]; [easy|]. f_equal. rewrite replace_nonempty.
    apply replace_from_fuel; simpl; lia.
Qed.

Lemma replace_nil : replace [] old new = [].
Proof.
  rewrite replace_nonempty. simpl. pose proof old_not_empty as H.
  destruct old; [easy|reflexivity].
Qed.

Lemma replace_hit (r : str) :
  replace (old ++ r) old new = new ++ replace r old new.
Proof.
  rewrite replace_unfold, prefixb_app.
  now rewrite skipn_app, skipn_all, Nat.sub_diag.
Qed.

Lemma replace_miss (a : ascii) (t : str) :
  prefixb old (a :: t) = false ->
  replace (a :: t) old new = a :: replace t old new.
Proof. intros H. now rewrite replace_unfold, H. Qed.

(** Induction along the scan. *)
Lemma replace_scan_ind (Q : str -> Prop) :
  Q [] ->
  (forall r, Q r -> Q (old ++ r)) ->
  (forall a t, prefixb old (a :: t) = false -> Q t -> Q (a :: t)) ->
  forall t, Q t.
Proof.
  intros Hnil Hhit Hmiss t.
  remember (length t) as n eqn:Hn. revert t Hn.
  induction n as [n IH] using lt_wf_ind. intros t ->.
  destruct (prefixb old t) eqn:Hp.
  - pose proof (prefixb_old_length _ Hp) as Hl.
    apply prefixb_true in Hp. rewrite Hp. apply Hhit.
    eapply IH; [exact Hl|reflexivity].
  - destruct t as [|a t]; [exact Hnil|].
    apply Hmiss; [exact Hp|]. eapply IH; [|reflexivity]. simpl; lia.
Qed.

Lemma replace_absent (t : str) :
  ~ occurs old t -> replace t old new = t.
Proof.
  induction t as [| r IH | a t Hp IH] using replace_scan_ind.
  - intros _. apply replace_nil.
  - intros H. exfalso. apply H. now exists [], r.
  - intros H. rewrite replace_miss by exact Hp. f_equal. apply IH.
    intros Ho. apply H. apply occurs_cons. now right.
Qed.

End StringFacts.

Open Scope nat_scope.

Section Overlaps.

(** Two ways to cut one string: the shorter left part is a prefix of the
    longer one. *)
Lemma app_eq_prefix (a b c d : str) :
  a ++ b = c ++ d -> length c <= length a ->
  exists m, a = c ++ m /\ d = m ++ b.
Proof.
  intros H Hl. apply app_eq_app in H as [m [[-> ->]|[-> ->]]].
  - exists m. split; reflexivity.
  - rewrite length_app in Hl. destruct m; [|simpl in Hl; lia].
    exists []. rewrite !app_nil_r. split; reflexivity.
Qed.

Lemma app_eq_same_length (a b c d : str) :
  a ++ b = c ++ d -> length a = length c -> a = c /\ b = d.
Proof.
  intros H Hl. destruct (app_eq_prefix a b c d H) as [m [Ha Hd]]; [lia|].
  subst a. rewrite length_app in Hl. destruct m; [|simpl in Hl; lia].
  rewrite app_nil_r. now split.
Qed.

Lemma comparable_intro (a b r r' : str) : a ++ r = b ++ r' -> comparable a b = true.
Proof.
  intros H. unfold comparable. apply orb_true_iff.
  apply app_eq_app in H as [m [[-> _]|[-> _]]].
  - right. apply prefixb_app.
  - left. apply prefixb_app.
Qed.

Lemma common_prefix_l (a b : str) : exists r, a = common_prefix a b ++ r.
Proof.
  revert b; induction a as [|x a IH]; intros [|y b]; simpl;
    try (eexists; reflexivity).
  destruct (Ascii.eqb x y); [|eexists; reflexivity].
  destruct (IH b) as [r Hr]. exists r. simpl. now f_equal.
Qed.

Lemma common_prefix_r (a b : str) : exists r, b = common_prefix a b ++ r.
Proof.
  revert b; induction a as [|x a IH]; intros [|y b]; simpl;
    try (eexists; reflexivity).
  destruct (Ascii.eqb x y) eqn:E; [|eexists; reflexivity].
  apply Ascii.eqb_eq in E. subst y.
  destruct (IH b) as [r Hr]. exists r. simpl. now f_equal.
Qed.

(** The stem is a prefix of the replacement and a proper prefix of the
    marker. *)
Lemma stem_value (key value : str) : exists r, value = stem key value ++ r.
Proof. apply common_prefix_r. Qed.

Lemma stem_key (key value : str) :
  key <> [] -> exists r, key = stem key value ++ r /\ r <> [].
Proof.
  intros Hk. destruct (common_prefix_l (removelast key) value) as [r Hr].
  exists (r ++ [last key " "%char]). split.
  - rewrite (app_removelast_last " "%char Hk) at 1.
    unfold stem. rewrite Hr at 1. now rewrite <- app_assoc.
  - intros H. now apply app_eq_nil in H as [_ H].
Qed.

Lemma existsb_seq_true (f : nat -> bool) (start len i : nat) :
  start <= i < start + len -> f i = true -> existsb f (seq start len) = true.
Proof.
  intros Hi Hf. apply existsb_exists. exists i. split; [|exact Hf].
  apply in_seq. exact Hi.
Qed.

(** What [completes] decides: where the replacement stands, an occurrence
    of the marker ends within the stem or begins behind the replacement. *)
Lemma completes_false (w key value x y : str) :
  completes w key value = false ->
  occurs w (x ++ value ++ y) ->
  occurs w (x ++ stem key value) \/ occurs w y.
Proof.
  intros Hc [l [r H]].
  destruct (stem_value key value) as [v2 Hv].
  assert (Hvl : length value = length (stem key value) + length v2)
    by (rewrite Hv at 1; apply length_app).
  unfold completes in Hc. cbv zeta in Hc.
  set (p := length (stem key value)) in *.
  apply orb_false_iff in Hc as [Hc1 Hc2].
  destruct (Nat.le_gt_cases (length x) (length l)) as [Hxl|Hxl].
  - (* the occurrence begins in the replacement or behind it *)
    symmetry in H.
    destruct (app_eq_prefix l (w ++ r) x (value ++ y) H Hxl) as [m [-> Hm]].
    destruct (Nat.le_gt_cases (length value) (length m)) as [Hvm|Hvm].
    + right. symmetry in Hm.
      destruct (app_eq_prefix m (w ++ r) value y Hm Hvm) as [m' [_ ->]].
      now exists m', r.
    + destruct (app_eq_prefix value y m (w ++ r) Hm) as [m' [Hval Hwr]]; [lia|].
      destruct (Nat.le_gt_cases (length m + length w) p) as [Hp|Hp].
      * left.
        assert (Hs : stem key value ++ v2 = (m ++ w) ++ skipn (length w) m').
        { rewrite <- Hv, Hval, <- app_assoc. f_equal.
          assert (Hlen : length w <= length m').
          { assert (length value = length m + length m')
              by (rewrite Hval at 1; apply length_app).
            lia. }
          symmetry in Hwr.
          destruct (app_eq_prefix m' y w r Hwr Hlen) as [m'' [-> _]].
          now rewrite skipn_app, skipn_all, Nat.sub_diag. }
        destruct (app_eq_prefix _ _ _ _ Hs) as [s' [Hst _]].
        { rewrite length_app. exact Hp. }
        exists (x ++ m), s'. rewrite Hst, <- !app_assoc. reflexivity.
      * exfalso.
        assert (Ht : existsb
                       (fun i => comparable w (skipn i value)
                                 && (p <? i + length w))
                       (seq 0 (length value)) = true).
        { apply (existsb_seq_true _ 0 (length value) (length m)); [lia|].
          apply andb_true_iff. split.
          - rewrite Hval, skipn_app, skipn_all, Nat.sub_diag. simpl.
            apply (comparable_intro w m' r y). exact Hwr.
          - apply Nat.ltb_lt. exact Hp. }
        rewrite Ht in Hc1. discriminate.
  - (* the occurrence begins in front of the replacement *)
    destruct (app_eq_prefix x (value ++ y) l (w ++ r) H) as [m [-> Hm]]; [lia|].
    assert (Hmpos : 0 < length m) by (rewrite length_app in Hxl; lia).
    destruct (Nat.le_gt_cases (length w) (length m + p)) as [Hp|Hp].
    + left.
      assert (Hs : (m ++ stem key value) ++ v2 ++ y = w ++ r).
      { rewrite Hm, <- app_assoc. f_equal. rewrite app_assoc, <- Hv.
        reflexivity. }
      destruct (app_eq_prefix _ _ _ _ Hs) as [s' [Hst _]].
      { rewrite length_app. exact Hp. }
      exists l, s'. rewrite <- app_assoc, Hst. reflexivity.
    + exfalso.
      destruct (app_eq_prefix w r m (value ++ y) Hm) as [w' [Hw Hvw]]; [lia|].
      assert (Ht : existsb
                     (fun j => comparable (skipn j w) value
                               && (p + j <? length w))
                     (seq 1 (length w - 1)) = true).
      { apply (existsb_seq_true _ 1 (length w - 1) (length m)); [lia|].
        apply andb_true_iff. split.
        - rewrite Hw, skipn_app, skipn_all, Nat.sub_diag. simpl.
          apply (comparable_intro w' value r y). now symmetry.
        - apply Nat.ltb_lt. lia. }
      rewrite Ht in Hc2. discriminate.
Qed.

Lemma no_marker_completed_from_sound (earlier : list str) (pairs : list (str * str)) :
  no_marker_completed_from earlier pairs = true ->
  forall before key value rest w,
    pairs = before ++ (key, value) :: rest ->
    In w (earlier ++ map fst before ++ [key]) ->
    forall x y,
      occurs w (x ++ value ++ y) ->
      occurs w (x ++ stem key value) \/ occurs w y.
Proof.
  revert earlier. induction pairs as [|[k0 v0] pairs IH]; intros earlier Hb.
  - intros [|? ?]; discriminate.
  - cbn [no_marker_completed_from] in Hb.
    apply andb_true_iff in Hb as [Hhere Hrest].
    intros [|[k1 v1] before] key value rest w Heq Hin x y Ho.
    + simpl in Heq. injection Heq as -> -> _.
      apply completes_false; [|exact Ho].
      rewrite forallb_forall in Hhere.
      assert (Hw : In w (key :: earlier)).
      { simpl in Hin. apply in_app_or in Hin as [H|[H|[]]];
          [now right|now left]. }
      specialize (Hhere w Hw). now apply negb_true_iff in Hhere.
    + simpl in Heq. injection Heq as <- <- ->.
      apply (IH (k0 :: earlier) Hrest before key value rest w eq_refl);
        [|exact Ho].
      simpl in Hin. apply in_app_or in Hin as [H|[H|H]].
      * right. apply in_or_app. now left.
      * now left.
      * right. apply in_or_app. now right.
Qed.

Lemma no_marker_completedb_sound (pairs : list (str * str)) :
  no_marker_completedb pairs = true -> no_marker_completed pairs.
Proof.
  intros Hb before key value rest w v Heq Hin.
  apply (no_marker_completed_from_sound [] pairs Hb before key value rest w Heq).
  simpl. apply in_app_or in Hin as [H|[H|[]]].
  - apply in_or_app. left. now apply (in_map fst _ (w, v)).
  - injection H as <- _. apply in_or_app. right. now left.
Qed.

End Overlaps.

Section OnePass.

(** One pass of the run: [old] is replaced by [new]. *)
Variables old new : str.
Hypothesis old_not_empty : old <> [].

Lemma occurs_suffix (w x t : str) : ~ occurs w (x ++ t) -> ~ occurs w t.
Proof. intros H Ho. apply H. now apply occurs_app_r. Qed.

(** A marker that the text does not have is not there after the pass. *)
Lemma replace_keeps_absent (w : str) :
  explained old new w ->
  forall t x, ~ occurs w (x ++ t) -> ~ occurs w (x ++ replace t old new).
Proof.
  intros Hw t.
  induction t as [| r IH | a t Hp IH] using (replace_scan_ind old old_not_empty);
    intros x Hx.
  - now rewrite replace_nil.
  - rewrite replace_hit by exact old_not_empty. intros Ho.
    apply Hw in Ho as [Ho|Ho].
    + apply Hx. destruct (stem_key old new old_not_empty) as [k2 [Hk _]].
      rewrite Hk, <- app_assoc, app_assoc. now apply occurs_app_l.
    + apply (IH []); [|exact Ho]. simpl.
      apply (occurs_suffix w (x ++ old)). now rewrite <- app_assoc.
  - rewrite replace_miss by (exact old_not_empty || exact Hp).
    change (x ++ a :: replace t old new) with (x ++ [a] ++ replace t old new).
    rewrite app_assoc. apply IH. now rewrite <- app_assoc.
Qed.

(** The marker of the pass is not there after it. *)
Lemma replace_removes_from (t : str) :
  explained old new old ->
  forall x, begins_behind old x t -> ~ occurs old (x ++ replace t old new).
Proof.
  intros Hw.
  induction t as [| r IH | a t Hp IH] using (replace_scan_ind old old_not_empty);
    intros x Hx.
  - rewrite replace_nil by exact old_not_empty. intros [l [r H]].
    specialize (Hx l r H). apply (f_equal (@length ascii)) in H.
    rewrite !length_app in H. simpl in H.
    destruct old; [now apply old_not_empty|simpl in H; lia].
  - rewrite replace_hit by exact old_not_empty. intros Ho.
    apply Hw in Ho as [Ho|Ho].
    + destruct Ho as [l [r' H]].
      destruct (stem_key old new old_not_empty) as [k2 [Hk Hk2]].
      assert (Hl : length x <= length l).
      { apply (Hx l (r' ++ k2 ++ r)).
        rewrite Hk at 1. rewrite <- app_assoc, app_assoc, H.
        now rewrite <- !app_assoc. }
      apply (f_equal (@length ascii)) in H.
      apply (f_equal (@length ascii)) in Hk.
      repeat rewrite length_app in H. rewrite length_app in Hk.
      destruct k2; [now apply Hk2|simpl in Hk; lia].
    + apply (IH []); [|exact Ho]. intros l r' _. simpl. lia.
  - rewrite replace_miss by (exact old_not_empty || exact Hp).
    change (x ++ a :: replace t old new) with (x ++ [a] ++ replace t old new).
    rewrite app_assoc. apply IH. intros l r H.
    rewrite <- app_assoc in H. simpl in H.
    pose proof (Hx l r H) as Hl. rewrite length_app. simpl.
    destruct (Nat.eq_dec (length x) (length l)) as [E|E]; [|lia].
    exfalso. destruct (app_eq_same_length _ _ _ _ H E) as [_ Hat].
    assert (Hpre : prefixb old (a :: t) = true)
      by (apply prefixb_iff; now exists r).
    congruence.
Qed.

Lemma replace_removes (t : str) :
  explained old new old -> ~ occurs old (replace t old new).
Proof.
  intros Hw. apply (replace_removes_from t Hw []).
  intros l r _. simpl. lia.
Qed.

Lemma replace_keeps (w t : str) :
  explained old new w -> ~ occurs w t -> ~ occurs w (replace t old new).
Proof. intros Hw H. now apply (replace_keeps_absent w Hw t []). Qed.

(** *** A marker without a border *)

Lemma unbordered_no_border (u k v : str) :
  unbordered old = true -> old = u ++ k -> old = k ++ v ->
  u = [] \/ k = [].
Proof.
  intros Hu H1 H2.
  destruct u as [|a u]; [now left|]. destruct k as [|b k]; [now right|].
  exfalso. unfold unbordered in Hu. rewrite forallb_forall in Hu.
  assert (Hlen1 : length old = length (a :: u) + length (b :: k))
    by (rewrite H1 at 1; apply length_app).
  specialize (Hu (length (b :: k))).
  assert (Hin : In (length (b :: k)) (seq 1 (length old - 1))).
  { apply in_seq. simpl in *. lia. }
  specialize (Hu Hin). apply negb_true_iff in Hu.
  assert (Hf : firstn (length (b :: k)) old = b :: k).
  { rewrite H2 at 1. now rewrite firstn_app, firstn_all, Nat.sub_diag, firstn_O,
      app_nil_r. }
  assert (Hs : skipn (length old - length (b :: k)) old = b :: k).
  { replace (length old - length (b :: k)) with (length (a :: u)) by lia.
    rewrite H1 at 1. now rewrite skipn_app, skipn_all, Nat.sub_diag. }
  rewrite Hf, Hs, str_eqb_refl in Hu. discriminate.
Qed.

(** A marker without a border is replaced where it stands, whatever is
    around it: the scan reaches it at its first character. *)
Lemma replace_around (pre post : str) :
  unbordered old = true ->
  replace (pre ++ old ++ post) old new =
  replace pre old new ++ new ++ replace post old new.
Proof.
  intros Hu.
  induction pre as [| r IH | a t Hp IH] using (replace_scan_ind old old_not_empty).
  - rewrite replace_nil by exact old_not_empty. simpl.
    now apply replace_hit.
  - rewrite <- app_assoc, !replace_hit by exact old_not_empty.
    now rewrite IH, <- app_assoc.
  - change ((a :: t) ++ old ++ post) with (a :: (t ++ old ++ post)).
    rewrite !replace_miss; try exact old_not_empty; try exact Hp.
    + simpl. now f_equal.
    + destruct (prefixb old (a :: t ++ old ++ post)) eqn:E; [|reflexivity].
      exfalso. apply prefixb_iff in E as [r E].
      change (a :: t ++ old ++ post) with ((a :: t) ++ old ++ post) in E.
      destruct (Nat.le_gt_cases (length old) (length (a :: t))) as [Hl|Hl].
      * destruct (app_eq_prefix _ _ _ _ E Hl) as [m [Hm _]].
        assert (prefixb old (a :: t) = true)
          by (apply prefixb_iff; now exists m).
        congruence.
      * symmetry in E.
        destruct (app_eq_prefix old r (a :: t) (old ++ post) E) as [k [Hk Hr]];
          [lia|].
        assert (Hkl : length k <= length old).
        { pose proof (f_equal (@length ascii) Hk) as Hk'.
          rewrite length_app in Hk'. lia. }
        destruct (app_eq_prefix old post k r Hr Hkl) as [v [Hv _]].
        destruct (unbordered_no_border (a :: t) k v Hu Hk Hv) as [H|H];
          [discriminate|].
        subst k. rewrite app_nil_r in Hk. rewrite Hk in Hl. simpl in Hl. lia.
Qed.

End OnePass.

Open Scope nat_scope.

Section ReplaceAll.

Lemma replace_all_snoc (pairs : list (str * str)) (key value t : str) :
  replace_all (pairs ++ [(key, value)]) t =
  replace (replace_all pairs t) key value.
Proof. unfold replace_all. now rewrite fold_left_app. Qed.

Lemma replace_all_app (p1 p2 : list (str * str)) (t : str) :
  replace_all (p1 ++ p2) t = replace_all p2 (replace_all p1 t).
Proof. unfold replace_all. now rewrite fold_left_app. Qed.

Lemma no_marker_completed_front (pairs : list (str * str)) (key value : str) :
  no_marker_completed (pairs ++ [(key, value)]) -> no_marker_completed pairs.
Proof.
  intros H before k v rest w v' Heq Hin.
  apply (H before k v (rest ++ [(key, value)]) w v'); [|exact Hin].
  rewrite Heq, <- app_assoc. reflexivity.
Qed.

Lemma no_marker_completed_last (pairs : list (str * str)) (key value w v : str) :
  no_marker_completed (pairs ++ [(key, value)]) ->
  In (w, v) (pairs ++ [(key, value)]) -> explained key value w.
Proof.
  intros H Hin. exact (H pairs key value [] w v eq_refl Hin).
Qed.

(** After the run no marker is left. *)
Lemma replace_all_removes (pairs : list (str * str)) (t : str) :
  (forall key value, In (key, value) pairs -> key <> []) ->
  no_marker_completed pairs ->
  forall key value, In (key, value) pairs ->
    ~ occurs key (replace_all pairs t).
Proof.
  induction pairs as [|[k v] pairs IH] using rev_ind; intros Hne Hs key value Hin.
  - destruct Hin.
  - rewrite replace_all_snoc.
    assert (Hk : k <> []) by (apply (Hne k v), in_or_app; right; now left).
    pose proof (no_marker_completed_last pairs k v key value Hs Hin) as Hw.
    apply in_app_or in Hin as [Hin|[[= -> ->]|[]]].
    + apply (replace_keeps k v Hk key _ Hw).
      apply (IH (fun a b H => Hne a b (in_or_app _ _ _ (or_introl H)))
                (no_marker_completed_front pairs k v Hs) key value Hin).
    + now apply replace_removes.
Qed.

(** A run whose markers are all absent changes nothing. *)
Lemma replace_all_absent (pairs : list (str * str)) (t : str) :
  (forall key value, In (key, value) pairs -> ~ occurs key t) ->
  replace_all pairs t = t.
Proof.
  induction pairs as [|[k v] pairs IH]; intros H; [reflexivity|].
  unfold replace_all. simpl. fold (replace_all pairs (replace t k v)).
  assert (Hk : ~ occurs k t) by (apply (H k v); now left).
  assert (k <> []) by (intros ->; apply Hk, occurs_nil_l).
  rewrite replace_absent by assumption.
  apply IH. intros key value Hin. apply (H key value). now right.
Qed.

Lemma replace_all_idempotent (pairs : list (str * str)) (t : str) :
  (forall key value, In (key, value) pairs -> key <> []) ->
  no_marker_completed pairs ->
  replace_all pairs (replace_all pairs t) = replace_all pairs t.
Proof.
  intros Hne Hs. apply replace_all_absent. now apply replace_all_removes.
Qed.

End ReplaceAll.

Section DecoderFacts.

Variable get_map : str -> dict.

Lemma search_as_pairs (file_map : dict) (t : str) :
  replace_search_html get_map t file_map =
  replace_all (search_pairs get_map file_map) t.
Proof.
  unfold replace_search_html, search_pairs. revert t.
  induction file_map as [|[font_id font_path] fm IH]; intros t; [reflexivity|].
  simpl. rewrite replace_all_app, <- IH. f_equal.
  generalize (get_map font_path). intros items. revert t.
  induction items as [|[cp ch] items IHi]; intros t; [reflexivity|].
  simpl. now rewrite IHi.
Qed.

Lemma review_as_pairs (file_map : dict) (t : str) :
  replace_review_html get_map t file_map =
  replace_all (review_pairs get_map file_map) t.
Proof.
  unfold replace_review_html, review_pairs. revert t.
  induction file_map as [|[font_id font_path] fm IH]; intros t; [reflexivity|].
  simpl. rewrite replace_all_app, <- IH. f_equal.
  generalize (get_map font_path). intros items. revert t.
  induction items as [|[cp ch] items IHi]; intros t; [reflexivity|].
  simpl. now rewrite IHi.
Qed.

Lemma json_as_pairs (file_map : dict) (t : str) :
  replace_json_text get_map t file_map =
  replace_all (json_pairs get_map file_map) t.
Proof.
  unfold replace_json_text, json_pairs. revert t.
  induction file_map as [|[font_id font_path] fm IH]; intros t; [reflexivity|].
  simpl. rewrite replace_all_app, <- IH. f_equal.
  generalize (get_map font_path). intros items. revert t.
  induction items as [|[cp ch] items IHi]; intros t; [reflexivity|].
  simpl. now rewrite IHi.
Qed.

Lemma decode_as_pairs (sh : shape) (file_map : dict) (t : str) :
  decode get_map sh t file_map = replace_all (pairs_of get_map sh file_map) t.
Proof.
  destruct sh; [apply search_as_pairs|apply review_as_pairs|apply json_as_pairs].
Qed.

(** An entry of [pairs_of] comes from an item of a font map. *)
Lemma in_pairs_of (sh : shape) (file_map : dict) (key value : str) :
  In (key, value) (pairs_of get_map sh file_map) ->
  exists font_id code_point character,
    In character (characters get_map file_map) /\
    match sh with
    | RawSpan => key = search_key font_id code_point /\
                 value = search_value font_id character
    | DelimitedSpan => key = review_key code_point /\
                       value = review_value code_point character
    | EscapedJson => key = json_key font_id code_point /\
                     value = json_value font_id character
    end.
Proof.
  intros H.
  assert (exists font_id font_path code_point character,
            In (font_id, font_path) file_map /\
            In (code_point, character) (get_map font_path) /\
            match sh with
            | RawSpan => key = search_key font_id code_point /\
                         value = search_value font_id character
            | DelimitedSpan => key = review_key code_point /\
                               value = review_value code_point character
            | EscapedJson => key = json_key font_id code_point /\
                             value = json_value font_id character
            end) as (f & p & cp & ch & Hf & Hm & Hkv).
  { destruct sh; simpl in H; unfold search_pairs, review_pairs, json_pairs in H;
      apply in_flat_map in H as [[f p] [Hf H]];
      apply in_map_iff in H as [[cp ch] [[= <- <-] Hm]];
      exists f, p, cp, ch; auto. }
  exists f, cp, ch. split; [|exact Hkv].
  unfold characters. apply in_flat_map. exists (f, p). split; [exact Hf|].
  apply in_map_iff. now exists (cp, ch).
Qed.

(** The markers of the three shapes begin with a quote or a backslash. *)
Lemma marker_not_empty (sh : shape) (file_map : dict) (key value : str) :
  In (key, value) (pairs_of get_map sh file_map) -> key <> [].
Proof.
  intros Hin.
  destruct (in_pairs_of sh file_map key value Hin) as (f & cp & ch & _ & Hkv).
  destruct sh; destruct Hkv as [-> _]; discriminate.
Qed.

End DecoderFacts.

Open Scope nat_scope.

(* ================================================================= *)
(** ** Facts about the monad *)

Section MonadFacts.

Context {A B : Type}.

Lemma bind_returns (m : M A) (k : A -> M B) st b st' ev :
  bind m k st = (Return b, st', ev) ->
  exists a st1 ev1 ev2,
    m st = (Return a, st1, ev1) /\ k a st1 = (Return b, st', ev2) /\
    ev = ev1 ++ ev2.
Proof.
  unfold bind. destruct (m st) as [[[a| |e|] st1] ev1]; try discriminate.
  destruct (k a st1) as [[o st2] ev2] eqn:Hk. intros [= -> -> <-].
  now exists a, st1, ev1, ev2.
Qed.

(** How a sequence ends: its first part did not return and the sequence
    ends the same way, or it returned and the second part ran. *)
Lemma bind_ends (m : M A) (k : A -> M B) st o st' ev :
  bind m k st = (o, st', ev) ->
  (exists o1, m st = (o1, st', ev) /\ is_returned o1 = false /\
              is_returned o = false /\
              (forall e, o = Raise e <-> o1 = Raise e) /\
              (o = Exit <-> o1 = Exit)) \/
  (exists a st1 ev1 ev2,
     m st = (Return a, st1, ev1) /\ k a st1 = (o, st', ev2) /\
     ev = ev1 ++ ev2).
Proof.
  unfold bind. destruct (m st) as [[[a| |e|] st1] ev1].
  - destruct (k a st1) as [[o2 st2] ev2] eqn:Hk. intros [= <- <- <-].
    right. now exists a, st1, ev1, ev2.
  - intros [= <- <- <-]. left. exists Exit. repeat split; try easy.
  - intros [= <- <- <-]. left. exists (Raise e). repeat split; try congruence.
    all: intros [= ->]; reflexivity.
  - intros [= <- <- <-]. left. exists OutOfFuel. repeat split; try easy.
Qed.

End MonadFacts.

Lemma count_app (p : event -> bool) (e1 e2 : list event) :
  count p (e1 ++ e2) = count p e1 + count p e2.
Proof. unfold count. now rewrite filter_app, length_app. Qed.

Lemma count_nil (p : event -> bool) : count p [] = 0.
Proof. reflexivity. Qed.

Lemma count_repeat_false (p : event -> bool) (e : event) (n : nat) :
  p e = false -> count p (repeat e n) = 0.
Proof.
  intros H. induction n as [|n IH]; [reflexivity|].
  unfold count in *. simpl. now rewrite H.
Qed.


(* ================================================================= *)
(** ** Computations that leave a part of the state alone *)

Section Inert.

Context {X : Type}.
Variable f : state -> X.
Variable p : event -> bool.

Lemma inert_ret {A} (a : A) : inert f p (ret a).
Proof. intros st o st' ev [= <- <- <-]. now split. Qed.

Lemma inert_bind {A B} (m : M A) (k : A -> M B) :
  inert f p m -> (forall a, inert f p (k a)) -> inert f p (bind m k).
Proof.
  intros Hm Hk st o st' ev H. apply bind_ends in H.
  destruct H as [(o1 & H & _)|(a & st1 & ev1 & ev2 & H1 & H2 & ->)].
  - exact (Hm _ _ _ _ H).
  - destruct (Hm _ _ _ _ H1) as [E1 C1]. destruct (Hk a _ _ _ _ H2) as [E2 C2].
    split; [congruence|]. rewrite count_app. lia.
Qed.

Lemma inert_lift {A} (o : outcome A) : inert f p (lift o).
Proof. intros st o' st' ev [= <- <- <-]. now split. Qed.

Lemma inert_raise {A} (e : exn) : inert f p (@raise A e).
Proof. intros st o' st' ev [= <- <- <-]. now split. Qed.

Lemma inert_sys_exit {A} : inert f p (@sys_exit A).
Proof. intros st o' st' ev [= <- <- <-]. now split. Qed.

Lemma inert_out_of_fuel {A} : inert f p (@out_of_fuel A).
Proof. intros st o' st' ev [= <- <- <-]. now split. Qed.

Lemma inert_gets {A} (g : state -> A) : inert f p (gets g).
Proof. intros st o' st' ev [= <- <- <-]. now split. Qed.

Lemma inert_emit (e : event) : p e = false -> inert f p (emit e).
Proof.
  intros H st o' st' ev [= <- <- <-]. split; [reflexivity|].
  unfold count. simpl. now rewrite H.
Qed.

Lemma inert_modify (g : state -> state) :
  (forall st, f (g st) = f st) -> inert f p (modify g).
Proof. intros H st o' st' ev [= <- <- <-]. now split. Qed.

Lemma inert_try {A} (m h : M A) :
  inert f p m -> inert f p h -> inert f p (try_except_request m h).
Proof.
  intros Hm Hh st o st' ev. unfold try_except_request.
  destruct (m st) as [[o1 st1] ev1] eqn:H1.
  destruct (Hm _ _ _ _ H1) as [E1 C1].
  assert (Hother : (o1, st1, ev1) = (o, st', ev) -> f st' = f st /\ count p ev = 0)
    by (intros [= <- <- <-]; now split).
  destruct o1 as [a| |[]|]; try exact Hother.
  destruct (h st1) as [[o2 st2] ev2] eqn:H2. intros [= <- <- <-].
  destruct (Hh _ _ _ _ H2) as [E2 C2]. split; [congruence|].
  rewrite count_app. lia.
Qed.

Lemma inert_for_range (n : nat) (body : M unit) :
  inert f p body -> inert f p (for_range n body).
Proof.
  intros H. induction n as [|n IH]; simpl.
  - apply inert_ret.
  - apply inert_bind; auto.
Qed.

Lemma inert_if {A} (b : bool) (m1 m2 : M A) :
  inert f p m1 -> inert f p m2 -> inert f p (if b then m1 else m2).
Proof. now destruct b. Qed.

End Inert.

(* ================================================================= *)
(** ** Computations that never end with a [RequestException] *)

Section NoRequestException.

Lemma nre_ret {A} (a : A) : no_request_exception (ret a).
Proof. intros st o st' ev [= <- <- <-]. discriminate. Qed.

Lemma nre_bind {A B} (m : M A) (k : A -> M B) :
  no_request_exception m -> (forall a, no_request_exception (k a)) ->
  no_request_exception (bind m k).
Proof.
  intros Hm Hk st o st' ev H. apply bind_ends in H.
  destruct H as [(o1 & H & _ & _ & Hr & _)|(a & st1 & ev1 & ev2 & H1 & H2 & ->)].
  - intros E. apply Hr in E. now apply (Hm _ _ _ _ H).
  - exact (Hk a _ _ _ _ H2).
Qed.

Lemma nre_gets {A} (g : state -> A) : no_request_exception (gets g).
Proof. intros st o st' ev [= <- <- <-]. discriminate. Qed.

Lemma nre_modify (g : state -> state) : no_request_exception (modify g).
Proof. intros st o st' ev [= <- <- <-]. discriminate. Qed.

Lemma nre_emit (e : event) : no_request_exception (emit e).
Proof. intros st o st' ev [= <- <- <-]. discriminate. Qed.

Lemma nre_sys_exit {A} : no_request_exception (@sys_exit A).
Proof. intros st o st' ev [= <- <- <-]. discriminate. Qed.

Lemma nre_raise {A} (e : exn) :
  e <> RequestException -> no_request_exception (@raise A e).
Proof. intros H st o st' ev [= <- <- <-]. congruence. Qed.

Lemma nre_try {A} (m h : M A) :
  no_request_exception h -> no_request_exception (try_except_request m h).
Proof.
  intros Hh st o st' ev. unfold try_except_request.
  destruct (m st) as [[[a| |[]|] st1] ev1]; try (intros [= <- <- <-]; discriminate).
  destruct (h st1) as [[o2 st2] ev2] eqn:H2. intros [= <- <- <-].
  exact (Hh _ _ _ _ H2).
Qed.

End NoRequestException.

Open Scope Z_scope.

(* ================================================================= *)
(** ** Pacing *)

Section Pacing.

Lemma firstn_snoc_nth {A} (l : list A) (i : nat) (d : A) :
  (i < List.length l)%nat -> firstn (S i) l = firstn i l ++ [nth i l d].
Proof.
  revert i; induction l as [|x l IH]; intros i H; simpl in H; [lia|].
  destruct i as [|i]; [reflexivity|].
  cbn [firstn nth app]. simpl. f_equal. apply IH. lia.
Qed.

(** The index loop visits the entries from the last to the first. *)
Lemma parse_stop_time_loop_rev (each_stop : list str) (n : nat)
    (acc : list (list str)) :
  (n <= List.length each_stop)%nat ->
  parse_stop_time_loop each_stop n acc =
  acc ++ rev (map (fun each => split each ","%char) (firstn n each_stop)).
Proof.
  revert acc; induction n as [|i IH]; intros acc H.
  - simpl. now rewrite app_nil_r.
  - cbn [parse_stop_time_loop]. rewrite IH by lia.
    rewrite (firstn_snoc_nth each_stop i []) by lia.
    rewrite map_app, rev_app_distr. simpl. now rewrite <- app_assoc.
Qed.

Lemma parse_stop_time_rev (requests_times : str) :
  parse_stop_time requests_times =
  rev (map (fun each => split each ","%char)
           (split (strip requests_times ";") ";"%char)).
Proof.
  unfold parse_stop_time. rewrite parse_stop_time_loop_rev by lia.
  now rewrite firstn_all.
Qed.



Lemma freeze_time_unfold (st : state) :
  freeze_time st =
  let g := global_time st + 1 in
  let st1 := set_global_time g st in
  if g =? 1 then (Return tt, st1, [])
  else freeze_scan g (stop_times st) st1.
Proof.
  unfold freeze_time, bind, modify, gets. simpl.
  destruct (global_time st + 1 =? 1); simpl.
  - reflexivity.
  - destruct (freeze_scan _ _ _) as [[o st2] ev]. reflexivity.
Qed.




End Pacing.


Open Scope nat_scope.

(* ================================================================= *)
(** ** Relations between the state before and after *)

Section Respects.

Variable R : state -> state -> Prop.
Hypothesis R_refl : forall st, R st st.
Hypothesis R_trans : forall a b c, R a b -> R b c -> R a c.

Lemma respects_ret {A} (a : A) : respects R (ret a).
Proof. intros st o st' ev [= <- <- <-]. apply R_refl. Qed.

Lemma respects_bind {A B} (m : M A) (k : A -> M B) :
  respects R m -> (forall a, respects R (k a)) -> respects R (bind m k).
Proof.
  intros Hm Hk st o st' ev H. apply bind_ends in H.
  destruct H as [(o1 & H & _)|(a & st1 & ev1 & ev2 & H1 & H2 & ->)].
  - exact (Hm _ _ _ _ H).
  - exact (R_trans _ _ _ (Hm _ _ _ _ H1) (Hk a _ _ _ _ H2)).
Qed.

Lemma respects_lift {A} (o : outcome A) : respects R (lift o).
Proof. intros st o' st' ev [= <- <- <-]. apply R_refl. Qed.

Lemma respects_raise {A} (e : exn) : respects R (@raise A e).
Proof. intros st o' st' ev [= <- <- <-]. apply R_refl. Qed.



Lemma respects_emit (e : event) : respects R (emit e).
Proof. intros st o' st' ev [= <- <- <-]. apply R_refl. Qed.



Lemma respects_for_range (n : nat) (body : M unit) :
  respects R body -> respects R (for_range n body).
Proof.
  intros H. induction n as [|n IH]; simpl.
  - apply respects_ret.
  - apply respects_bind; auto.
Qed.

End Respects.

(* ================================================================= *)
(** ** The proxy pool *)

Section Pool.

Variable E : env.


















(** *** What a refill appends *)

Lemma number_from_app (first : nat) (l1 l2 : list (json * json)) :
  number_from first (l1 ++ l2) =
  number_from first l1 ++ number_from (first + length l1) l2.
Proof.
  revert first; induction l1 as [|[ip port] l1 IH]; intros first; simpl.
  - now rewrite Nat.add_0_r.
  - rewrite IH. now rewrite Nat.add_succ_r.
Qed.

Lemma number_from_length (first : nat) (l : list (json * json)) :
  length (number_from first l) = length l.
Proof.
  revert first; induction l as [|[ip port] l IH]; intros first; simpl; auto.
Qed.

Lemma add_slots_nil (st : state) : add_slots [] st = st.
Proof.
  unfold add_slots. simpl. rewrite app_nil_r, Nat.add_0_r. now destruct st.
Qed.

Lemma add_slots_app (l1 l2 : list slot) (st : state) :
  add_slots l2 (add_slots l1 st) = add_slots (l1 ++ l2) st.
Proof.
  unfold add_slots, set_next_slot, set_proxy_pool. simpl.
  now rewrite length_app, Nat.add_assoc, app_assoc.
Qed.

Lemma append_slot_entry (e : json * json) (st : state) :
  append_slot (entry_object e) st =
  (Return tt, add_slots (number_from (next_slot st) [e]) st, []).
Proof.
  destruct e as [ip port]. unfold append_slot, bind, lift, modify. simpl.
  unfold add_slots. simpl. now rewrite Nat.add_1_r.
Qed.

Lemma for_range_append_slot (k : nat) (e : json * json) (st : state) :
  for_range k (append_slot (entry_object e)) st =
  (Return tt, add_slots (number_from (next_slot st) (repeat e k)) st, []).
Proof.
  revert st; induction k as [|k IH]; intros st.
  - simpl. now rewrite add_slots_nil.
  - cbn [for_range]. unfold bind. rewrite append_slot_entry, IH.
    rewrite add_slots_app. simpl. destruct e as [ip port]. simpl.
    now rewrite Nat.add_1_r.
Qed.

Lemma refill_loop_entries (n : Z) (entries : list (json * json)) (st : state) :
  refill_loop n (map entry_object entries) st =
  (Return tt, add_slots (expand (Z.to_nat n) (next_slot st) entries) st, []).
Proof.
  revert st; induction entries as [|e entries IH]; intros st.
  - simpl. unfold expand. simpl. now rewrite add_slots_nil.
  - cbn [map refill_loop]. unfold bind. rewrite for_range_append_slot, IH.
    rewrite add_slots_app. unfold expand. simpl.
    rewrite number_from_app, number_from_length. reflexivity.
Qed.

Lemma refill_loop_no_repeat (n : Z) (items : list json) (st : state) :
  (n <= 0)%Z -> refill_loop n items st = (Return tt, st, []).
Proof.
  intros Hn. induction items as [|proxy items IH]; [reflexivity|].
  cbn [refill_loop]. unfold bind.
  replace (Z.to_nat n) with 0 by lia. simpl. now rewrite IH.
Qed.

End Pool.

Open Scope nat_scope.

Section PoolRefill.

Variable E : env.

Lemma refill_entries (n : Z) (st : state) (r : response)
    (entries : list (json * json)) :
  net E (net_calls st) = NetResponse r ->
  r_json r = Some (JArr (map entry_object entries)) ->
  refill E n st =
  (Return tt,
   add_slots (expand (Z.to_nat n) (next_slot st) entries)
             (set_net_calls (S (net_calls st)) st),
   [EvGet (HTTP_LINK (cfg E)) None None None]).
Proof.
  intros Hnet Hjson. unfold refill, bind, requests_get. rewrite Hnet, Hjson.
  unfold lift, json_iter. rewrite refill_loop_entries. reflexivity.
Qed.

Lemma refill_nothing (n : Z) (st : state) (r : response) (items : list json) :
  net E (net_calls st) = NetResponse r ->
  r_json r = Some (JArr items) ->
  items = [] \/ (n <= 0)%Z ->
  refill E n st =
  (Return tt, set_net_calls (S (net_calls st)) st,
   [EvGet (HTTP_LINK (cfg E)) None None None]).
Proof.
  intros Hnet Hjson Hcase. unfold refill, bind, requests_get. rewrite Hnet, Hjson.
  unfold lift, json_iter. destruct Hcase as [->|Hn].
  - reflexivity.
  - rewrite refill_loop_no_repeat by exact Hn. reflexivity.
Qed.



Lemma get_proxy_http :
  HTTP_EXTRACT (cfg E) = true ->
  get_proxy E =
  bind (pool_slot E (REPEAT_NUMBER (cfg E)))
       (fun s => ret (http_proxy_utils (slot_ip s) (slot_port s))).
Proof. intros H. unfold get_proxy. now rewrite H. Qed.






End PoolRefill.


(** C10.  In HTTP extraction mode, with proxies in use and the pool empty:
    a fetch that succeeds and appends nothing (an empty array, or a repeat
    factor that is not positive) leaves the pool empty and the [pop] raises
    [IndexError]; a fetch that fails ends the process after its diagnostic;
    with a repeat factor of at least one and a first entry the call returns
    the proxy of that entry. *)
Theorem empty_refill_raises_index_error (E : env) (st : state) :
  HTTP_EXTRACT (cfg E) = true ->
  ip_proxy st = true ->
  proxy_pool st = [] ->
  let fetch := EvGet (HTTP_LINK (cfg E)) None None None in
  let st1 := set_net_calls (S (net_calls st)) st in
  (forall r items,
     net E (net_calls st) = NetResponse r ->
     r_json r = Some (JArr items) ->
     items = [] \/ (REPEAT_NUMBER (cfg E) <= 0)%Z ->
     get_proxy E st = (Raise IndexError, st1, [fetch]) /\ proxy_pool st1 = []) /\
  (net E (net_calls st) = NetError ->
   get_proxy E st = (Exit, st1, [fetch; EvPrint "Failed to fetch proxies"])) /\
  (forall r e entries,
     net E (net_calls st) = NetResponse r ->
     r_json r = Some (JArr (map entry_object (e :: entries))) ->
     (1 <= REPEAT_NUMBER (cfg E))%Z ->
     exists st',
       get_proxy E st =
         (Return (http_proxy_utils (fst e) (snd e)), st', [fetch])).
Proof.
  intros Hhttp Hip Hp fetch st1. rewrite (get_proxy_http E Hhttp).
  split; [|split].
  - intros r items Hnet Hjson Hcase. split; [|exact Hp].
    unfold pool_slot, refill_and_pop, bind, gets, try_except_request.
    rewrite Hip, Hp. simpl.
    rewrite (refill_nothing E _ st r items Hnet Hjson Hcase).
    unfold pop_front, bind, gets. simpl. rewrite Hp. reflexivity.
  - intros Hnet.
    unfold pool_slot, refill_and_pop, bind, gets, try_except_request.
    rewrite Hip, Hp. simpl.
    unfold refill, bind, requests_get. rewrite Hnet. reflexivity.
  - intros r e entries Hnet Hjson Hn.
    unfold pool_slot, refill_and_pop, bind, gets, try_except_request.
    rewrite Hip, Hp. simpl.
    rewrite (refill_entries E _ st r (e :: entries) Hnet Hjson).
    unfold pop_front, bind, gets. simpl. rewrite Hp. simpl.
    destruct (Z.to_nat (REPEAT_NUMBER (cfg E))) as [|n] eqn:En; [lia|].
    unfold expand. simpl. destruct e as [ip port]. simpl.
    eexists. reflexivity.
Qed.

Open Scope Z_scope.

(* ================================================================= *)
(** ** Dispatch *)

(** *** The equations of [get_requests], mode by mode *)

Section Equations.

Variable E : env.
Variables (fuel : nat) (url : str).

Lemma get_requests_no_header :
  get_requests E (S fuel) url "no header" = requests_get E url None None None.
Proof. reflexivity. Qed.

Lemma get_requests_no_proxy_no_cookie :
  get_requests E (S fuel) url "no proxy, no cookie" =
  (freeze_time ;;;
   r <- (h <- get_header E None false ;; requests_get E url (Some h) None None) ;;
   handle_verify E (get_requests E fuel) r url "no proxy, no cookie").
Proof. reflexivity. Qed.

Lemma get_requests_no_proxy_cookie :
  get_requests E (S fuel) url "no proxy, cookie" =
  (freeze_time ;;;
   r <- (cur_cookie <- get_cookie url ;;
         h <- get_header E cur_cookie true ;;
         requests_get E url (Some h) None None) ;;
   handle_verify E (get_requests E fuel) r url "no proxy, cookie").
Proof. reflexivity. Qed.

Lemma get_requests_proxy_no_cookie :
  get_requests E (S fuel) url "proxy, no cookie" =
  (use_proxy <- gets ip_proxy ;;
   if use_proxy then
     a <- attempt (h <- get_header E None false ;;
                   p <- get_proxy E ;;
                   requests_get E url (Some h) (Some p) (Some 10)) ;;
     match a with
     | None => get_requests E fuel url "proxy, no cookie"
     | Some r => handle_verify E (get_requests E fuel) r url "proxy, no cookie"
     end
   else
     h <- get_header E None false ;;
     r <- requests_get E url (Some h) None None ;;
     handle_verify E (get_requests E fuel) r url "proxy, no cookie").
Proof. reflexivity. Qed.

Lemma get_requests_proxy_cookie :
  get_requests E (S fuel) url "proxy, cookie" =
  (freeze_time ;;;
   cur_cookie <- get_cookie url ;;
   h <- get_header E cur_cookie true ;;
   use_proxy <- gets ip_proxy ;;
   if use_proxy then
     a <- attempt (p <- get_proxy E ;;
                   requests_get E url (Some h) (Some p) (Some 10)) ;;
     match a with
     | None => get_requests E fuel url "proxy, cookie"
     | Some r => handle_verify E (get_requests E fuel) r url "proxy, cookie"
     end
   else
     r <- requests_get E url (Some h) None None ;;
     handle_verify E (get_requests E fuel) r url "proxy, cookie").
Proof. reflexivity. Qed.

Lemma get_requests_invalid (request_type : str) :
  str_mem request_type valid_request_types = false ->
  get_requests E (S fuel) url request_type = raise AssertionError.
Proof. intros H. cbn [get_requests]. now rewrite H. Qed.

End Equations.

(** The five modes. *)
Lemma valid_request_type_cases (request_type : str) :
  str_mem request_type valid_request_types = true ->
  request_type = "no header" \/ request_type = "no proxy, cookie" \/
  request_type = "no proxy, no cookie" \/ request_type = "proxy, no cookie" \/
  request_type = "proxy, cookie".
Proof.
  unfold str_mem, valid_request_types. cbn [existsb].
  rewrite !orb_true_iff, !str_eqb_eq. intuition discriminate.
Qed.

(** *** What the proxy pool leaves alone *)

Section ProxyInert.

Context {X : Type}.
Variable f : state -> X.
Variable p : event -> bool.
Hypothesis f_net : forall n st, f (set_net_calls n st) = f st.
Hypothesis f_pool : forall l st, f (set_proxy_pool l st) = f st.
Hypothesis f_slot : forall n st, f (set_next_slot n st) = f st.
Hypothesis p_fetch : forall u pr t, p (EvGet u None pr t) = false.
Hypothesis p_print : forall msg, p (EvPrint msg) = false.
Variable E : env.

Lemma fetch_inert (u : str) : inert f p (requests_get E u None None None).
Proof.
  intros st o st' ev. unfold requests_get.
  destruct (net E (net_calls st)); intros [= <- <- <-];
    (split; [apply f_net|unfold count; simpl; now rewrite p_fetch]).
Qed.

Lemma append_slot_inert (proxy : json) : inert f p (append_slot proxy).
Proof.
  unfold append_slot. apply inert_bind; [apply inert_lift|]. intros ip.
  apply inert_bind; [apply inert_lift|]. intros port.
  apply inert_modify. intros st. now rewrite f_slot, f_pool.
Qed.

Lemma refill_loop_inert (n : Z) (items : list json) : inert f p (refill_loop n items).
Proof.
  induction items as [|proxy items IH]; simpl.
  - apply inert_ret.
  - apply inert_bind; [|auto]. apply inert_for_range, append_slot_inert.
Qed.

Lemma refill_inert (n : Z) : inert f p (refill E n).
Proof.
  unfold refill. apply inert_bind; [apply fetch_inert|]. intros r.
  destruct (r_json r).
  - apply inert_bind; [apply inert_lift|]. intros items. apply refill_loop_inert.
  - apply inert_raise.
Qed.

Lemma pop_front_inert : inert f p pop_front.
Proof.
  unfold pop_front. apply inert_bind; [apply inert_gets|]. intros [|s rest].
  - apply inert_raise.
  - apply inert_bind; [|intros; apply inert_ret].
    apply inert_modify. intros st. apply f_pool.
Qed.

Lemma pool_slot_inert (n : Z) : inert f p (pool_slot E n).
Proof.
  unfold pool_slot. apply inert_bind; [apply inert_gets|].
  intros [|]; [|apply inert_raise].
  unfold refill_and_pop. apply inert_bind; [apply inert_gets|]. intros pool.
  apply inert_bind; [|intros; apply pop_front_inert].
  apply inert_if; [|apply inert_ret].
  apply inert_try; [apply refill_inert|].
  apply inert_bind; [apply inert_emit, p_print|intros; apply inert_sys_exit].
Qed.

Lemma get_proxy_inert : inert f p (get_proxy E).
Proof.
  unfold get_proxy. repeat apply inert_if.
  - apply inert_bind; [apply pool_slot_inert|intros; apply inert_ret].
  - apply inert_ret.
  - apply inert_bind; [apply inert_emit, p_print|intros; apply inert_sys_exit].
Qed.

Lemma get_header_inert (c : option str) (b : bool) : inert f p (get_header E c b).
Proof.
  unfold get_header. apply inert_bind; [apply inert_gets|]. intros u.
  apply inert_bind; [apply inert_gets|]. intros c'.
  apply inert_if; apply inert_ret.
Qed.

Lemma get_cookie_inert (u : str) : inert f p (get_cookie u).
Proof. apply inert_gets. Qed.

End ProxyInert.

Section ProxyNoException.

Variable E : env.

Lemma pop_front_nre : no_request_exception pop_front.
Proof.
  unfold pop_front. apply nre_bind; [apply nre_gets|]. intros [|s rest].
  - now apply nre_raise.
  - apply nre_bind; [apply nre_modify|intros; apply nre_ret].
Qed.

Lemma get_proxy_nre : no_request_exception (get_proxy E).
Proof.
  unfold get_proxy.
  destruct (HTTP_EXTRACT (cfg E)); [|destruct (KEY_EXTRACT (cfg E))].
  - apply nre_bind; [|intros; apply nre_ret]. unfold pool_slot.
    apply nre_bind; [apply nre_gets|]. intros [|]; [|now apply nre_raise].
    unfold refill_and_pop. apply nre_bind; [apply nre_gets|]. intros pool.
    apply nre_bind; [|intros; apply pop_front_nre].
    destruct (_ =? _)%nat; [|apply nre_ret].
    apply nre_try. apply nre_bind; [apply nre_emit|intros; apply nre_sys_exit].
  - apply nre_ret.
  - apply nre_bind; [apply nre_emit|intros; apply nre_sys_exit].
Qed.

Lemma get_header_nre (c : option str) (b : bool) :
  no_request_exception (get_header E c b).
Proof.
  unfold get_header. apply nre_bind; [apply nre_gets|]. intros u.
  apply nre_bind; [apply nre_gets|]. intros c'. destruct b; apply nre_ret.
Qed.

End ProxyNoException.

Open Scope Z_scope.

(** *** What a dispatch leaves alone *)

Section DispatchInert.

Context {X : Type}.
Variable f : state -> X.
Variable p : event -> bool.
Hypothesis f_net : forall n st, f (set_net_calls n st) = f st.
Hypothesis f_pool : forall l st, f (set_proxy_pool l st) = f st.
Hypothesis f_slot : forall n st, f (set_next_slot n st) = f st.
Hypothesis p_get : forall u h pr t, p (EvGet u h pr t) = false.
Hypothesis p_print : forall msg, p (EvPrint msg) = false.
Hypothesis p_skip : p EvSkip = false.
Hypothesis p_redirect : forall u, p (EvPrompt RedirectChallenge u) = false.
Variable E : env.

Lemma requests_get_inert u h pr t : inert f p (requests_get E u h pr t).
Proof.
  intros st o st' ev. unfold requests_get.
  destruct (net E (net_calls st)); intros [= <- <- <-];
    (split; [apply f_net|unfold count; simpl; now rewrite p_get]).
Qed.

Lemma handle_verify_inert (self_get_requests : str -> str -> M response)
    (r : response) (url request_type : str) :
  inert f p (self_get_requests url request_type) ->
  inert f p (handle_verify E self_get_requests r url request_type).
Proof.
  intros H. unfold handle_verify. apply inert_if; [|apply inert_ret].
  apply inert_bind; [|intros; exact H].
  apply inert_if; apply inert_emit; auto.
Qed.

Lemma attempt_inert (m : M response) : inert f p m -> inert f p (attempt m).
Proof.
  intros H. unfold attempt. apply inert_try.
  - apply inert_bind; [exact H|intros; apply inert_ret].
  - apply inert_bind; [apply inert_emit, p_print|intros; apply inert_ret].
Qed.

Lemma proxy_inert : inert f p (get_proxy E).
Proof.
  apply get_proxy_inert; auto.
Qed.

Lemma header_inert (c : option str) (b : bool) : inert f p (get_header E c b).
Proof. apply get_header_inert. Qed.

Lemma get_requests_inert_unpaced (fuel : nat) (url request_type : str) :
  request_type = "no header" \/ request_type = "proxy, no cookie" ->
  inert f p (get_requests E fuel url request_type).
Proof.
  intros Hrt. induction fuel as [|fuel IH]; [apply inert_raise|].
  destruct Hrt as [->| ->].
  - rewrite get_requests_no_header. apply requests_get_inert.
  - rewrite get_requests_proxy_no_cookie.
    apply inert_bind; [apply inert_gets|]. intros use_proxy. apply inert_if.
    + apply inert_bind.
      * apply attempt_inert. apply inert_bind; [apply header_inert|]. intros h.
        apply inert_bind; [apply proxy_inert|]. intros pr. apply requests_get_inert.
      * intros [r|]; [|apply IH]. apply handle_verify_inert, IH.
    + apply inert_bind; [apply header_inert|]. intros h.
      apply inert_bind; [apply requests_get_inert|]. intros r.
      apply handle_verify_inert, IH.
Qed.

Hypothesis freeze_inert : inert f p freeze_time.

Lemma get_requests_inert (fuel : nat) (url request_type : str) :
  inert f p (get_requests E fuel url request_type).
Proof.
  induction fuel as [|fuel IH]; [apply inert_raise|].
  destruct (str_mem request_type valid_request_types) eqn:Hv;
    [|rewrite get_requests_invalid by exact Hv; apply inert_raise].
  apply valid_request_type_cases in Hv.
  destruct Hv as [Hrt|[->|[->|[Hrt| ->]]]].
  - apply get_requests_inert_unpaced. now left.
  - rewrite get_requests_no_proxy_cookie.
    apply inert_bind; [exact freeze_inert|]. intros _.
    apply inert_bind; [|intros r; apply handle_verify_inert, IH].
    apply inert_bind; [apply get_cookie_inert|]. intros c.
    apply inert_bind; [apply header_inert|]. intros h. apply requests_get_inert.
  - rewrite get_requests_no_proxy_no_cookie.
    apply inert_bind; [exact freeze_inert|]. intros _.
    apply inert_bind; [|intros r; apply handle_verify_inert, IH].
    apply inert_bind; [apply header_inert|]. intros h. apply requests_get_inert.
  - apply get_requests_inert_unpaced. now right.
  - rewrite get_requests_proxy_cookie.
    apply inert_bind; [exact freeze_inert|]. intros _.
    apply inert_bind; [apply get_cookie_inert|]. intros c.
    apply inert_bind; [apply header_inert|]. intros h.
    apply inert_bind; [apply inert_gets|]. intros use_proxy. apply inert_if.
    + apply inert_bind.
      * apply attempt_inert.
        apply inert_bind; [apply proxy_inert|]. intros pr. apply requests_get_inert.
      * intros [r|]; [|apply IH]. apply handle_verify_inert, IH.
    + apply inert_bind; [apply requests_get_inert|]. intros r.
      apply handle_verify_inert, IH.
Qed.

End DispatchInert.

Section FreezeInert.

Context {X : Type}.
Variable f : state -> X.
Variable p : event -> bool.
Hypothesis f_global : forall g st, f (set_global_time g st) = f st.
Hypothesis p_sleep : p EvSleep = false.

Lemma freeze_scan_inert (g : Z) (rows : list (list str)) :
  inert f p (freeze_scan g rows).
Proof.
  induction rows as [|row rows IH]; simpl; [apply inert_ret|].
  repeat (apply inert_bind; [apply inert_lift|intros ?]).
  repeat apply inert_if; auto using inert_raise.
  apply inert_for_range, inert_emit, p_sleep.
Qed.

Lemma freeze_time_inert : inert f p freeze_time.
Proof.
  unfold freeze_time. apply inert_bind; [apply inert_modify; auto|]. intros _.
  apply inert_bind; [apply inert_gets|]. intros g.
  apply inert_if; [|apply inert_ret].
  apply inert_bind; [apply inert_gets|]. intros rows. apply freeze_scan_inert.
Qed.

End FreezeInert.

(** *** The counter and the credentialed calls *)

Section Counting.

Variable E : env.

Lemma ledger_ret {A} (d : Z) (a : A) : ledger d d (ret a).
Proof.
  intros st o st' ev [= <- <- <-]. cbv zeta. unfold count. simpl. lia.
Qed.

Lemma ledger_bind {A B} (d1 d2 d3 : Z) (m : M A) (k : A -> M B) :
  ledger d1 d2 m -> (forall a, ledger d2 d3 (k a)) -> ledger d1 d3 (bind m k).
Proof.
  intros Hm Hk st o st' ev. unfold bind.
  destruct (m st) as [[o1 st1] ev1] eqn:H1.
  pose proof (Hm _ _ _ _ H1) as [Hle1 Hacc1]. cbv zeta in *.
  destruct o1 as [a| |e|].
  - destruct (k a st1) as [[o2 st2] ev2] eqn:H2. intros [= <- <- <-].
    pose proof (Hk a _ _ _ _ H2) as [Hle2 Hacc2]. cbv zeta in *.
    rewrite count_app, Nat2Z.inj_add. split; [lia|].
    destruct o2 as [b| |e|]; [lia|lia| |lia]. destruct e; lia.
  - intros [= <- <- <-]. split; [exact Hle1|exact Hacc1].
  - intros [= <- <- <-]. split; [exact Hle1|exact Hacc1].
  - intros [= <- <- <-]. split; [exact Hle1|exact Hacc1].
Qed.

(** What leaves the counter alone and makes no credentialed call keeps what
    is owed. *)
Lemma ledger_inert {A} (d : Z) (m : M A) :
  0 <= d <= 1 ->
  inert global_time is_credentialed m -> no_request_exception m ->
  ledger d d m.
Proof.
  intros Hd Hi Hn st o st' ev H. destruct (Hi _ _ _ _ H) as [Hg Hc].
  pose proof (Hn _ _ _ _ H) as Hre. cbv zeta. rewrite Hc, Hg.
  split; [lia|]. destruct o as [a| |e|]; try (simpl; lia).
  destruct e; try (simpl; lia). congruence.
Qed.

Lemma index_not_request {A} (row : list A) (i : nat) :
  index row i <> Raise RequestException.
Proof. unfold index. now destruct (nth_error row i). Qed.

Lemma to_int_not_request (s : str) : to_int s <> Raise RequestException.
Proof. unfold to_int. now destruct (py_int s). Qed.

Lemma nre_lift {A} (o : outcome A) :
  o <> Raise RequestException -> no_request_exception (lift o).
Proof. intros H st o' st' ev [= <- <- <-]. exact H. Qed.

Lemma nre_for_range (n : nat) (body : M unit) :
  no_request_exception body -> no_request_exception (for_range n body).
Proof.
  intros H. induction n as [|n IH]; simpl; [apply nre_ret|].
  apply nre_bind; [exact H|intros _; exact IH].
Qed.

Lemma freeze_scan_nre (g : Z) (rows : list (list str)) :
  no_request_exception (freeze_scan g rows).
Proof.
  induction rows as [|row rows IH]; simpl; [apply nre_ret|].
  apply nre_bind; [apply nre_lift, index_not_request|]. intros s0.
  apply nre_bind; [apply nre_lift, to_int_not_request|]. intros request_count.
  apply nre_bind; [apply nre_lift, index_not_request|]. intros s1.
  apply nre_bind; [apply nre_lift, to_int_not_request|]. intros sleep_duration.
  destruct (request_count =? 0); [now apply nre_raise|].
  destruct (_ =? 0); [|exact IH].
  apply nre_for_range, nre_emit.
Qed.

(** The pacing check counts the request to come, however it ends. *)
Lemma ledger_freeze_time : ledger 0 1 freeze_time.
Proof.
  intros st o st' ev H. rewrite freeze_time_unfold in H. cbv zeta in *.
  destruct (global_time st + 1 =? 1).
  - injection H as <- <- <-. unfold count. simpl. lia.
  - pose proof (freeze_scan_nre _ _ _ _ _ _ H) as Hre.
    apply (freeze_scan_inert global_time is_credentialed) in H; [|reflexivity].
    destruct H as [Hg Hc]. simpl in Hg. rewrite Hc, Hg.
    split; [lia|]. destruct o as [a| |e|]; try lia.
    destruct e; try lia. congruence.
Qed.

(** The request settles it, also when it fails. *)
Lemma ledger_requests_get u h pr t :
  ledger 1 0 (requests_get E u (Some h) pr t).
Proof.
  intros st o st' ev. unfold requests_get.
  destruct (net E (net_calls st)); intros [= <- <- <-]; cbv zeta;
    unfold count; simpl; lia.
Qed.

(** A proxied attempt whose request failed has made it. *)
Lemma ledger_attempt (m : M response) : ledger 1 0 m -> ledger 1 0 (attempt m).
Proof.
  intros Hm st o st' ev. unfold attempt, try_except_request, bind.
  destruct (m st) as [[o1 st1] ev1] eqn:H1.
  pose proof (Hm _ _ _ _ H1) as [Hle Hacc]. cbv zeta in *.
  destruct o1 as [r| |e|].
  - intros [= <- <- <-]. rewrite count_app. unfold count at 2. simpl.
    rewrite Nat.add_0_r. split; [exact Hle|exact Hacc].
  - intros [= <- <- <-]. split; [exact Hle|exact Hacc].
  - destruct e; try (intros [= <- <- <-]; split; [exact Hle|exact Hacc]).
    simpl. intros [= <- <- <-]. rewrite count_app. unfold count at 2. simpl.
    rewrite Nat.add_0_r. split; [exact Hle|lia].
  - intros [= <- <- <-]. split; [exact Hle|exact Hacc].
Qed.

Lemma ledger_emit (d : Z) (e : event) :
  0 <= d <= 1 -> is_credentialed e = false -> ledger d d (emit e).
Proof.
  intros Hd He. apply ledger_inert; [exact Hd|now apply inert_emit|apply nre_emit].
Qed.

Lemma ledger_handle_verify (self_get_requests : str -> str -> M response)
    (r : response) (url request_type : str) :
  ledger 0 0 (self_get_requests url request_type) ->
  ledger 0 0 (handle_verify E self_get_requests r url request_type).
Proof.
  intros H. unfold handle_verify. destruct (contains _ _); [|apply ledger_ret].
  apply (ledger_bind 0 0 0); [|intros; exact H].
  destruct (_ || _); now apply ledger_emit.
Qed.

Lemma proxy_uncounted : inert global_time is_credentialed (get_proxy E).
Proof. apply get_proxy_inert; reflexivity. Qed.

Lemma header_uncounted (c : option str) (b : bool) :
  inert global_time is_credentialed (get_header E c b).
Proof. apply get_header_inert. Qed.

Lemma ledger_get_header (d : Z) (c : option str) (b : bool) :
  0 <= d <= 1 -> ledger d d (get_header E c b).
Proof.
  intros Hd. apply ledger_inert;
    [exact Hd|apply header_uncounted|apply get_header_nre].
Qed.

Lemma ledger_gets {A} (d : Z) (g : state -> A) :
  0 <= d <= 1 -> ledger d d (gets g).
Proof. intros Hd. apply ledger_inert; [exact Hd|apply inert_gets|apply nre_gets]. Qed.

Lemma ledger_get_proxy : ledger 1 1 (get_proxy E).
Proof. apply ledger_inert; [lia|apply proxy_uncounted|apply get_proxy_nre]. Qed.

(** In the three paced modes every invocation counts one request and makes
    it, unless it ends between the pacing check and the request. *)
Lemma get_requests_ledger (fuel : nat) (url request_type : str) :
  request_type = "no proxy, cookie" \/ request_type = "no proxy, no cookie" \/
  request_type = "proxy, cookie" ->
  ledger 0 0 (get_requests E fuel url request_type).
Proof.
  intros Hrt. induction fuel as [|fuel IH].
  - intros st o st' ev [= <- <- <-]. cbv zeta. unfold count. simpl. lia.
  - destruct Hrt as [->|[->| ->]].
    + rewrite get_requests_no_proxy_cookie.
      apply (ledger_bind 0 1 0); [apply ledger_freeze_time|]. intros _.
      apply (ledger_bind 1 0 0); [|intros r; apply ledger_handle_verify, IH].
      apply (ledger_bind 1 1 0); [apply ledger_gets; lia|]. intros c.
      apply (ledger_bind 1 1 0); [apply ledger_get_header; lia|]. intros h.
      apply ledger_requests_get.
    + rewrite get_requests_no_proxy_no_cookie.
      apply (ledger_bind 0 1 0); [apply ledger_freeze_time|]. intros _.
      apply (ledger_bind 1 0 0); [|intros r; apply ledger_handle_verify, IH].
      apply (ledger_bind 1 1 0); [apply ledger_get_header; lia|]. intros h.
      apply ledger_requests_get.
    + rewrite get_requests_proxy_cookie.
      apply (ledger_bind 0 1 0); [apply ledger_freeze_time|]. intros _.
      apply (ledger_bind 1 1 0); [apply ledger_gets; lia|]. intros c.
      apply (ledger_bind 1 1 0); [apply ledger_get_header; lia|]. intros h.
      apply (ledger_bind 1 1 0); [apply ledger_gets; lia|]. intros use_proxy.
      destruct use_proxy.
      * apply (ledger_bind 1 0 0).
        -- apply ledger_attempt.
           apply (ledger_bind 1 1 0); [apply ledger_get_proxy|]. intros pr.
           apply ledger_requests_get.
        -- intros [r|]; [|apply IH]. apply ledger_handle_verify, IH.
      * apply (ledger_bind 1 0 0); [apply ledger_requests_get|].
        intros r. apply ledger_handle_verify, IH.
Qed.

(** With room for the invocation, the pacing check is its first step: its
    events come first and the counter is at least one higher afterwards. *)
Lemma get_requests_counts_first (fuel : nat) (url request_type : str)
    (st : state) (o : outcome response) (st' : state) (ev : list event) :
  request_type = "no proxy, cookie" \/ request_type = "no proxy, no cookie" \/
  request_type = "proxy, cookie" ->
  get_requests E (S fuel) url request_type st = (o, st', ev) ->
  global_time st + 1 <= global_time st'.
Proof.
  intros Hrt H.
  assert (Hform : exists rest : M response,
             get_requests E (S fuel) url request_type = (freeze_time ;;; rest) /\
             ledger 1 0 rest).
  { pose proof (get_requests_ledger fuel url request_type Hrt) as IH.
    destruct Hrt as [->|[->| ->]]; eexists; (split; [reflexivity|]).
    - apply (ledger_bind 1 0 0); [|intros r; apply ledger_handle_verify, IH].
      apply (ledger_bind 1 1 0); [apply ledger_gets; lia|]. intros c.
      apply (ledger_bind 1 1 0); [apply ledger_get_header; lia|]. intros h.
      apply ledger_requests_get.
    - apply (ledger_bind 1 0 0); [|intros r; apply ledger_handle_verify, IH].
      apply (ledger_bind 1 1 0); [apply ledger_get_header; lia|]. intros h.
      apply ledger_requests_get.
    - apply (ledger_bind 1 1 0); [apply ledger_gets; lia|]. intros c.
      apply (ledger_bind 1 1 0); [apply ledger_get_header; lia|]. intros h.
      apply (ledger_bind 1 1 0); [apply ledger_gets; lia|]. intros use_proxy.
      destruct use_proxy.
      + apply (ledger_bind 1 0 0).
        * apply ledger_attempt.
          apply (ledger_bind 1 1 0); [apply ledger_get_proxy|]. intros pr.
          apply ledger_requests_get.
        * intros [r|]; [|apply IH]. apply ledger_handle_verify, IH.
      + apply (ledger_bind 1 0 0); [apply ledger_requests_get|].
        intros r. apply ledger_handle_verify, IH. }
  destruct Hform as (rest & Heq & Hrest). rewrite Heq in H. unfold bind in H.
  destruct (freeze_time st) as [[o1 st1] ev1] eqn:H1.
  assert (Hg1 : global_time st1 = global_time st + 1).
  { rewrite freeze_time_unfold in H1. cbv zeta in H1.
    destruct (global_time st + 1 =? 1).
    - now injection H1 as <- <- <-.
    - apply (freeze_scan_inert global_time is_credentialed) in H1; [|reflexivity].
      destruct H1 as [Hg _]. exact Hg. }
  destruct o1 as [[]| |e|]; try (injection H as <- <- <-; lia).
  destruct (rest st1) as [[o2 st2] ev2] eqn:H2. injection H as <- <- <-.
  destruct (Hrest _ _ _ _ H2) as [Hle _]. lia.
Qed.

(** In the other two modes the counter stays and nothing sleeps. *)
Lemma get_requests_unpaced (fuel : nat) (url request_type : str) :
  request_type = "no header" \/ request_type = "proxy, no cookie" ->
  inert global_time is_sleep (get_requests E fuel url request_type).
Proof. now apply get_requests_inert_unpaced. Qed.

Lemma bind_events_prefix {A B} (m : M A) (k : A -> M B) (st : state) :
  exists rest, snd (bind m k st) = snd (m st) ++ rest.
Proof.
  unfold bind. destruct (m st) as [[[a| |e|] st1] ev1]; simpl;
    try (exists []; now rewrite app_nil_r).
  destruct (k a st1) as [[o2 st2] ev2]. now exists ev2.
Qed.

(** A paced dispatch begins with the pacing check. *)
Lemma get_requests_freezes_first (fuel : nat) (url request_type : str)
    (st : state) :
  request_type = "no proxy, cookie" \/ request_type = "no proxy, no cookie" \/
  request_type = "proxy, cookie" ->
  exists rest,
    snd (get_requests E (S fuel) url request_type st) =
    snd (freeze_time st) ++ rest.
Proof.
  intros [->|[->| ->]];
    [rewrite get_requests_no_proxy_cookie
    |rewrite get_requests_no_proxy_no_cookie
    |rewrite get_requests_proxy_cookie];
    apply bind_events_prefix.
Qed.

End Counting.

Open Scope Z_scope.

(* ================================================================= *)
(** ** The API entry point *)

Section PausesOnce.

Lemma pauses_once_inert {A} (m : M A) :
  inert is_cold_start is_api_prompt m -> pauses_once m.
Proof.
  intros H st o st' ev Hm. destruct (H _ _ _ _ Hm) as [Hf Hc].
  rewrite Hc. repeat split; try lia; congruence.
Qed.

Lemma pauses_once_bind {A B} (m : M A) (k : A -> M B) :
  pauses_once m -> (forall a, pauses_once (k a)) -> pauses_once (bind m k).
Proof.
  intros Hm Hk st o st' ev H. apply bind_ends in H.
  destruct H as [(o1 & H & _ & Hr & _)|(a & st1 & ev1 & ev2 & H1 & H2 & ->)].
  - destruct (Hm _ _ _ _ H) as (P1 & P2 & P3). repeat split; auto; try apply P1; auto.
    intros _ Ho. congruence.
  - destruct (Hm _ _ _ _ H1) as (P1 & P2 & P3).
    destruct (Hk a _ _ _ _ H2) as (Q1 & Q2 & Q3).
    rewrite count_app. split; [|split].
    + intros Hc. destruct (P1 Hc) as [-> Hc1]. destruct (Q1 Hc1) as [-> Hc2].
      now split.
    + destruct (is_cold_start st1) eqn:Hc1.
      * destruct (count is_api_prompt ev1) as [|n] eqn:E1; [lia|].
        assert (n = 0)%nat by lia. subst n.
        specialize (P3 eq_refl eq_refl). congruence.
      * destruct (Q1 eq_refl) as [-> _]. lia.
    + intros Hc Ho. destruct (is_cold_start st1) eqn:Hc1.
      * destruct (count is_api_prompt ev1) as [|n] eqn:E1.
        -- apply Q3; [lia|exact Ho].
        -- assert (n = 0)%nat by lia. subst n.
           specialize (P3 eq_refl eq_refl). congruence.
      * now destruct (Q1 eq_refl).
Qed.

Lemma pauses_once_ret {A} (a : A) : pauses_once (ret a).
Proof. apply pauses_once_inert, inert_ret. Qed.

End PausesOnce.

Section Interface.

Variable E : env.

Lemma get_requests_quiet (fuel : nat) (url request_type : str) :
  inert is_cold_start is_api_prompt (get_requests E fuel url request_type).
Proof.
  apply get_requests_inert; try reflexivity.
  apply freeze_time_inert; reflexivity.
Qed.

Lemma json_code_406 (code : json) :
  json_eq_int code 406 = true -> json_eq_int code 200 = false.
Proof.
  destruct code as [|[]|z| | |]; simpl; try discriminate.
  intros H. apply Z.eqb_eq in H. now subst z.
Qed.

(** The cold-start pause: one prompt, one more request, the flag cleared. *)
Lemma cold_start_check_pauses (fuel : nat) (url : str) (r : response)
    (r_json code custom page : json) (st : state) (r' : response)
    (st' : state) (ev : list event) :
  json_get r_json "code" = Return code ->
  json_eq_int code 406 = true ->
  is_cold_start st = true ->
  subscript r_json "customData" = Return custom ->
  subscript custom "verifyPageUrl" = Return page ->
  get_requests E fuel url "proxy, no cookie" st = (Return r', st', ev) ->
  cold_start_check E fuel url r r_json st =
  (Return r', set_is_cold_start false st', EvPrompt ApiChallenge page :: ev).
Proof.
  intros Hcode H406 Hcold Hcustom Hpage Hget.
  unfold cold_start_check, bind, lift, gets, emit, modify, ret.
  rewrite Hcode, H406, Hcold, Hcustom, Hpage, Hget. simpl.
  now rewrite app_nil_r.
Qed.

(** Without the challenge status, or with the flag down, nothing happens. *)
Lemma cold_start_check_skips (fuel : nat) (url : str) (r : response)
    (r_json code : json) (st : state) :
  json_get r_json "code" = Return code ->
  json_eq_int code 406 = false \/ is_cold_start st = false ->
  cold_start_check E fuel url r r_json st = (Return r, st, []).
Proof.
  intros Hcode Hcase.
  unfold cold_start_check, bind, lift, gets, ret. rewrite Hcode.
  destruct (json_eq_int code 406); [|reflexivity].
  destruct Hcase as [Hc|Hc]; [discriminate|]. now rewrite Hc.
Qed.

Lemma cold_start_check_once (fuel : nat) (url : str) (r : response)
    (r_json : json) :
  pauses_once (cold_start_check E fuel url r r_json).
Proof.
  intros st o st' ev H.
  unfold cold_start_check, bind at 1, lift in H.
  destruct (json_get r_json "code") as [code| |e|];
    try (injection H as <- <- <-; repeat split; auto; discriminate).
  destruct (json_eq_int code 406);
    [|injection H as <- <- <-; repeat split; auto; discriminate].
  unfold bind at 1, gets in H.
  destruct (is_cold_start st) eqn:Hcold;
    [|injection H as <- <- <-; repeat split; auto; discriminate].
  split; [discriminate|].
  unfold bind at 1, lift in H.
  destruct (subscript r_json "customData") as [custom| |e|];
    try (injection H as <- <- <-; split; [unfold count; simpl; lia|discriminate]).
  unfold bind at 1, lift in H.
  destruct (subscript custom "verifyPageUrl") as [page| |e|];
    try (injection H as <- <- <-; split; [unfold count; simpl; lia|discriminate]).
  unfold bind at 1, emit in H. unfold bind at 1 in H.
  destruct (get_requests E fuel url "proxy, no cookie" st) as [[o1 st1] ev1] eqn:Hg.
  destruct (get_requests_quiet _ _ _ _ _ _ _ Hg) as [_ Hc].
  assert (Hev : count is_api_prompt (EvPrompt ApiChallenge page :: ev1) = 1%nat).
  { unfold count in *. cbn [filter is_api_prompt length]. lia. }
  destruct o1 as [r1| |e|]; simpl in H; injection H as <- <- <-;
    rewrite ?app_nil_r, Hev; (split; [lia|]); easy.
Qed.

Lemma interface_loop_once (gas fuel : nat) (url : str) (retry_time : Z)
    (r : option response) :
  pauses_once (interface_loop E gas fuel url retry_time r).
Proof.
  revert retry_time r; induction gas as [|gas IH]; intros retry_time r;
    cbn [interface_loop]; destruct (retry_time >? 0).
  - apply pauses_once_inert, inert_out_of_fuel.
  - destruct r; [apply pauses_once_ret|apply pauses_once_inert, inert_raise].
  - apply pauses_once_bind; [apply pauses_once_inert, get_requests_quiet|].
    intros r1. destruct (r_json r1) as [j|].
    + apply pauses_once_bind; [apply cold_start_check_once|]. intros r2.
      apply pauses_once_bind; [apply pauses_once_inert, inert_lift|]. intros code.
      destruct (json_eq_int code 200); [apply pauses_once_ret|].
      destruct (retry_time - 1 <=? 0); [|apply IH].
      apply pauses_once_inert, inert_bind;
        [now apply inert_emit|intros; apply inert_sys_exit].
    + apply pauses_once_bind; [|intros; apply IH].
      apply pauses_once_inert. now apply inert_emit.
  - destruct r; [apply pauses_once_ret|apply pauses_once_inert, inert_raise].
Qed.

Lemma get_request_for_interface_once (fuel : nat) (url : str) :
  pauses_once (get_request_for_interface E fuel url).
Proof. apply interface_loop_once. Qed.

Lemma run_interface_once (fuel : nat) (urls : list str) :
  pauses_once (run_interface E fuel urls).
Proof.
  induction urls as [|url urls IH]; simpl; [apply pauses_once_ret|].
  apply pauses_once_bind; [apply get_request_for_interface_once|]. intros r.
  apply pauses_once_bind; [exact IH|intros; apply pauses_once_ret].
Qed.

(** One iteration of the loop that meets the cold-start challenge: two
    requests are sent, the budget has gone down by one. *)
Lemma interface_loop_cold_start (gas fuel : nat) (url : str) (retry_time : Z)
    (r : option response) (st : state)
    (r1 : response) (st1 : state) (ev1 : list event)
    (r_json1 code custom page : json)
    (r2 : response) (st2 : state) (ev2 : list event) :
  0 < retry_time ->
  get_requests E fuel url "proxy, no cookie" st = (Return r1, st1, ev1) ->
  r_json r1 = Some r_json1 ->
  json_get r_json1 "code" = Return code ->
  json_eq_int code 406 = true ->
  is_cold_start st1 = true ->
  subscript r_json1 "customData" = Return custom ->
  subscript custom "verifyPageUrl" = Return page ->
  get_requests E fuel url "proxy, no cookie" st1 = (Return r2, st2, ev2) ->
  interface_loop E (S gas) fuel url retry_time r st =
  (let st3 := set_is_cold_start false st2 in
   let seen := ev1 ++ EvPrompt ApiChallenge page :: ev2 in
   if retry_time - 1 <=? 0
   then (Exit, st3,
         seen ++ [EvPrint "Please check your tsv and uuid, or the proxy quality may be low."])
   else let '(o, st4, ev4) :=
          interface_loop E gas fuel url (retry_time - 1) (Some r2) st3 in
        (o, st4, seen ++ ev4)).
Proof.
  intros Hpos Hg1 Hj Hcode H406 Hcold Hcustom Hpage Hg2.
  cbn [interface_loop].
  replace (retry_time >? 0) with true by (symmetry; apply Z.gtb_lt; lia).
  unfold bind at 1. rewrite Hg1, Hj.
  unfold bind at 1.
  rewrite (cold_start_check_pauses fuel url r1 r_json1 code custom page st1 r2 st2 ev2)
    by assumption.
  unfold bind at 1, lift. rewrite Hcode, (json_code_406 code H406).
  cbv zeta. destruct (retry_time - 1 <=? 0).
  - unfold bind, emit, sys_exit. simpl. now rewrite <- !app_assoc.
  - destruct (interface_loop E gas fuel url (retry_time - 1) (Some r2) _)
      as [[o st4] ev4]. simpl. now rewrite <- !app_assoc.
Qed.

End Interface.

Open Scope Z_scope.

Lemma bind_return_eq {A B} (m : M A) (k : A -> M B) st a st1 ev1 :
  m st = (Return a, st1, ev1) ->
  bind m k st = (let '(o, st2, ev2) := k a st1 in (o, st2, ev1 ++ ev2)).
Proof. intros H. unfold bind. now rewrite H. Qed.

Lemma get_header_returns (E : env) (c : option str) (b : bool) (st : state) :
  exists h, get_header E c b st = (Return h, st, []).
Proof.
  unfold get_header, bind, gets, ret. destruct b; eexists; reflexivity.
Qed.

Lemma requests_get_returns (E : env) u h p t (st : state) (r : response) :
  net E (net_calls st) = NetResponse r ->
  requests_get E u h p t st =
  (Return r, set_net_calls (S (net_calls st)) st, [EvGet u h p t]).
Proof. intros H. unfold requests_get. now rewrite H. Qed.

Lemma handle_verify_clean (E : env) (self_get_requests : str -> str -> M response)
    (r : response) (url request_type : str) (st : state) :
  contains "verify" (r_url r) = false ->
  handle_verify E self_get_requests r url request_type st = (Return r, st, []).
Proof. intros H. unfold handle_verify. now rewrite H. Qed.

Section Budget.

Variable E : env.
Variables (fuel : nat) (url : str).

(** A dispatch in mode [proxy, no cookie] without proxy, answered by a
    response that is not a redirect to the verification site. *)
Lemma get_requests_direct (st : state) (r : response) :
  ip_proxy st = false ->
  net E (net_calls st) = NetResponse r ->
  contains "verify" (r_url r) = false ->
  exists h,
    get_requests E (S fuel) url "proxy, no cookie" st =
    (Return r, set_net_calls (S (net_calls st)) st, [EvGet url (Some h) None None]).
Proof.
  intros Hip Hnet Hv. rewrite get_requests_proxy_no_cookie.
  unfold bind at 1, gets. rewrite Hip.
  destruct (get_header_returns E None false st) as [h Hh].
  rewrite (bind_return_eq _ _ _ _ _ _ Hh).
  rewrite (bind_return_eq _ _ _ _ _ _ (requests_get_returns E url (Some h) None None st r Hnet)).
  rewrite (handle_verify_clean E _ r url _ _ Hv). now exists h.
Qed.

Lemma count_get_one (u : str) (h : option header) (ev : list event) :
  count is_get (EvGet u h None None :: ev) = S (count is_get ev).
Proof. reflexivity. Qed.

(** One iteration of the loop. *)
Lemma interface_loop_step (gas : nat) (retry_time : Z) (r : option response) :
  0 < retry_time ->
  interface_loop E (S gas) (S fuel) url retry_time r =
  (r1 <- get_requests E (S fuel) url "proxy, no cookie" ;;
   match r_json r1 with
   | None =>
       emit (EvPrint "JSON decoding failed. Retrying...") ;;;
       interface_loop E gas (S fuel) url (retry_time - 1) (Some r1)
   | Some r_json =>
       r2 <- cold_start_check E (S fuel) url r1 r_json ;;
       code <- lift (json_get r_json "code") ;;
       if json_eq_int code 200 then ret r2
       else if retry_time - 1 <=? 0 then
         emit (EvPrint "Please check your tsv and uuid, or the proxy quality may be low.") ;;;
         sys_exit
       else interface_loop E gas (S fuel) url (retry_time - 1) (Some r2)
   end).
Proof.
  intros H. cbn [interface_loop].
  replace (retry_time >? 0) with true by (symmetry; apply Z.gtb_lt; lia).
  reflexivity.
Qed.

(** Answers that are not JSON: the loop runs the budget down and returns
    the last of them. *)
Lemma interface_loop_unparsed (gas : nat) (r0 : option response) (st : state) :
  answers E unparsed ->
  ip_proxy st = false ->
  (forall r, r0 = Some r -> r_json r = None) ->
  gas <> O \/ r0 <> None ->
  exists r st' ev,
    interface_loop E gas (S fuel) url (Z.of_nat gas) r0 st = (Return r, st', ev) /\
    r_json r = None /\ count is_get ev = gas.
Proof.
  intros Hnet. revert r0 st. induction gas as [|gas IH]; intros r0 st Hip Hr0 Hne.
  - destruct r0 as [r|]; [|destruct Hne; congruence].
    exists r, st, []. simpl. repeat split. now apply Hr0.
  - rewrite interface_loop_step by lia.
    destruct (Hnet (net_calls st)) as (r1 & Hn & Hv & Hu).
    destruct (get_requests_direct st r1 Hip Hn Hv) as [h Hg].
    unfold bind at 1. rewrite Hg. unfold unparsed in Hu. rewrite Hu.
    unfold bind at 1, emit.
    replace (Z.of_nat (S gas) - 1) with (Z.of_nat gas) by lia.
    destruct (IH (Some r1) (set_net_calls (S (net_calls st)) st)) as (r & st' & ev & Hl & Hj & Hc).
    + exact Hip.
    + now intros r' [= <-].
    + right. discriminate.
    + rewrite Hl. exists r, st', ([EvGet url (Some h) None None] ++
        [EvPrint "JSON decoding failed. Retrying..."] ++ ev).
      repeat split; [exact Hj|]. simpl. rewrite count_get_one.
      unfold count in *. simpl. now rewrite Hc.
Qed.

(** Answers with a status that is neither success nor challenge: the loop
    runs the budget down and the process exits. *)
Lemma interface_loop_failed (gas : nat) (r0 : option response) (st : state) :
  answers E failed ->
  ip_proxy st = false ->
  exists st' ev,
    interface_loop E (S gas) (S fuel) url (Z.of_nat (S gas)) r0 st = (Exit, st', ev) /\
    count is_get ev = S gas.
Proof.
  intros Hnet. revert r0 st. induction gas as [|gas IH]; intros r0 st Hip;
    rewrite interface_loop_step by lia;
    destruct (Hnet (net_calls st)) as (r1 & Hn & Hv & j & code & Hj & Hcode & H200 & H406);
    destruct (get_requests_direct st r1 Hip Hn Hv) as [h Hg];
    unfold bind at 1; rewrite Hg, Hj;
    unfold bind at 1;
    rewrite (cold_start_check_skips E (S fuel) url r1 j code _ Hcode (or_introl H406));
    unfold bind at 1, lift; rewrite Hcode, H200.
  - simpl. eexists. eexists. split; [reflexivity|reflexivity].
  - replace (Z.of_nat (S (S gas)) - 1 <=? 0) with false by (symmetry; apply Z.leb_gt; lia).
    replace (Z.of_nat (S (S gas)) - 1) with (Z.of_nat (S gas)) by lia.
    destruct (IH (Some r1) (set_net_calls (S (net_calls st)) st) Hip)
      as (st' & ev & Hl & Hc).
    rewrite Hl. eexists. eexists. split; [reflexivity|].
    simpl. rewrite count_get_one. now rewrite Hc.
Qed.

Lemma retry_time_gas :
  0 < get_retry_time (cfg E) ->
  exists gas, Z.to_nat (get_retry_time (cfg E)) = S gas /\
              get_retry_time (cfg E) = Z.of_nat (S gas).
Proof.
  intros H. exists (Nat.pred (Z.to_nat (get_retry_time (cfg E)))). lia.
Qed.

Lemma failed_answers_exhaust_budget (st : state) :
  answers E failed ->
  ip_proxy st = false ->
  0 < get_retry_time (cfg E) ->
  exists st' ev,
    get_request_for_interface E (S fuel) url st = (Exit, st', ev) /\
    count is_get ev = Z.to_nat (get_retry_time (cfg E)).
Proof.
  intros Hnet Hip Hpos. unfold get_request_for_interface.
  destruct (retry_time_gas Hpos) as (gas & -> & ->).
  now apply interface_loop_failed.
Qed.

End Budget.

(** C3.  When no attempt of [get_request_for_interface] gets a body that
    parses as JSON, the budget is used up and the last response, which is
    not a success, is returned to the caller: the process does not exit. *)
Theorem unparsed_answers_are_returned (E : env) (fuel : nat) (url : str)
    (st : state) :
  answers E unparsed ->
  ip_proxy st = false ->
  0 < get_retry_time (cfg E) ->
  exists r st' ev,
    get_request_for_interface E (S fuel) url st = (Return r, st', ev) /\
    r_json r = None /\
    count is_get ev = Z.to_nat (get_retry_time (cfg E)).
Proof.
  intros Hnet Hip Hpos. unfold get_request_for_interface.
  destruct (retry_time_gas E Hpos) as (gas & -> & ->).
  apply interface_loop_unparsed;
    [exact Hnet|exact Hip|discriminate|left; discriminate].
Qed.

(** C9.  The retry budget is five when the configured repeat number is
    zero and the repeat number plus one otherwise, never the repeat number
    itself; it is the budget [get_request_for_interface] starts its loop
    with, and when every answer is a failure the number of attempts is that
    budget, one more than a repeat number that is not zero. *)
Theorem retry_budget_is_not_repeat_number (E : env) :
  let repeat_number := REPEAT_NUMBER (cfg E) in
  let budget := get_retry_time (cfg E) in
  (repeat_number = 0 -> budget = 5) /\
  (repeat_number <> 0 -> budget = repeat_number + 1) /\
  budget <> repeat_number /\
  (forall fuel url,
     get_request_for_interface E fuel url =
     interface_loop E (Z.to_nat budget) fuel url budget None) /\
  (forall fuel url st,
     answers E failed -> ip_proxy st = false -> 0 < budget ->
     exists st' ev,
       get_request_for_interface E (S fuel) url st = (Exit, st', ev) /\
       Z.of_nat (count is_get ev) = budget /\
       (repeat_number <> 0 -> Z.of_nat (count is_get ev) = repeat_number + 1)).
Proof.
  cbv zeta. unfold get_retry_time at 1 2 3.
  destruct (REPEAT_NUMBER (cfg E) =? 0) eqn:HR.
  - apply Z.eqb_eq in HR. repeat split; try lia.
    intros fuel url st Hnet Hip Hpos.
    destruct (failed_answers_exhaust_budget E fuel url st Hnet Hip Hpos)
      as (st' & ev & Hrun & Hc).
    exists st', ev. repeat split; [exact Hrun|lia|lia].
  - apply Z.eqb_neq in HR. repeat split; try lia.
    intros fuel url st Hnet Hip Hpos.
    destruct (failed_answers_exhaust_budget E fuel url st Hnet Hip Hpos)
      as (st' & ev & Hrun & Hc).
    exists st', ev. repeat split; [exact Hrun|lia|].
    intros _. rewrite Hc. unfold get_retry_time in *.
    destruct (REPEAT_NUMBER (cfg E) =? 0) eqn:HR'; [apply Z.eqb_eq in HR'; lia|lia].
Qed.

Open Scope Z_scope.

(* ================================================================= *)
(** ** Decided forms *)

Lemma char_in_iff (a : ascii) (chars : str) : char_in a chars = true <-> In a chars.
Proof.
  unfold char_in. rewrite existsb_exists. split.
  - intros [b [Hb E]]. apply Ascii.eqb_eq in E. now subst.
  - intros H. exists a. split; [exact H|apply Ascii.eqb_refl].
Qed.

Lemma no_marker_in_replacementsb_sound (pairs : list (str * str)) :
  no_marker_in_replacementsb pairs = true -> no_marker_in_replacements pairs.
Proof.
  unfold no_marker_in_replacementsb, no_marker_in_replacements.
  rewrite forallb_forall. intros H key value key' value' Hin Hin' Ho.
  specialize (H (key, value) Hin). rewrite forallb_forall in H.
  specialize (H (key', value') Hin'). simpl in H.
  apply contains_occurs in Ho. now rewrite Ho in H.
Qed.

(* ================================================================= *)
(** ** One font, one glyph *)

Lemma glyph_decoder (text : str) :
  replace_search_html Sample.glyph_map text Sample.font_files =
  replace text (search_key "font-id1" "uniE001") (search_value "font-id1" "鸡").
Proof. reflexivity. Qed.

(* ================================================================= *)
(** ** The claims on dispatch, challenges and decoding *)

(** C1, as the code has it.  A dispatch in mode [no header] or [proxy, no
    cookie] leaves the counter alone and never sleeps.  A dispatch in one of
    the modes [no proxy, cookie], [no proxy, no cookie] and [proxy, cookie]
    is counted whatever its outcome: every invocation of the method, the
    re-dispatches included, begins with the pacing check, which adds one to
    the counter for the credentialed call that follows.  So the counter has
    advanced by the number of credentialed calls made when the dispatch
    returns or ends with the error of a request; by that number or one more
    when it ends otherwise (between a pacing check and its request); and by
    one at least, after the events of the pacing check, as soon as the stack
    has room for the first invocation. *)
Theorem global_time_counts_paced_calls (E : env) (fuel : nat)
    (url request_type : str) (st : state) (o : outcome response) (st' : state)
    (ev : list event) :
  get_requests E fuel url request_type st = (o, st', ev) ->
  (request_type = "no header" \/ request_type = "proxy, no cookie" ->
   global_time st' = global_time st /\ count is_sleep ev = O) /\
  (request_type = "no proxy, cookie" \/ request_type = "no proxy, no cookie" \/
   request_type = "proxy, cookie" ->
   let calls := Z.of_nat (count is_credentialed ev) in
   (is_returned o = true \/ o = Raise RequestException ->
    global_time st' = global_time st + calls) /\
   global_time st + calls <= global_time st' <= global_time st + calls + 1 /\
   (fuel <> O ->
    global_time st + 1 <= global_time st' /\
    exists rest, ev = snd (freeze_time st) ++ rest)).
Proof.
  intros H. split.
  - intros Hrt. exact (get_requests_unpaced E fuel url request_type Hrt _ _ _ _ H).
  - intros Hrt. cbv zeta.
    destruct (get_requests_ledger E fuel url request_type Hrt _ _ _ _ H)
      as [Hle Hacc]. cbv zeta in Hacc.
    split; [|split].
    + intros [Ho| ->]; [destruct o as [r| | |]; try discriminate|]; lia.
    + destruct o as [r| |e|]; try lia. destruct e; lia.
    + intros Hf. destruct fuel as [|fuel]; [contradiction|]. split.
      * exact (get_requests_counts_first E fuel url request_type _ _ _ _ Hrt H).
      * destruct (get_requests_freezes_first E fuel url request_type st Hrt)
          as [rest Hr].
        exists rest. now rewrite H in Hr.
Qed.

(** C2, as the code has it.  On a response whose URL has the marker,
    [handle_verify] prompts with the URL and waits, unless the mode is
    [proxy, no cookie] and proxying is enabled, in which case it only says
    that it skips; in both cases it then calls [get_requests] with the same
    URL and mode. *)
Theorem handle_verify_prompts_unless_proxied (E : env) (fuel : nat)
    (r : response) (url request_type : str) (st : state) :
  contains "verify" (r_url r) = true ->
  handle_verify E (get_requests E fuel) r url request_type st =
  (let notice :=
     if str_eqb request_type "proxy, no cookie" && USE_PROXY (cfg E)
     then EvSkip
     else EvPrompt RedirectChallenge (JStr (r_url r)) in
   let '(o, st', ev) := get_requests E fuel url request_type st in
   (o, st', notice :: ev)).
Proof.
  intros H. unfold handle_verify. rewrite H. unfold bind.
  destruct (str_eqb request_type "proxy, no cookie"), (USE_PROXY (cfg E)); simpl;
    destruct (get_requests E fuel url request_type st) as [[o st'] ev]; reflexivity.
Qed.

(** C5, as the code has it.  With the glyph name [uniE001] mapped to the
    character, a text in which the marker stands, the quotes around the
    attribute value included, is decoded there, whatever is around the
    marker: the text in front of it and the text behind it are decoded on
    their own, and stay as they are when they have no marker. *)
Theorem search_html_decodes_glyph (pre post : str) :
  let marker : str := [dq] ++ "font-id1" ++ [dq] ++ ">&#xE001;" in
  let decoded : str := [dq] ++ "font-id1" ++ [dq] ++ ">鸡" in
  replace_search_html Sample.glyph_map (pre ++ marker ++ post) Sample.font_files =
    replace_search_html Sample.glyph_map pre Sample.font_files ++ decoded ++
    replace_search_html Sample.glyph_map post Sample.font_files /\
  (~ occurs marker pre ->
   replace_search_html Sample.glyph_map pre Sample.font_files = pre) /\
  (~ occurs marker post ->
   replace_search_html Sample.glyph_map post Sample.font_files = post) /\
  (~ occurs marker pre -> ~ occurs marker post ->
   replace_search_html Sample.glyph_map (pre ++ marker ++ post) Sample.font_files =
   pre ++ decoded ++ post).
Proof.
  cbv zeta.
  assert (Hne : search_key "font-id1" "uniE001" <> []) by discriminate.
  assert (Hall : replace_search_html Sample.glyph_map
                   (pre ++ search_key "font-id1" "uniE001" ++ post)
                   Sample.font_files =
                 replace_search_html Sample.glyph_map pre Sample.font_files ++
                 search_value "font-id1" "鸡" ++
                 replace_search_html Sample.glyph_map post Sample.font_files).
  { rewrite !glyph_decoder. apply (replace_around _ _ Hne). reflexivity. }
  assert (Hkeep : forall t, ~ occurs (search_key "font-id1" "uniE001") t ->
                            replace_search_html Sample.glyph_map t Sample.font_files = t).
  { intros t Ht. rewrite glyph_decoder. now apply replace_absent. }
  split; [exact Hall|]. split; [apply Hkeep|]. split; [apply Hkeep|].
  intros Hpre Hpost.
  etransitivity; [exact Hall|].
  now rewrite (Hkeep pre Hpre), (Hkeep post Hpost).
Qed.

(** C6, as the code has it.  In a run of calls of
    [get_request_for_interface] that return, up to the one that ends the
    run, the manual pause for status 406 happens at most once: never with
    the cold-start flag down, which stays down; and once it has happened and
    the call has returned, the flag is down.  The iteration that pauses
    sends the request twice, clears the flag when the second request has
    returned, and takes one unit of the budget. *)
Theorem cold_start_pause_at_most_once (E : env) (fuel : nat) :
  (forall urls, pauses_once (run_interface E fuel urls)) /\
  (forall gas url retry_time r st r1 st1 ev1 body code custom page r2 st2 ev2,
     0 < retry_time ->
     get_requests E fuel url "proxy, no cookie" st = (Return r1, st1, ev1) ->
     r_json r1 = Some body ->
     json_get body "code" = Return code ->
     json_eq_int code 406 = true ->
     is_cold_start st1 = true ->
     subscript body "customData" = Return custom ->
     subscript custom "verifyPageUrl" = Return page ->
     get_requests E fuel url "proxy, no cookie" st1 = (Return r2, st2, ev2) ->
     interface_loop E (S gas) fuel url retry_time r st =
     (let st3 := set_is_cold_start false st2 in
      let seen := ev1 ++ EvPrompt ApiChallenge page :: ev2 in
      if retry_time - 1 <=? 0
      then (Exit, st3,
            seen ++ [EvPrint "Please check your tsv and uuid, or the proxy quality may be low."])
      else let '(o, st4, ev4) :=
             interface_loop E gas fuel url (retry_time - 1) (Some r2) st3 in
           (o, st4, seen ++ ev4))).
Proof.
  split.
  - intros urls. apply run_interface_once.
  - intros. now apply (interface_loop_cold_start E gas fuel url retry_time r st
                         r1 st1 ev1 body code custom page r2 st2 ev2).
Qed.

(** C7, as the code has it.  With a font map in which no replacement
    completes its own marker or the marker of an entry before it, each of
    the three decoders is idempotent. *)
Theorem decode_twice_is_decode_once (get_map : str -> dict) (sh : shape)
    (file_map : dict) (text : str) :
  no_marker_completed (pairs_of get_map sh file_map) ->
  decode get_map sh (decode get_map sh text file_map) file_map =
  decode get_map sh text file_map.
Proof.
  intros Hsep. rewrite !decode_as_pairs.
  apply replace_all_idempotent; [|exact Hsep].
  intros key value Hin. now apply (marker_not_empty get_map sh file_map key value).
Qed.

Open Scope Z_scope.

(* ================================================================= *)
(** ** The claims at the sample inputs *)

Section Samples.

Import Sample.

(** C1 as the specification states it fails: after 199 counted requests a
    dispatch in mode [proxy, no cookie] makes its credentialed call and
    returns, the counter is still 199 and nothing has slept, although the
    table asks for ten sleeps at 200. *)
Lemma proxy_no_cookie_is_not_counted :
  get_requests (local_env (always page)) 1 shop_url "proxy, no cookie"
               (local_after 199) = unpaced_run /\
  fst (fst unpaced_run) = Return page /\
  count is_credentialed (snd unpaced_run) = 1%nat /\
  global_time (snd (fst unpaced_run)) = 199 /\
  count is_sleep (snd unpaced_run) = O /\
  suspension [(100, 5); (200, 10)] 200 = 10%nat.
Proof. repeat split; vm_compute; reflexivity. Qed.

Lemma global_time_counts_paced_calls_witness :
  global_time (snd (fst paced_run)) =
    global_time local_start + Z.of_nat (count is_credentialed (snd paced_run)) /\
  fst (fst failed_paced_run) = Raise RequestException /\
  global_time (snd (fst failed_paced_run)) =
    global_time local_start +
    Z.of_nat (count is_credentialed (snd failed_paced_run)) /\
  global_time local_start + 1 <= global_time (snd (fst failed_paced_run)) /\
  (exists rest,
     snd late_paced_run = snd (freeze_time (local_after 199)) ++ rest) /\
  count is_sleep (snd (freeze_time (local_after 199))) = 10%nat /\
  global_time (snd (fst unpaced_run)) = global_time (local_after 199) /\
  count is_sleep (snd unpaced_run) = O.
Proof.
  pose proof (global_time_counts_paced_calls
                (local_env (always page)) 1 shop_url "no proxy, cookie"
                local_start (fst (fst paced_run)) (snd (fst paced_run))
                (snd paced_run) eq_refl) as [_ Hret].
  pose proof (global_time_counts_paced_calls
                (local_env down) 1 shop_url "no proxy, cookie"
                local_start (fst (fst failed_paced_run))
                (snd (fst failed_paced_run)) (snd failed_paced_run) eq_refl)
    as [_ Hraise].
  pose proof (global_time_counts_paced_calls
                (local_env (always page)) 1 shop_url "no proxy, cookie"
                (local_after 199) (fst (fst late_paced_run))
                (snd (fst late_paced_run)) (snd late_paced_run) eq_refl)
    as [_ Hlate].
  pose proof (global_time_counts_paced_calls
                (local_env (always page)) 1 shop_url "proxy, no cookie"
                (local_after 199) (fst (fst unpaced_run))
                (snd (fst unpaced_run)) (snd unpaced_run) eq_refl)
    as [Hfree _].
  specialize (Hret (or_introl eq_refl)). cbv zeta in Hret.
  specialize (Hraise (or_introl eq_refl)). cbv zeta in Hraise.
  specialize (Hlate (or_introl eq_refl)). cbv zeta in Hlate.
  specialize (Hfree (or_intror eq_refl)).
  destruct Hret as [Hret _].
  destruct Hraise as [Hexact [_ Hfirst]].
  destruct Hlate as [_ [_ Hprefix]].
  split; [exact (Hret (or_introl eq_refl))|].
  split; [reflexivity|].
  split; [exact (Hexact (or_intror eq_refl))|].
  split; [exact (proj1 (Hfirst ltac:(discriminate)))|].
  split; [exact (proj2 (Hprefix ltac:(discriminate)))|].
  split; [reflexivity|].
  exact Hfree.
Defined.

(** C2 as the specification states it fails both ways: in mode [proxy, no
    cookie] with proxying disabled the operator is prompted, with proxying
    enabled the prompt is skipped. *)
Lemma handle_verify_skips_only_when_proxied :
  USE_PROXY (cfg (local_env (always page))) = false /\
  handle_verify (local_env (always page)) (get_requests (local_env (always page)) 1)
                challenge_page shop_url "proxy, no cookie" local_start =
  (Return page, set_net_calls 1 local_start,
   [EvPrompt RedirectChallenge (JStr (r_url challenge_page));
    EvGet shop_url (Some plain_header) None None]) /\
  USE_PROXY (cfg (pool_env (always page))) = true /\
  handle_verify (pool_env (always page)) (get_requests (pool_env (always page)) 1)
                challenge_page shop_url "proxy, no cookie" pool_later =
  (Return page, set_proxy_pool [] (set_net_calls 2 pool_later),
   [EvSkip;
    EvGet shop_url (Some plain_header)
          (Some (http_proxy_utils (JStr (list_ascii_of_string "10.0.0.2"))
                                  (JInt 8001)))
          (Some 10)]).
Proof. repeat split; vm_compute; reflexivity. Qed.

Lemma handle_verify_prompts_unless_proxied_witness :
  handle_verify (local_env (always page)) (get_requests (local_env (always page)) 1)
                challenge_page shop_url "no proxy, cookie" local_start =
  (Return page, set_net_calls 1 (set_global_time 1 local_start),
   [EvPrompt RedirectChallenge (JStr (r_url challenge_page));
    EvGet shop_url (Some (plain_header ++
                          [(list_ascii_of_string "Cookie",
                            Some (list_ascii_of_string "uuid=1"))]))
          None None]).
Proof.
  refine (handle_verify_prompts_unless_proxied
            (local_env (always page)) 1 challenge_page shop_url "no proxy, cookie"
            local_start _).
  vm_compute. reflexivity.
Defined.

Lemma always_blocked_unparsed : answers (local_env (always blocked)) unparsed.
Proof. intros n. exists blocked. repeat split. Defined.

Lemma unparsed_answers_are_returned_witness :
  exists r st' ev,
    get_request_for_interface (local_env (always blocked)) 1 api_url local_start =
      (Return r, st', ev) /\
    r_json r = None /\ count is_get ev = 5%nat.
Proof.
  refine (unparsed_answers_are_returned (local_env (always blocked)) 0 api_url
            local_start always_blocked_unparsed _ _).
  - reflexivity.
  - reflexivity.
Defined.


(** C5 as the specification states it fails: with the map keyed by [E001]
    the marker is not found and the text stays as it is. *)
Lemma bare_code_point_is_not_decoded :
  replace_search_html bare_map span_text font_files = span_text /\
  replace_search_html bare_map span_text font_files <> span_decoded.
Proof. split; vm_compute; [reflexivity|discriminate]. Qed.

Lemma search_html_decodes_glyph_witness :
  replace_search_html glyph_map
    (page_head ++ ([dq] ++ "font-id1" ++ [dq] ++ ">&#xE001;") ++ page_tail)
    font_files =
  page_head ++ ([dq] ++ "font-id1" ++ [dq] ++ ">鸡") ++ page_tail.
Proof.
  refine (proj2 (proj2 (proj2 (search_html_decodes_glyph page_head page_tail)))
            _ _).
  - intros H. apply contains_occurs in H. vm_compute in H. discriminate H.
  - intros H. apply contains_occurs in H. vm_compute in H. discriminate H.
Defined.

(** C6 as the specification states it fails when the request sent after
    the pause raises: the flag is cleared only after that request, so it is
    still up when the exception leaves the method, and the next call, made
    by a caller that caught the exception as the crawl loop does, pauses
    again. *)
Lemma failed_retry_leaves_cold_start :
  get_request_for_interface (local_env flaky) 1 api_url local_start =
    interrupted_call /\
  fst (fst interrupted_call) = Raise RequestException /\
  count is_api_prompt (snd interrupted_call) = 1%nat /\
  is_cold_start (snd (fst interrupted_call)) = true /\
  get_request_for_interface (local_env flaky) 1 api_url (snd (fst interrupted_call)) =
    resumed_call /\
  count is_api_prompt (snd resumed_call) = 1%nat /\
  is_cold_start (snd (fst resumed_call)) = false.
Proof. repeat split; vm_compute; reflexivity. Qed.

Lemma cold_start_pause_at_most_once_witness :
  (count is_api_prompt (snd challenged_run) <= 1)%nat /\
  interface_loop (local_env (challenge_at [0; 3]%nat)) 5 1 api_url 5 None local_start =
  (let st3 := set_is_cold_start false (set_net_calls 2 local_start) in
   let seen :=
     [EvGet api_url (Some plain_header) None None] ++
     EvPrompt ApiChallenge (JStr (list_ascii_of_string "http://x")) ::
     [EvGet api_url (Some plain_header) None None] in
   let '(o, st4, ev4) :=
     interface_loop (local_env (challenge_at [0; 3]%nat)) 4 1 api_url 4
                    (Some (status 200)) st3 in
   (o, st4, seen ++ ev4)).
Proof.
  split.
  - refine (proj1 (proj2 (proj1 (cold_start_pause_at_most_once
                                   (local_env (challenge_at [0; 3]%nat)) 1)
                            [api_url; api_url] local_start
                            (fst (fst challenged_run)) (snd (fst challenged_run))
                            (snd challenged_run) _))).
    vm_compute. reflexivity.
  - refine (proj2 (cold_start_pause_at_most_once
                     (local_env (challenge_at [0; 3]%nat)) 1)
              4%nat api_url 5 None local_start
              api_challenge (set_net_calls 1 local_start)
              [EvGet api_url (Some plain_header) None None]
              challenge_body (JInt 406)
              (JObj [(list_ascii_of_string "verifyPageUrl",
                      JStr (list_ascii_of_string "http://x"))])
              (JStr (list_ascii_of_string "http://x"))
              (status 200) (set_net_calls 2 local_start)
              [EvGet api_url (Some plain_header) None None]
              _ _ _ _ _ _ _ _ _); vm_compute; reflexivity.
Defined.

(** C7 as the specification states it fails: no replacement contains a
    marker and no character is empty, but the quote that one glyph decodes
    to completes the marker of the entry before it, which only the second
    pass replaces. *)
Lemma quote_character_breaks_idempotence :
  no_marker_in_replacements (pairs_of quote_map RawSpan quote_files) /\
  (forall ch, In ch (characters quote_map quote_files) -> ch <> []) /\
  no_marker_completedb (pairs_of quote_map RawSpan quote_files) = false /\
  replace_search_html quote_map
    (replace_search_html quote_map quote_text quote_files) quote_files <>
  replace_search_html quote_map quote_text quote_files.
Proof.
  split; [|split; [|split]].
  - apply no_marker_in_replacementsb_sound. vm_compute. reflexivity.
  - intros ch [<-|[<-|[]]]; discriminate.
  - vm_compute. reflexivity.
  - vm_compute. discriminate.
Qed.

Lemma decode_twice_is_decode_once_witness :
  decode digit_map RawSpan (decode digit_map RawSpan digit_text font_files) font_files =
  decode digit_map RawSpan digit_text font_files.
Proof.
  refine (decode_twice_is_decode_once digit_map RawSpan font_files digit_text _).
  apply no_marker_completedb_sound. vm_compute. reflexivity.
Defined.




Lemma always_failed : answers (local_env (always (status 500))) failed.
Proof.
  intros n. exists (status 500). repeat split.
  exists (status_body 500), (JInt 500). repeat split.
Defined.

Lemma retry_budget_is_not_repeat_number_witness :
  get_retry_time local_config = 5 /\
  get_retry_time pool_config = REPEAT_NUMBER pool_config + 1 /\
  exists st' ev,
    get_request_for_interface (local_env (always (status 500))) 1 api_url local_start =
      (Exit, st', ev) /\
    Z.of_nat (count is_get ev) = 5 /\
    (REPEAT_NUMBER local_config <> 0 ->
     Z.of_nat (count is_get ev) = REPEAT_NUMBER local_config + 1).
Proof.
  split; [|split].
  - refine (proj1 (retry_budget_is_not_repeat_number
                     (local_env (always (status 500)))) _).
    reflexivity.
  - refine (proj1 (proj2 (retry_budget_is_not_repeat_number
                            (pool_env (always supply)))) _).
    discriminate.
  - refine (proj2 (proj2 (proj2 (proj2 (retry_budget_is_not_repeat_number
                                          (local_env (always (status 500)))))))
              0%nat api_url local_start always_failed _ _).
    + reflexivity.
    + reflexivity.
Defined.

Lemma empty_refill_raises_index_error_witness :
  get_proxy (pool_env (always empty_supply)) pool_start =
    (Raise IndexError, set_net_calls 1 pool_start,
     [EvGet (HTTP_LINK pool_config) None None None]) /\
  get_proxy (pool_env down) pool_start =
    (Exit, set_net_calls 1 pool_start,
     [EvGet (HTTP_LINK pool_config) None None None;
      EvPrint "Failed to fetch proxies"]) /\
  exists st',
    get_proxy (pool_env (always supply)) pool_start =
      (Return (http_proxy_utils (JStr (list_ascii_of_string "10.0.0.1")) (JInt 8000)),
       st', [EvGet (HTTP_LINK pool_config) None None None]).
Proof.
  split; [|split].
  - refine (proj1 (proj1 (empty_refill_raises_index_error
                            (pool_env (always empty_supply)) pool_start _ _ _)
                     empty_supply [] _ _ _)); try reflexivity.
    left. reflexivity.
  - refine (proj1 (proj2 (empty_refill_raises_index_error
                            (pool_env down) pool_start _ _ _)) _); reflexivity.
  - refine (proj2 (proj2 (empty_refill_raises_index_error
                            (pool_env (always supply)) pool_start _ _ _))
              supply (JStr (list_ascii_of_string "10.0.0.1"), JInt 8000)
              [(JStr (list_ascii_of_string "10.0.0.2"), JInt 8001)] _ _ _);
      try reflexivity.
    discriminate.
Defined.

End Samples.

Open Scope Z_scope.

(* ================================================================= *)
(** * Further properties *)

(** ** The pacing table *)

Section Strip.

Variable p : ascii -> bool.

Lemma lstrip_by_snoc (s : str) (a : ascii) :
  p a = true ->
  lstrip_by p (s ++ [a]) =
  match lstrip_by p s with
  | [] => []
  | b :: l => (b :: l) ++ [a]
  end.
Proof.
  intros Ha. induction s as [|b s IH]; simpl.
  - now rewrite Ha.
  - destruct (p b); [exact IH|reflexivity].
Qed.

Lemma strip_by_snoc (s : str) (a : ascii) :
  p a = true -> strip_by p (s ++ [a]) = strip_by p s.
Proof.
  intros Ha. unfold strip_by. rewrite lstrip_by_snoc by exact Ha.
  destruct (lstrip_by p s) as [|b l]; [reflexivity|].
  rewrite rev_app_distr. simpl rev at 1. cbn [app lstrip_by]. now rewrite Ha.
Qed.

Lemma strip_by_cons (s : str) (a : ascii) :
  p a = true -> strip_by p (a :: s) = strip_by p s.
Proof. intros Ha. unfold strip_by. simpl. now rewrite Ha. Qed.

End Strip.

(** X1.  Semicolons in front of and behind the configured table do not
    change what [parse_stop_time] returns. *)
Theorem parse_stop_time_ignores_outer_semicolons (requests_times : str) :
  parse_stop_time (requests_times ++ ";") = parse_stop_time requests_times /\
  parse_stop_time (";" ++ requests_times) = parse_stop_time requests_times.
Proof.
  unfold parse_stop_time, strip. split.
  - now rewrite (strip_by_snoc _ requests_times ";"%char).
  - change (list_ascii_of_string ";" ++ requests_times)
      with (";"%char :: requests_times).
    now rewrite strip_by_cons.
Qed.

Lemma split_not_nil (t : str) (sep : ascii) : split t sep <> [].
Proof.
  destruct t as [|a t]; simpl; [discriminate|].
  destruct (Ascii.eqb a sep); [discriminate|].
  destruct (split t sep); discriminate.
Qed.

(** X2.  [parse_stop_time] never returns an empty table: it has one row
    per entry between semicolons, and row [i] is the comma-split entry
    number [n - 1 - i], the last entry first. *)
Theorem parse_stop_time_rows_reversed (requests_times : str) :
  let each_stop := split (strip requests_times ";") ";"%char in
  List.length (parse_stop_time requests_times) = List.length each_stop /\
  parse_stop_time requests_times <> [] /\
  forall i, (i < List.length each_stop)%nat ->
    nth i (parse_stop_time requests_times) [] =
    split (nth (List.length each_stop - 1 - i) each_stop []) ","%char.
Proof.
  cbv zeta. rewrite parse_stop_time_rev.
  set (each_stop := split (strip requests_times ";") ";"%char).
  split; [|split].
  - now rewrite length_rev, length_map.
  - intros H. apply (f_equal (@List.length _)) in H.
    rewrite length_rev, length_map in H.
    apply length_zero_iff_nil in H. now apply split_not_nil in H.
  - intros i Hi. rewrite rev_nth by (rewrite length_map; exact Hi).
    rewrite length_map.
    rewrite (nth_indep _ [] ((fun each => split each ","%char) []))
      by (rewrite length_map; lia).
    rewrite (map_nth (fun each => split each ","%char)). do 2 f_equal. lia.
Qed.

(** ** The pacing check *)

Lemma count_zero_forall (q : event -> bool) (ev : list event) :
  count q ev = O -> Forall (fun e => q e = false) ev.
Proof.
  unfold count. induction ev as [|e ev IH]; simpl; [constructor|].
  destruct (q e) eqn:E; simpl; [discriminate|]. intros H. constructor; auto.
Qed.

Lemma freeze_scan_keeps_state (g : Z) (rows : list (list str)) :
  respects eq (freeze_scan g rows).
Proof.
  assert (Ht : forall a b c : state, a = b -> b = c -> a = c) by congruence.
  induction rows as [|row rows IH]; simpl; [now apply respects_ret|].
  repeat (apply respects_bind; [exact Ht|now apply respects_lift|intros ?]).
  destruct (_ =? 0); [now apply respects_raise|].
  destruct (_ =? 0); [|exact IH].
  apply respects_for_range; auto. now apply respects_emit.
Qed.

(** X3.  However [freeze_time] ends, it has added exactly one to the
    counter, changed nothing else of the state, and done nothing but
    sleep. *)
Theorem freeze_time_counts_exactly_once (st : state) (o : outcome unit)
    (st' : state) (ev : list event) :
  freeze_time st = (o, st', ev) ->
  st' = set_global_time (global_time st + 1) st /\
  Forall (fun e => e = EvSleep) ev.
Proof.
  rewrite freeze_time_unfold. cbv zeta.
  destruct (global_time st + 1 =? 1).
  - intros [= <- <- <-]. split; [reflexivity|constructor].
  - intros H. split.
    + symmetry. exact (freeze_scan_keeps_state _ _ _ _ _ _ H).
    + destruct (freeze_scan_inert global_time (fun e => negb (is_sleep e))
                  eq_refl _ _ _ _ _ _ H) as [_ Hc].
      apply count_zero_forall in Hc. eapply Forall_impl; [|exact Hc].
      intros [] He; simpl in He; try discriminate. reflexivity.
Qed.



Open Scope Z_scope.

(** ** Dispatch *)

Section Unchallenged.

Variable E : env.

Lemma unchallenged_bind {A} (m : M A) (k : A -> M response) :
  (forall a, returns_unchallenged (k a)) -> returns_unchallenged (bind m k).
Proof.
  intros Hk st r st' ev H.
  apply bind_returns in H as (a & st1 & ev1 & ev2 & _ & H & _).
  exact (Hk a _ _ _ _ H).
Qed.

Lemma unchallenged_handle_verify (self_get_requests : str -> str -> M response)
    (r : response) (url request_type : str) :
  returns_unchallenged (self_get_requests url request_type) ->
  returns_unchallenged (handle_verify E self_get_requests r url request_type).
Proof.
  intros H. unfold handle_verify.
  destruct (contains "verify" (r_url r)) eqn:Hv.
  - apply unchallenged_bind. intros _. exact H.
  - intros st r' st' ev [= <- _ _]. exact Hv.
Qed.

Lemma get_requests_unchallenged (fuel : nat) (url request_type : str) :
  request_type <> "no header" ->
  returns_unchallenged (get_requests E fuel url request_type).
Proof.
  intros Hrt. induction fuel as [|fuel IH]; [intros st r st' ev [=]|].
  destruct (str_mem request_type valid_request_types) eqn:Hv;
    [|rewrite get_requests_invalid by exact Hv; intros st r st' ev [=]].
  apply valid_request_type_cases in Hv.
  destruct Hv as [->|[->|[->|[->| ->]]]]; [contradiction| | | |].
  - rewrite get_requests_no_proxy_cookie.
    do 2 (apply unchallenged_bind; intros ?).
    apply unchallenged_handle_verify, IH.
  - rewrite get_requests_no_proxy_no_cookie.
    do 2 (apply unchallenged_bind; intros ?).
    apply unchallenged_handle_verify, IH.
  - rewrite get_requests_proxy_no_cookie.
    apply unchallenged_bind. intros [|].
    + apply unchallenged_bind. intros [r|]; [|exact IH].
      apply unchallenged_handle_verify, IH.
    + do 2 (apply unchallenged_bind; intros ?).
      apply unchallenged_handle_verify, IH.
  - rewrite get_requests_proxy_cookie.
    do 4 (apply unchallenged_bind; intros ?).
    match goal with b : bool |- _ => destruct b end.
    + apply unchallenged_bind. intros [r|]; [|exact IH].
      apply unchallenged_handle_verify, IH.
    + apply unchallenged_bind; intros ?.
      apply unchallenged_handle_verify, IH.
Qed.

End Unchallenged.

(** X5.  In every mode but [no header], a response that [get_requests]
    returns never has the challenge marker in its URL, however many
    re-dispatches it took. *)
Theorem get_requests_never_returns_a_challenge (E : env) (fuel : nat)
    (url request_type : str) (st : state) (r : response) (st' : state)
    (ev : list event) :
  request_type <> "no header" ->
  get_requests E fuel url request_type st = (Return r, st', ev) ->
  contains "verify" (r_url r) = false.
Proof.
  intros Hrt H. exact (get_requests_unchallenged E fuel url request_type Hrt _ _ _ _ H).
Qed.

(** *** Events under a fixed value of the state *)

Section EmitsUnder.

Context {X : Type}.
Variable f : state -> X.
Variable good : event -> Prop.
Variable x : X.

Lemma under_ret {A} (a : A) : emits_under f good x (ret a).
Proof. intros st o st' ev Hx [= <- <- <-]. split; [exact Hx|constructor]. Qed.

(** Sequence, with what is known of the value handed over. *)
Lemma under_bind_post {A B} (Q : A -> Prop) (m : M A) (k : A -> M B) :
  emits_under f good x m ->
  (forall st a st1 ev1, f st = x -> m st = (Return a, st1, ev1) -> Q a) ->
  (forall a, Q a -> emits_under f good x (k a)) ->
  emits_under f good x (bind m k).
Proof.
  intros Hm HQ Hk st o st' ev Hx H. apply bind_ends in H.
  destruct H as [(o1 & H & _)|(a & st1 & ev1 & ev2 & H1 & H2 & ->)].
  - exact (Hm _ _ _ _ Hx H).
  - destruct (Hm _ _ _ _ Hx H1) as [Hx1 F1].
    destruct (Hk a (HQ _ _ _ _ Hx H1) _ _ _ _ Hx1 H2) as [Hx2 F2].
    split; [exact Hx2|]. apply Forall_app. now split.
Qed.

Lemma under_bind {A B} (m : M A) (k : A -> M B) :
  emits_under f good x m -> (forall a, emits_under f good x (k a)) ->
  emits_under f good x (bind m k).
Proof.
  intros Hm Hk. apply (under_bind_post (fun _ => True)); auto.
Qed.

Lemma under_inert {A} (p : event -> bool) (m : M A) :
  inert f p m -> (forall e, p e = false -> good e) ->
  emits_under f good x m.
Proof.
  intros Hi Hp st o st' ev Hx H. destruct (Hi _ _ _ _ H) as [Hf Hc].
  split; [congruence|]. apply count_zero_forall in Hc.
  eapply Forall_impl; [|exact Hc]. exact Hp.
Qed.

Lemma under_emit (e : event) : good e -> emits_under f good x (emit e).
Proof.
  intros He st o st' ev Hx [= <- <- <-]. split; [exact Hx|].
  constructor; [exact He|constructor].
Qed.

Lemma under_try {A} (m h : M A) :
  emits_under f good x m -> emits_under f good x h ->
  emits_under f good x (try_except_request m h).
Proof.
  intros Hm Hh st o st' ev Hx. unfold try_except_request.
  destruct (m st) as [[o1 st1] ev1] eqn:H1.
  destruct (Hm _ _ _ _ Hx H1) as [Hx1 F1].
  assert (Hother : (o1, st1, ev1) = (o, st', ev) -> f st' = x /\ Forall good ev)
    by (intros [= <- <- <-]; now split).
  destruct o1 as [a| |[]|]; try exact Hother.
  destruct (h st1) as [[o2 st2] ev2] eqn:H2. intros [= <- <- <-].
  destruct (Hh _ _ _ _ Hx1 H2) as [Hx2 F2]. split; [exact Hx2|].
  apply Forall_app. now split.
Qed.

End EmitsUnder.

(** *** What the headers of a dispatch carry *)

Lemma get_header_cookie (E : env) (cookie_arg : option str) (need_cookie : bool)
    (st : state) (h : header) (st' : state) (ev : list event) :
  get_header E cookie_arg need_cookie st = (Return h, st', ev) ->
  assoc "Cookie" h =
  if need_cookie
  then Some match cookie_arg with
            | Some c => Some c
            | None => cookie st
            end
  else None.
Proof.
  unfold get_header, bind, gets, ret. destruct need_cookie; simpl;
    intros [= <- _ _]; reflexivity.
Qed.

Lemma get_header_agent (E : env) (cookie_arg : option str) (need_cookie : bool)
    (st : state) (h : header) (st' : state) (ev : list event) :
  get_header E cookie_arg need_cookie st = (Return h, st', ev) ->
  assoc "User-Agent" h =
  Some (Some match ua st with
             | Some u => u
             | None => faker_user_agent E
             end).
Proof.
  unfold get_header, bind, gets, ret. destruct need_cookie; simpl;
    intros [= <- _ _]; reflexivity.
Qed.

Lemma get_cookie_value (url : str) (st : state) (c : option str) (st' : state)
    (ev : list event) :
  get_cookie url st = (Return c, st', ev) -> c = cookie st.
Proof. now intros [= <- _ _]. Qed.

Section HeaderInvariant.

Context {X : Type}.
Variable f : state -> X.
Variable x : X.
Variable good : event -> Prop.
Hypothesis f_net : forall n st, f (set_net_calls n st) = f st.
Hypothesis f_pool : forall l st, f (set_proxy_pool l st) = f st.
Hypothesis f_slot : forall n st, f (set_next_slot n st) = f st.
Hypothesis f_global : forall g st, f (set_global_time g st) = f st.
Hypothesis good_other : forall e, is_credentialed e = false -> good e.

Variable E : env.

Lemma under_uncredentialed {A} (m : M A) :
  inert f is_credentialed m -> emits_under f good x m.
Proof. intros H. now apply (under_inert f good x is_credentialed). Qed.

Lemma under_freeze_time : emits_under f good x freeze_time.
Proof. apply under_uncredentialed, freeze_time_inert; auto. Qed.

Lemma under_get_proxy : emits_under f good x (get_proxy E).
Proof. apply under_uncredentialed, get_proxy_inert; auto. Qed.

Lemma under_get_header ca b : emits_under f good x (get_header E ca b).
Proof. apply under_uncredentialed, get_header_inert. Qed.

Lemma under_gets {A} (g : state -> A) : emits_under f good x (gets g).
Proof. apply under_uncredentialed, inert_gets. Qed.

Lemma under_requests_get url h pr t :
  good (EvGet url h pr t) ->
  emits_under f good x (requests_get E url h pr t).
Proof.
  intros Hg st o st' ev Hx. unfold requests_get.
  destruct (net E (net_calls st)); intros [= <- <- <-];
    (split; [now rewrite f_net|constructor; [exact Hg|constructor]]).
Qed.

Lemma under_handle_verify (self_get_requests : str -> str -> M response)
    (r : response) (url request_type : str) :
  emits_under f good x (self_get_requests url request_type) ->
  emits_under f good x (handle_verify E self_get_requests r url request_type).
Proof.
  intros H. unfold handle_verify. destruct (contains _ _); [|apply under_ret].
  apply under_bind; [|intros; exact H].
  destruct (_ || _); apply under_emit; now apply good_other.
Qed.

Lemma under_attempt (m : M response) :
  emits_under f good x m -> emits_under f good x (attempt m).
Proof.
  intros H. unfold attempt. apply under_try.
  - apply under_bind; [exact H|intros; apply under_ret].
  - apply under_bind; [|intros; apply under_ret].
    apply under_emit. now apply good_other.
Qed.

(** The modes with headers.  [with_cookie] tells the two modes with cookie
    from the two without; [C] is what is known of the stored cookie, [Q]
    what the headers built in these modes satisfy. *)
Variable with_cookie : bool.
Variable C : option str -> Prop.
Variable Q : header -> Prop.
Hypothesis cookie_ok : forall st, f st = x -> C (cookie st).
Hypothesis header_ok :
  forall st cur h st' ev,
    f st = x -> (if with_cookie then C cur else cur = None) ->
    get_header E cur with_cookie st = (Return h, st', ev) -> Q h.
Hypothesis good_get : forall u h pr t, Q h -> good (EvGet u (Some h) pr t).

Variable url : str.

Lemma under_plain_header (k : header -> M response) :
  with_cookie = false ->
  (forall h, Q h -> emits_under f good x (k h)) ->
  emits_under f good x (h <- get_header E None false ;; k h).
Proof.
  intros Hw Hk. apply (under_bind_post f good x Q).
  - apply under_get_header.
  - intros st h st1 ev1 Hx H. apply (header_ok st None h st1 ev1 Hx).
    + now rewrite Hw.
    + now rewrite Hw.
  - exact Hk.
Qed.

Lemma under_cookie_header (k : header -> M response) :
  with_cookie = true ->
  (forall h, Q h -> emits_under f good x (k h)) ->
  emits_under f good x
    (cur_cookie <- get_cookie url ;; h <- get_header E cur_cookie true ;; k h).
Proof.
  intros Hw Hk. apply (under_bind_post f good x C).
  - apply under_uncredentialed, get_cookie_inert.
  - intros st cur st1 ev1 Hx H. apply get_cookie_value in H. subst cur.
    now apply cookie_ok.
  - intros cur Hcur. apply (under_bind_post f good x Q).
    + apply under_get_header.
    + intros st h st1 ev1 Hx H. apply (header_ok st cur h st1 ev1 Hx).
      * now rewrite Hw.
      * now rewrite Hw.
    + exact Hk.
Qed.

Lemma get_requests_under (fuel : nat) (request_type : str) :
  (if with_cookie
   then request_type = "no proxy, cookie" \/ request_type = "proxy, cookie"
   else request_type = "no proxy, no cookie" \/ request_type = "proxy, no cookie") ->
  emits_under f good x (get_requests E fuel url request_type).
Proof.
  intros Hrt. induction fuel as [|fuel IH].
  - intros st o st' ev Hx [= <- <- <-]. split; [exact Hx|constructor].
  - assert (Hcase : with_cookie = true \/ with_cookie = false)
      by (destruct with_cookie; auto).
    destruct Hcase as [Hw|Hw]; rewrite Hw in Hrt; destruct Hrt as [->| ->].
    + rewrite get_requests_no_proxy_cookie.
      apply under_bind; [apply under_freeze_time|]. intros _.
      apply under_bind; [|intros r; now apply under_handle_verify].
      apply (under_cookie_header (fun h => requests_get E url (Some h) None None));
        [exact Hw|].
      intros h Hh. apply under_requests_get. now apply good_get.
    + rewrite get_requests_proxy_cookie.
      apply under_bind; [apply under_freeze_time|]. intros _.
      apply under_cookie_header; [exact Hw|]. intros h Hh.
      apply under_bind; [apply under_gets|]. intros [|].
      * apply under_bind.
        -- apply under_attempt.
           apply under_bind; [apply under_get_proxy|]. intros pr.
           apply under_requests_get. now apply good_get.
        -- intros [r|]; [|exact IH]. now apply under_handle_verify.
      * apply under_bind; [apply under_requests_get; now apply good_get|].
        intros r. now apply under_handle_verify.
    + rewrite get_requests_no_proxy_no_cookie.
      apply under_bind; [apply under_freeze_time|]. intros _.
      apply under_bind; [|intros r; now apply under_handle_verify].
      apply under_plain_header; [exact Hw|].
      intros h Hh. apply under_requests_get. now apply good_get.
    + rewrite get_requests_proxy_no_cookie.
      apply under_bind; [apply under_gets|]. intros [|].
      * apply under_bind.
        -- apply under_attempt.
           apply under_plain_header; [exact Hw|]. intros h Hh.
           apply under_bind; [apply under_get_proxy|]. intros pr.
           apply under_requests_get. now apply good_get.
        -- intros [r|]; [|exact IH]. now apply under_handle_verify.
      * apply (under_plain_header
                 (fun h => r <- requests_get E url (Some h) None None ;;
                           handle_verify E (get_requests E fuel) r url
                                         "proxy, no cookie"));
          [exact Hw|].
        intros h Hh. apply under_bind; [apply under_requests_get; now apply good_get|].
        intros r. now apply under_handle_verify.
Qed.

(** The mode without headers. *)
Lemma get_requests_under_no_header (fuel : nat) :
  emits_under f good x (get_requests E fuel url "no header").
Proof.
  destruct fuel as [|fuel].
  - intros st o st' ev Hx [= <- <- <-]. split; [exact Hx|constructor].
  - rewrite get_requests_no_header. apply under_requests_get. now apply good_other.
Qed.

End HeaderInvariant.

Section CookieModes.

Variable E : env.
Variables (url : str) (c : option str).

(** Without cookie: no request has the header. *)
Lemma get_requests_without_cookie (fuel : nat) (request_type : str) :
  request_type = "no header" \/ request_type = "no proxy, no cookie" \/
  request_type = "proxy, no cookie" ->
  emits_under cookie (fun e => cookie_header e = None) c
    (get_requests E fuel url request_type).
Proof.
  assert (Hother : forall e, is_credentialed e = false -> cookie_header e = None).
  { intros [u [h|] pr t| | | |] He; try reflexivity. discriminate. }
  intros [->|Hrt].
  - apply get_requests_under_no_header; auto.
  - apply (get_requests_under cookie c _ (fun _ _ => eq_refl) (fun _ _ => eq_refl)
             (fun _ _ => eq_refl) (fun _ _ => eq_refl) Hother E false
             (fun _ => True) (fun h => assoc "Cookie" h = None)); auto.
    intros st cur h st' ev _ _ H. now apply get_header_cookie in H.
Qed.

(** With cookie: every request made with headers carries the stored one. *)
Lemma get_requests_with_cookie (fuel : nat) (request_type : str) :
  request_type = "no proxy, cookie" \/ request_type = "proxy, cookie" ->
  emits_under cookie
    (fun e => is_credentialed e = true -> cookie_header e = Some c) c
    (get_requests E fuel url request_type).
Proof.
  intros Hrt.
  set (good := fun e => is_credentialed e = true -> cookie_header e = Some c).
  assert (Hother : forall e, is_credentialed e = false -> good e).
  { intros e He He'. congruence. }
  apply (get_requests_under cookie c good (fun _ _ => eq_refl) (fun _ _ => eq_refl)
           (fun _ _ => eq_refl) (fun _ _ => eq_refl) Hother E true
           (fun cur => cur = c) (fun h => assoc "Cookie" h = Some c)); auto.
  - intros st cur h st' ev Hx -> H. apply get_header_cookie in H.
    rewrite H. destruct c; [reflexivity|now rewrite Hx].
  - intros u h pr t Hh _. exact Hh.
Qed.

(** With a user agent stored, every request made with headers carries it. *)
Lemma get_requests_with_agent (user_agent : str) (fuel : nat) (request_type : str) :
  emits_under ua
    (fun e => is_credentialed e = true -> agent_header e = Some (Some user_agent))
    (Some user_agent) (get_requests E fuel url request_type).
Proof.
  set (good := fun e => is_credentialed e = true ->
                        agent_header e = Some (Some user_agent)).
  assert (Hother : forall e, is_credentialed e = false -> good e).
  { intros e He He'. congruence. }
  assert (Hhdr : forall b st cur h st' ev,
             ua st = Some user_agent ->
             get_header E cur b st = (Return h, st', ev) ->
             assoc "User-Agent" h = Some (Some user_agent)).
  { intros b st cur h st' ev Hx H. apply get_header_agent in H.
    now rewrite H, Hx. }
  destruct (str_mem request_type valid_request_types) eqn:Hv.
  - apply valid_request_type_cases in Hv.
    destruct Hv as [->|[Hv|[Hv|[Hv|Hv]]]].
    + apply get_requests_under_no_header; auto.
    + apply (get_requests_under ua (Some user_agent) good (fun _ _ => eq_refl)
               (fun _ _ => eq_refl) (fun _ _ => eq_refl) (fun _ _ => eq_refl)
               Hother E true (fun _ => True)
               (fun h => assoc "User-Agent" h = Some (Some user_agent))); auto.
      * intros st cur h st' ev Hx _ H. exact (Hhdr _ _ _ _ _ _ Hx H).
      * intros u h pr t Hh _. exact Hh.
    + apply (get_requests_under ua (Some user_agent) good (fun _ _ => eq_refl)
               (fun _ _ => eq_refl) (fun _ _ => eq_refl) (fun _ _ => eq_refl)
               Hother E false (fun _ => True)
               (fun h => assoc "User-Agent" h = Some (Some user_agent))); auto.
      * intros st cur h st' ev Hx _ H. exact (Hhdr _ _ _ _ _ _ Hx H).
      * intros u h pr t Hh _. exact Hh.
    + apply (get_requests_under ua (Some user_agent) good (fun _ _ => eq_refl)
               (fun _ _ => eq_refl) (fun _ _ => eq_refl) (fun _ _ => eq_refl)
               Hother E false (fun _ => True)
               (fun h => assoc "User-Agent" h = Some (Some user_agent))); auto.
      * intros st cur h st' ev Hx _ H. exact (Hhdr _ _ _ _ _ _ Hx H).
      * intros u h pr t Hh _. exact Hh.
    + apply (get_requests_under ua (Some user_agent) good (fun _ _ => eq_refl)
               (fun _ _ => eq_refl) (fun _ _ => eq_refl) (fun _ _ => eq_refl)
               Hother E true (fun _ => True)
               (fun h => assoc "User-Agent" h = Some (Some user_agent))); auto.
      * intros st cur h st' ev Hx _ H. exact (Hhdr _ _ _ _ _ _ Hx H).
      * intros u h pr t Hh _. exact Hh.
  - intros st o st' ev Hx H. destruct fuel; [now injection H as <- <- <-|].
    rewrite get_requests_invalid in H by exact Hv. now injection H as <- <- <-.
Qed.

End CookieModes.

(** X6.  Whether the session cookie goes out depends on the mode alone.  In
    the three modes without cookie no request carries a [Cookie] header; in
    the two modes with cookie every request made with headers carries
    exactly the cookie stored on the object, through every retry and
    re-dispatch; the stored cookie is the same afterwards. *)
Theorem cookie_is_sent_exactly_in_the_cookie_modes (E : env) (fuel : nat)
    (url request_type : str) (st : state) (o : outcome response)
    (st' : state) (ev : list event) :
  get_requests E fuel url request_type st = (o, st', ev) ->
  cookie st' = cookie st /\
  (request_type = "no header" \/ request_type = "no proxy, no cookie" \/
   request_type = "proxy, no cookie" ->
   Forall (fun e => cookie_header e = None) ev) /\
  (request_type = "no proxy, cookie" \/ request_type = "proxy, cookie" ->
   Forall (fun e => is_credentialed e = true ->
                    cookie_header e = Some (cookie st)) ev).
Proof.
  intros H. split; [|split].
  - destruct (str_mem request_type valid_request_types) eqn:Hv.
    + apply valid_request_type_cases in Hv.
      destruct Hv as [Hv|[Hv|[Hv|[Hv|Hv]]]].
      * refine (proj1 (get_requests_without_cookie E url (cookie st) fuel
                         request_type _ _ _ _ _ eq_refl H)); tauto.
      * refine (proj1 (get_requests_with_cookie E url (cookie st) fuel
                         request_type _ _ _ _ _ eq_refl H)); tauto.
      * refine (proj1 (get_requests_without_cookie E url (cookie st) fuel
                         request_type _ _ _ _ _ eq_refl H)); tauto.
      * refine (proj1 (get_requests_without_cookie E url (cookie st) fuel
                         request_type _ _ _ _ _ eq_refl H)); tauto.
      * refine (proj1 (get_requests_with_cookie E url (cookie st) fuel
                         request_type _ _ _ _ _ eq_refl H)); tauto.
    + destruct fuel; [now injection H as <- <- <-|].
      rewrite get_requests_invalid in H by exact Hv. now injection H as <- <- <-.
  - intros Hrt.
    exact (proj2 (get_requests_without_cookie E url (cookie st) fuel
                    request_type Hrt _ _ _ _ eq_refl H)).
  - intros Hrt.
    exact (proj2 (get_requests_with_cookie E url (cookie st) fuel
                    request_type Hrt _ _ _ _ eq_refl H)).
Qed.

(** X21.  The user agent that [__init__] insists on is the one every request
    with headers carries: from an instance built by [__init__], whatever
    happened since, a dispatch sends the configured value in [User-Agent]
    and never the generated one. *)
Theorem configured_user_agent_is_sent (E : env) (cold : bool) (st0 : state)
    (fuel : nat) (url request_type : str) (st : state)
    (o : outcome response) (st' : state) (ev : list event) :
  init (cfg E) cold = Return st0 ->
  ua st = ua st0 ->
  get_requests E fuel url request_type st = (o, st', ev) ->
  exists user_agent,
    USER_AGENT (cfg E) = Some user_agent /\
    ua st' = Some user_agent /\
    Forall (fun e => is_credentialed e = true ->
                     agent_header e = Some (Some user_agent)) ev.
Proof.
  unfold init. destruct (USER_AGENT (cfg E)) as [user_agent|] eqn:Hua; [|discriminate].
  intros [= <-] Hst H. exists user_agent. split; [reflexivity|].
  simpl in Hst. rewrite Hua in Hst.
  exact (get_requests_with_agent E url user_agent fuel request_type _ _ _ _ Hst H).
Qed.

Open Scope Z_scope.

(** ** Failing proxies *)

Lemma set_net_calls_same (st : state) : set_net_calls (net_calls st) st = st.
Proof. now destruct st. Qed.

Lemma set_net_calls_twice (a b : nat) (st : state) :
  set_net_calls a (set_net_calls b st) = set_net_calls a st.
Proof. reflexivity. Qed.

Lemma set_pool_calls_twice (a b : nat) (p q : list slot) (st : state) :
  set_net_calls a (set_proxy_pool p (set_net_calls b (set_proxy_pool q st))) =
  set_net_calls a (set_proxy_pool p st).
Proof. reflexivity. Qed.

Section FailingProxies.

Variable E : env.
Variable url : str.
Hypothesis network_down : forall n, net E n = NetError.

(** Through the gateway: one failed request, then the same call again. *)
Lemma gateway_failure_step (fuel : nat) (st : state) :
  HTTP_EXTRACT (cfg E) = false -> KEY_EXTRACT (cfg E) = true ->
  ip_proxy st = true ->
  exists h,
    get_requests E (S fuel) url "proxy, no cookie" st =
    let '(o, st2, ev2) :=
      get_requests E fuel url "proxy, no cookie"
        (set_net_calls (S (net_calls st)) st) in
    (o, st2,
     EvGet url (Some h) (Some (key_proxy_utils (cfg E))) (Some 10)
       :: EvPrint "Proxy request failed" :: ev2).
Proof.
  intros Hh Hk Hp. rewrite get_requests_proxy_no_cookie.
  unfold bind at 1, gets at 1. rewrite Hp.
  unfold attempt, try_except_request, get_proxy, get_header, requests_get.
  rewrite Hh, Hk. unfold bind, gets, ret, emit. simpl.
  rewrite network_down. simpl.
  eexists. destruct (get_requests E fuel url _ _) as [[o st2] ev2].
  reflexivity.
Qed.

(** From the pool: the slot at the front is gone after the failure. *)
Lemma pool_failure_step (fuel : nat) (st : state) (s : slot) (rest : list slot) :
  HTTP_EXTRACT (cfg E) = true -> ip_proxy st = true ->
  proxy_pool st = s :: rest ->
  exists h,
    get_requests E (S fuel) url "proxy, no cookie" st =
    let '(o, st2, ev2) :=
      get_requests E fuel url "proxy, no cookie"
        (set_net_calls (S (net_calls st)) (set_proxy_pool rest st)) in
    (o, st2,
     EvGet url (Some h) (Some (http_proxy_utils (slot_ip s) (slot_port s)))
       (Some 10)
       :: EvPrint "Proxy request failed" :: ev2).
Proof.
  intros Hh Hp Hpool. rewrite get_requests_proxy_no_cookie.
  unfold bind at 1, gets at 1. rewrite Hp.
  unfold attempt, try_except_request, get_proxy, get_header, requests_get,
    pool_slot, refill_and_pop, pop_front.
  rewrite Hh. unfold bind, gets, ret, emit, modify.
  destruct st; simpl in Hpool, Hp; subst; simpl. rewrite network_down. simpl.
  eexists. destruct (get_requests E fuel url _ _) as [[o st2] ev2].
  reflexivity.
Qed.

(** An empty pool: the failed refill ends the process. *)
Lemma pool_failure_exit (fuel : nat) (st : state) :
  HTTP_EXTRACT (cfg E) = true -> ip_proxy st = true -> proxy_pool st = [] ->
  get_requests E (S fuel) url "proxy, no cookie" st =
  (Exit, set_net_calls (S (net_calls st)) st,
   [EvGet (HTTP_LINK (cfg E)) None None None;
    EvPrint "Failed to fetch proxies"]).
Proof.
  intros Hh Hp Hpool. rewrite get_requests_proxy_no_cookie.
  unfold bind at 1, gets at 1. rewrite Hp.
  unfold attempt, try_except_request, get_proxy, get_header, requests_get,
    pool_slot, refill_and_pop, pop_front, refill.
  rewrite Hh. unfold bind, gets, ret, emit, modify, sys_exit.
  destruct st; simpl in Hpool, Hp; subst; simpl.
  unfold try_except_request, requests_get. simpl. rewrite network_down.
  reflexivity.
Qed.

End FailingProxies.

(** X7.  Through the key gateway a failed proxied request is followed at once
    by the next one, with no pause and no ceiling of its own: while every
    request fails, a call whose stack has room for [fuel] nested
    invocations makes [fuel] requests, none of which ends the call, and
    then ends with [RecursionError]. *)
Theorem gateway_failures_are_retried_without_limit (E : env) (url : str)
    (fuel : nat) (st : state) :
  (forall n, net E n = NetError) ->
  HTTP_EXTRACT (cfg E) = false -> KEY_EXTRACT (cfg E) = true ->
  ip_proxy st = true ->
  exists ev,
    get_requests E fuel url "proxy, no cookie" st =
    (Raise RecursionError, set_net_calls (net_calls st + fuel) st, ev) /\
    count is_get ev = fuel /\ count is_sleep ev = 0%nat.
Proof.
  intros Hnet Hh Hk. revert st. induction fuel as [|fuel IH]; intros st Hp.
  - exists []. simpl. rewrite Nat.add_0_r, set_net_calls_same. now split.
  - destruct (gateway_failure_step E url Hnet fuel st Hh Hk Hp) as [h Hstep].
    destruct (IH (set_net_calls (S (net_calls st)) st) Hp) as (ev & Hrun & Hg & Hs).
    rewrite Hrun in Hstep. eexists. split; [|split].
    + rewrite Hstep. f_equal. f_equal. rewrite set_net_calls_twice.
      f_equal. simpl. lia.
    + unfold count in *. simpl. now rewrite Hg.
    + unfold count in *. simpl. exact Hs.
Qed.

(** X8.  From a pool, every failed proxied request uses up the slot it took:
    while every request fails, the call makes one request per stocked slot,
    then asks for a refill, and the failure of that request ends the process
    with the pool empty. *)
Theorem failing_pool_is_drained_then_exit (E : env) (url : str)
    (fuel : nat) (st : state) :
  (forall n, net E n = NetError) ->
  HTTP_EXTRACT (cfg E) = true -> ip_proxy st = true ->
  (List.length (proxy_pool st) < fuel)%nat ->
  exists ev,
    get_requests E fuel url "proxy, no cookie" st =
    (Exit,
     set_net_calls (net_calls st + S (List.length (proxy_pool st)))
       (set_proxy_pool [] st), ev) /\
    count is_get ev = S (List.length (proxy_pool st)) /\
    map (fun s => Some (http_proxy_utils (slot_ip s) (slot_port s)))
        (proxy_pool st) ++ [None] =
    flat_map (fun e => match e with EvGet _ _ pr _ => [pr] | _ => [] end) ev.
Proof.
  intros Hnet Hh. remember (proxy_pool st) as pool eqn:Hpool.
  revert st fuel Hpool. induction pool as [|s rest IH]; intros st fuel Hpool Hp Hlt.
  - destruct fuel as [|fuel]; [simpl in Hlt; lia|].
    rewrite (pool_failure_exit E url Hnet fuel st Hh Hp (eq_sym Hpool)).
    eexists. split.
    { apply f_equal2; [apply f_equal2; [reflexivity|]|reflexivity].
      destruct st. simpl in *. subst. unfold set_net_calls, set_proxy_pool.
      simpl. f_equal. lia. }
    split; reflexivity.
  - destruct fuel as [|fuel]; [simpl in Hlt; lia|].
    destruct (pool_failure_step E url Hnet fuel st s rest Hh Hp (eq_sym Hpool))
      as [h Hstep].
    destruct (IH (set_net_calls (S (net_calls st)) (set_proxy_pool rest st)) fuel
                eq_refl Hp ltac:(simpl in Hlt; lia)) as (ev & Hrun & Hg & Hpr).
    rewrite Hrun in Hstep. eexists. split; [|split].
    + rewrite Hstep. f_equal. f_equal. rewrite set_pool_calls_twice.
      f_equal. simpl. lia.
    + unfold count in *. simpl. now rewrite Hg.
    + simpl. now rewrite Hpr.
Qed.

Lemma gateway_failures_are_retried_without_limit_witness :
  exists ev,
    get_requests (Cases.key_env Sample.down) 50 Sample.shop_url
      "proxy, no cookie" Cases.key_start =
    (Raise RecursionError,
     set_net_calls (net_calls Cases.key_start + 50) Cases.key_start, ev) /\
    count is_get ev = 50%nat /\ count is_sleep ev = 0%nat.
Proof.
  apply (gateway_failures_are_retried_without_limit
           (Cases.key_env Sample.down) Sample.shop_url 50 Cases.key_start);
    reflexivity.
Defined.

Lemma failing_pool_is_drained_then_exit_witness :
  exists ev,
    get_requests (Sample.pool_env Sample.down) 3 Sample.shop_url
      "proxy, no cookie" Cases.stocked =
    (Exit, set_net_calls (net_calls Cases.stocked + 3)
             (set_proxy_pool [] Cases.stocked), ev) /\
    count is_get ev = 3%nat /\
    map (fun s => Some (http_proxy_utils (slot_ip s) (slot_port s)))
        (proxy_pool Cases.stocked) ++ [None] =
    flat_map (fun e => match e with EvGet _ _ pr _ => [pr] | _ => [] end) ev.
Proof.
  apply (failing_pool_is_drained_then_exit
           (Sample.pool_env Sample.down) Sample.shop_url 3 Cases.stocked);
    try reflexivity.
  vm_compute. lia.
Defined.

Open Scope Z_scope.

(** ** The pool between refills *)

Section Batches.

Variable E : env.
Hypothesis http : HTTP_EXTRACT (cfg E) = true.


Lemma set_proxy_pool_twice (p q : list slot) (st : state) :
  set_proxy_pool p (set_proxy_pool q st) = set_proxy_pool p st.
Proof. reflexivity. Qed.





End Batches.





Open Scope Z_scope.

(** ** The interface loop *)

Section InterfaceLoop.

Variable E : env.
Variables (fuel : nat) (url : str).

Lemma interface_loop_enter (gas : nat) (retry_time : Z) (r : option response) :
  0 < retry_time ->
  interface_loop E (S gas) fuel url retry_time r =
  (r1 <- get_requests E fuel url "proxy, no cookie" ;;
   match r_json r1 with
   | None =>
       emit (EvPrint "JSON decoding failed. Retrying...") ;;;
       interface_loop E gas fuel url (retry_time - 1) (Some r1)
   | Some r_json =>
       r2 <- cold_start_check E fuel url r1 r_json ;;
       code <- lift (json_get r_json "code") ;;
       if json_eq_int code 200 then ret r2
       else if retry_time - 1 <=? 0 then
         emit (EvPrint "Please check your tsv and uuid, or the proxy quality may be low.") ;;;
         sys_exit
       else interface_loop E gas fuel url (retry_time - 1) (Some r2)
   end).
Proof.
  intros H. cbn [interface_loop].
  replace (retry_time >? 0) with true by (symmetry; apply Z.gtb_lt; lia).
  reflexivity.
Qed.

Lemma interface_loop_leave (gas : nat) (retry_time : Z) (r : option response) :
  retry_time <= 0 ->
  interface_loop E gas fuel url retry_time r =
  match r with
  | Some r => ret r
  | None => raise UnboundLocalError
  end.
Proof.
  intros H. destruct gas; cbn [interface_loop];
    replace (retry_time >? 0) with false
      by (symmetry; rewrite Z.gtb_ltb; apply Z.ltb_ge; lia);
    reflexivity.
Qed.

Lemma budget_gas :
  0 < get_retry_time (cfg E) ->
  exists gas, Z.to_nat (get_retry_time (cfg E)) = S gas.
Proof. intros H. exists (Nat.pred (Z.to_nat (get_retry_time (cfg E)))). lia. Qed.

(** A check that returns with the success status has changed nothing. *)
Lemma cold_start_check_success (r : response) (body code : json) (st : state)
    (r2 : response) (st2 : state) (ev2 : list event) :
  json_get body "code" = Return code ->
  json_eq_int code 200 = true ->
  cold_start_check E fuel url r body st = (Return r2, st2, ev2) ->
  r2 = r.
Proof.
  intros Hcode H200 H.
  assert (H406 : json_eq_int code 406 = false).
  { destruct (json_eq_int code 406) eqn:H406; [|reflexivity].
    apply json_code_406 in H406. congruence. }
  rewrite (cold_start_check_skips E fuel url r body code st Hcode (or_introl H406)) in H.
  now injection H as <- _ _.
Qed.

Lemma interface_loop_result (gas : nat) :
  forall (retry_time : Z) (r : option response) (st : state) (res : response)
         (st' : state) (ev : list event),
    (retry_time <= 0 -> forall r0, r = Some r0 -> unparsed_or_success r0) ->
    interface_loop E gas fuel url retry_time r st = (Return res, st', ev) ->
    unparsed_or_success res.
Proof.
  induction gas as [|gas IH]; intros retry_time r st res st' ev Hr H.
  - destruct (Z_lt_le_dec 0 retry_time) as [Hpos|Hle].
    + cbn [interface_loop] in H.
      replace (retry_time >? 0) with true in H by (symmetry; apply Z.gtb_lt; lia).
      discriminate.
    + rewrite interface_loop_leave in H by exact Hle.
      destruct r as [r0|]; [|discriminate]. injection H as <- _ _. now apply Hr.
  - destruct (Z_lt_le_dec 0 retry_time) as [Hpos|Hle].
    + rewrite interface_loop_enter in H by exact Hpos.
      apply bind_returns in H as (r1 & st1 & ev1 & ev1' & _ & H & _).
      destruct (r_json r1) as [body|] eqn:Hbody.
      * apply bind_returns in H as (r2 & st2 & ev2 & ev2' & Hc & H & _).
        apply bind_returns in H as (code & st3 & ev3 & ev3' & Hl & H & _).
        unfold lift in Hl. injection Hl as Hcode <- _.
        destruct (json_eq_int code 200) eqn:H200.
        -- injection H as <- _ _.
           rewrite (cold_start_check_success r1 body code st1 r2 st2 ev2 Hcode H200 Hc).
           right. now exists body, code.
        -- destruct (retry_time - 1 <=? 0) eqn:Hlast.
           ++ apply bind_returns in H as (? & ? & ? & ? & _ & H & _). discriminate.
           ++ apply Z.leb_gt in Hlast. revert H. apply IH. intros Hle. lia.
      * apply bind_returns in H as ([] & st2 & ev2 & ev2' & _ & H & _).
        revert H. apply IH. intros _ r0 [= <-]. now left.
    + rewrite interface_loop_leave in H by exact Hle.
      destruct r as [r0|]; [|discriminate]. injection H as <- _ _. now apply Hr.
Qed.

End InterfaceLoop.

(** X11.  What [get_request_for_interface] hands back is never a parsed
    failure: a response it returns either has a body that is not JSON, or a
    JSON object whose [code] is the success status 200. *)
Theorem interface_returns_success_or_unparsed (E : env) (fuel : nat)
    (url : str) (st : state) (r : response) (st' : state) (ev : list event) :
  get_request_for_interface E fuel url st = (Return r, st', ev) ->
  unparsed_or_success r.
Proof.
  unfold get_request_for_interface. apply interface_loop_result.
  intros _ r0 [=].
Qed.

(** X12.  A negative repeat number leaves no attempt at all: the loop is not
    entered, no request is made, and the [return r] after it raises
    [UnboundLocalError]. *)
Theorem negative_repeat_number_raises_unbound_local (E : env) (fuel : nat)
    (url : str) (st : state) :
  REPEAT_NUMBER (cfg E) < 0 ->
  get_request_for_interface E fuel url st = (Raise UnboundLocalError, st, []).
Proof.
  intros H. unfold get_request_for_interface.
  rewrite interface_loop_leave; [reflexivity|].
  unfold get_retry_time. destruct (REPEAT_NUMBER (cfg E) =? 0) eqn:H0; [|lia].
  apply Z.eqb_eq in H0. lia.
Qed.

(** X13.  A body that is JSON but not an object (an array, a string, a
    number, [null]) ends the call with [AttributeError] at the first
    [r_json.get]: the handler is for decoding errors only, so the remaining
    attempts are not made. *)
Theorem non_object_body_raises_attribute_error (E : env) (fuel : nat)
    (url : str) (st : state) (r1 : response) (st1 : state)
    (ev1 : list event) (body : json) :
  0 < get_retry_time (cfg E) ->
  get_requests E fuel url "proxy, no cookie" st = (Return r1, st1, ev1) ->
  r_json r1 = Some body ->
  (forall members, body <> JObj members) ->
  get_request_for_interface E fuel url st = (Raise AttributeError, st1, ev1).
Proof.
  intros Hpos Hget Hbody Hobj. unfold get_request_for_interface.
  destruct (budget_gas E Hpos) as [gas ->].
  rewrite interface_loop_enter by exact Hpos.
  rewrite (bind_return_eq _ _ _ _ _ _ Hget), Hbody.
  unfold cold_start_check, bind, lift.
  destruct body as [| | | | |members];
    [cbn [json_get]; now rewrite app_nil_r ..|now destruct (Hobj members)].
Qed.

(** X14.  On a cold start, a challenge answer (status 406) that does not
    carry the verification URL ends the call with the [KeyError] or
    [TypeError] of the subscript: nothing beyond the first dispatch has
    happened by then, so the operator was not prompted and the flag is still
    up. *)
Theorem challenge_without_url_raises (E : env) (fuel : nat) (url : str)
    (st : state) (r1 : response) (st1 : state) (ev1 : list event)
    (body code : json) (e : exn) :
  0 < get_retry_time (cfg E) ->
  get_requests E fuel url "proxy, no cookie" st = (Return r1, st1, ev1) ->
  r_json r1 = Some body ->
  json_get body "code" = Return code ->
  json_eq_int code 406 = true ->
  is_cold_start st1 = true ->
  subscript body "customData" = Raise e \/
  (exists custom, subscript body "customData" = Return custom /\
                  subscript custom "verifyPageUrl" = Raise e) ->
  get_request_for_interface E fuel url st = (Raise e, st1, ev1) /\
  (e = KeyError \/ e = TypeError) /\
  count is_api_prompt ev1 = 0%nat.
Proof.
  intros Hpos Hget Hbody Hcode H406 Hcold Hurl. split; [|split].
  - unfold get_request_for_interface.
    destruct (budget_gas E Hpos) as [gas ->].
    rewrite interface_loop_enter by exact Hpos.
    rewrite (bind_return_eq _ _ _ _ _ _ Hget), Hbody.
    unfold cold_start_check, bind, lift, gets. rewrite Hcode, H406, Hcold.
    destruct Hurl as [H|(custom & Hc & H)].
    + rewrite H. now rewrite app_nil_r.
    + rewrite Hc, H. now rewrite app_nil_r.
  - assert (Hsub : forall j k, subscript j k = Raise e -> e = KeyError \/ e = TypeError).
    { intros j k H. unfold subscript in H.
      destruct j as [| | | | |members]; try (injection H as <-; now right).
      destruct (assoc k members); [discriminate|]. injection H as <-. now left. }
    destruct Hurl as [H|(custom & _ & H)]; exact (Hsub _ _ H).
  - exact (proj2 (get_requests_quiet E _ _ _ _ _ _ _ Hget)).
Qed.

Open Scope Z_scope.

(** ** The number of requests of an interface call *)

Ltac tally :=
  unfold count in *; cbn [filter is_get length app];
  rewrite ?app_nil_r, ?filter_app, ?length_app;
  cbn [filter is_get length app]; lia.

Section Bounded.

Variable E : env.
Variables (fuel : nat) (url : str).
Hypothesis answered : answers E (fun _ => True).

Lemma direct_dispatch (st : state) :
  ip_proxy st = false ->
  exists r h,
    get_requests E (S fuel) url "proxy, no cookie" st =
    (Return r, set_net_calls (S (net_calls st)) st,
     [EvGet url (Some h) None None]).
Proof.
  intros Hip. destruct (answered (net_calls st)) as (r & Hn & Hv & _).
  destruct (get_requests_direct E fuel url st r Hip Hn Hv) as [h Hg].
  now exists r, h.
Qed.

Lemma json_get_cases (j : json) (key : str) :
  (exists v, json_get j key = Return v) \/ json_get j key = Raise AttributeError.
Proof.
  destruct j as [| | | | |members]; try (now right). left. simpl.
  destruct (assoc key members); eexists; reflexivity.
Qed.

Lemma subscript_cases (j : json) (key : str) :
  (exists v, subscript j key = Return v) \/
  subscript j key = Raise KeyError \/ subscript j key = Raise TypeError.
Proof.
  unfold subscript. destruct j as [| | | | |members]; try (now right; right).
  destruct (assoc key members); [left; eexists; reflexivity|now right; left].
Qed.

Ltac ended H Hip :=
  injection H as <- <- <-;
  split; [split; discriminate|split; [exact Hip|simpl; lia]].

Lemma cold_start_check_bounded (r : response) (body : json) (st : state)
    (o : outcome response) (st' : state) (ev : list event) :
  ip_proxy st = false ->
  cold_start_check E (S fuel) url r body st = (o, st', ev) ->
  (o <> OutOfFuel /\ o <> Raise RecursionError) /\ ip_proxy st' = false /\
  (count is_get ev + pending st' <= pending st)%nat.
Proof.
  intros Hip H. unfold cold_start_check, bind at 1, lift in H.
  destruct (json_get_cases body "code") as [[code Hcode]|Hcode];
    rewrite Hcode in H; cbv beta iota in H; [|ended H Hip].
  destruct (json_eq_int code 406); [|ended H Hip].
  unfold bind at 1, gets in H.
  destruct (is_cold_start st) eqn:Hcold; [|ended H Hip].
  unfold bind at 1, lift in H.
  destruct (subscript_cases body "customData") as [[custom Hc]|[Hc|Hc]];
    rewrite Hc in H; cbv beta iota in H; [|ended H Hip|ended H Hip].
  unfold bind at 1, lift in H.
  destruct (subscript_cases custom "verifyPageUrl") as [[page Hp]|[Hp|Hp]];
    rewrite Hp in H; cbv beta iota in H; [|ended H Hip|ended H Hip].
  unfold bind at 1, emit in H. unfold bind at 1 in H.
  destruct (direct_dispatch st Hip) as (r' & h & Hg). rewrite Hg in H.
  unfold bind, modify, ret in H. injection H as <- <- <-.
  split; [split; discriminate|split; [exact Hip|]].
  unfold pending. simpl. rewrite Hcold. unfold count. simpl. lia.
Qed.

Lemma interface_loop_bounded (gas : nat) :
  forall (retry_time : Z) (r : option response) (st : state)
         (o : outcome response) (st' : state) (ev : list event),
    ip_proxy st = false ->
    (Z.to_nat retry_time <= gas)%nat ->
    interface_loop E gas (S fuel) url retry_time r st = (o, st', ev) ->
    (o <> OutOfFuel /\ o <> Raise RecursionError) /\
    (count is_get ev <= Z.to_nat retry_time + pending st)%nat.
Proof.
  induction gas as [|gas IH]; intros retry_time r st o st' ev Hip Hgas H.
  - rewrite interface_loop_leave in H by lia.
    destruct r; injection H as <- <- <-; split;
      try (split; discriminate); apply Nat.le_0_l.
  - destruct (Z_lt_le_dec 0 retry_time) as [Hpos|Hle].
    2:{ rewrite interface_loop_leave in H by lia.
        destruct r; injection H as <- <- <-; split;
          try (split; discriminate); apply Nat.le_0_l. }
    rewrite interface_loop_enter in H by exact Hpos.
    destruct (direct_dispatch st Hip) as (r1 & h & Hg).
    rewrite (bind_return_eq _ _ _ _ _ _ Hg) in H.
    set (st1 := set_net_calls (S (net_calls st)) st) in *.
    assert (Hip1 : ip_proxy st1 = false) by exact Hip.
    assert (Hpend1 : pending st1 = pending st) by reflexivity.
    assert (Hnext : (Z.to_nat (retry_time - 1) <= gas)%nat) by lia.
    assert (Hone : (S (Z.to_nat (retry_time - 1)) = Z.to_nat retry_time)%nat) by lia.
    destruct (r_json r1) as [body|].
    + destruct (cold_start_check E (S fuel) url r1 body st1) as [[o2 st2] ev2] eqn:Hc.
      destruct (cold_start_check_bounded r1 body st1 o2 st2 ev2 Hip1 Hc)
        as (Ho2 & Hip2 & Hcount2).
      unfold bind at 1 in H. rewrite Hc in H.
      destruct o2 as [r2| |e|]; [| | |now destruct Ho2 as [Ho2 _]];
        cbv beta iota in H.
      2: injection H as <- <- <-; split; [split; discriminate|]; tally.
      2: injection H as <- <- <-; split;
           [split; [discriminate|exact (proj2 Ho2)]|]; tally.
      unfold bind at 1, lift in H.
      destruct (json_get_cases body "code") as [[code Hcode]|Hcode];
        rewrite Hcode in H; cbv beta iota in H.
      2: injection H as <- <- <-; split; [split; discriminate|];
           tally.
      destruct (json_eq_int code 200); cbv beta iota in H.
      { unfold ret in H. injection H as <- <- <-; split; [split; discriminate|];
          tally. }
      destruct (retry_time - 1 <=? 0); cbv beta iota in H.
      * unfold bind, emit, sys_exit in H.
        injection H as <- <- <-; split; [split; discriminate|];
          tally.
      * destruct (interface_loop E gas (S fuel) url (retry_time - 1) (Some r2) st2)
          as [[o3 st3] ev3] eqn:Hl.
        destruct (IH _ _ _ _ _ _ Hip2 Hnext Hl) as [Ho3 Hcount3].
        injection H as <- <- <-. split; [exact Ho3|].
        tally.
    + unfold bind at 1, emit in H.
      destruct (interface_loop E gas (S fuel) url (retry_time - 1) (Some r1) st1)
        as [[o3 st3] ev3] eqn:Hl.
      destruct (IH _ _ _ _ _ _ Hip1 Hnext Hl) as [Ho3 Hcount3].
      injection H as <- <- <-. split; [exact Ho3|].
      tally.
Qed.

End Bounded.

(** X15.  Without proxies and without redirects to the verification site, a
    call of [get_request_for_interface] ends, however it ends and never for
    want of stack, after at most as many requests as the retry budget, and
    one more if the cold-start flag was up. *)
Theorem direct_interface_requests_are_bounded (E : env) (fuel : nat)
    (url : str) (st : state) (o : outcome response) (st' : state)
    (ev : list event) :
  answers E (fun _ => True) ->
  ip_proxy st = false ->
  get_request_for_interface E (S fuel) url st = (o, st', ev) ->
  o <> OutOfFuel /\
  o <> Raise RecursionError /\
  (count is_get ev <=
   Z.to_nat (get_retry_time (cfg E)) + if is_cold_start st then 1 else 0)%nat.
Proof.
  intros Hnet Hip H. unfold get_request_for_interface in H.
  destruct (interface_loop_bounded E fuel url Hnet _ _ _ _ _ _ _ Hip (le_n _) H)
    as [[Hgas Hstack] Hcount].
  split; [exact Hgas|split; [exact Hstack|exact Hcount]].
Qed.

Open Scope nat_scope.

(** ** The decoders *)

Lemma occurs_in (w t : str) (a : ascii) : occurs w t -> In a w -> In a t.
Proof.
  intros [l [r ->]] H. apply in_or_app. right. apply in_or_app. now left.
Qed.

Lemma bs_not_dq : bs <> dq.
Proof. discriminate. Qed.

Section QuoteInMarkers.

Variable get_map : str -> dict.

(** Every marker of every decoder has a double quote. *)
Lemma marker_has_quote (sh : shape) (file_map : dict) (key value : str) :
  In (key, value) (pairs_of get_map sh file_map) -> In dq key.
Proof.
  intros H. apply in_pairs_of in H as (f & cp & ch & _ & H).
  destruct sh; destruct H as [-> _].
  - now left.
  - now left.
  - right. now left.
Qed.

End QuoteInMarkers.

(** X16.  The decoders act next to double quotes only: a text without a
    double quote comes back unchanged from each of the three, whatever the
    font maps hold. *)
Theorem text_without_quote_is_unchanged (get_map : str -> dict) (sh : shape)
    (file_map : dict) (text : str) :
  ~ In dq text -> decode get_map sh text file_map = text.
Proof.
  intros H. rewrite decode_as_pairs. apply replace_all_absent.
  intros key value Hin Ho. apply H.
  apply (occurs_in key text dq Ho).
  exact (marker_has_quote get_map sh file_map key value Hin).
Qed.

(** X17.  [replace_review_html] does not use the font identifiers: two
    font tables with the same files in the same order decode a text to the
    same result, whatever names the files are listed under. *)
Theorem review_decoder_ignores_font_ids (get_map : str -> dict)
    (text : str) (file_map file_map' : dict) :
  map snd file_map = map snd file_map' ->
  replace_review_html get_map text file_map =
  replace_review_html get_map text file_map'.
Proof.
  unfold replace_review_html. revert text file_map'.
  induction file_map as [|[font_id font_path] fm IH];
    intros text [|[font_id' font_path'] fm'] H; try discriminate; [reflexivity|].
  simpl in H. injection H as -> H. simpl. now apply IH.
Qed.

(** *** Escaped quotes *)

Section Escaped.

Lemma escape_app (x y : str) :
  escape_quotes (x ++ y) = escape_quotes x ++ escape_quotes y.
Proof. apply flat_map_app. Qed.

Lemma escape_cons_quote (t : str) :
  escape_quotes (dq :: t) = bs :: dq :: escape_quotes t.
Proof. reflexivity. Qed.

Lemma escape_cons_other (a : ascii) (t : str) :
  a <> dq -> escape_quotes (a :: t) = a :: escape_quotes t.
Proof.
  intros H. unfold escape_quotes. simpl.
  destruct (Ascii.eqb a dq) eqn:E; [apply Ascii.eqb_eq in E; contradiction|].
  reflexivity.
Qed.

Lemma escape_quote_free (w : str) : ~ In dq w -> escape_quotes w = w.
Proof.
  induction w as [|a w IH]; intros H; [reflexivity|].
  rewrite escape_cons_other by (intros ->; apply H; now left).
  f_equal. apply IH. intros Hin. apply H. now right.
Qed.

(** An escaped text does not begin with a quote. *)
Lemma escape_head (t : str) (a : ascii) (rest : str) :
  escape_quotes t = a :: rest -> a <> dq.
Proof.
  destruct t as [|b t]; [discriminate|].
  destruct (ascii_dec b dq) as [->|Hb].
  - rewrite escape_cons_quote. intros [= <- _]. exact bs_not_dq.
  - rewrite escape_cons_other by exact Hb. now intros [= <- _].
Qed.

Lemma prefixb_quote_escape (k t : str) :
  k <> [] -> prefixb (escape_quotes k) (dq :: t) = false.
Proof.
  intros Hk. destruct (escape_quotes k) as [|a rest] eqn:E.
  - destruct k as [|b k]; [contradiction|].
    destruct (ascii_dec b dq) as [->|Hb];
      [rewrite escape_cons_quote in E|rewrite escape_cons_other in E by exact Hb];
      discriminate.
  - apply escape_head in E. simpl.
    destruct (Ascii.eqb a dq) eqn:Ea; [apply Ascii.eqb_eq in Ea; contradiction|].
    reflexivity.
Qed.

Lemma eqb_neq (a b : ascii) : a <> b -> Ascii.eqb a b = false.
Proof.
  intros H. destruct (Ascii.eqb a b) eqn:E; [apply Ascii.eqb_eq in E; contradiction|].
  reflexivity.
Qed.

(** A marker that does not end with a backslash or a quote begins an
    escaped text exactly when it begins the text. *)
Lemma prefixb_escape (c : ascii) (k t : str) :
  c <> bs -> c <> dq ->
  prefixb (escape_quotes (k ++ [c])) (escape_quotes t) = prefixb (k ++ [c]) t.
Proof.
  intros Hbs Hdq. revert t. induction k as [|b k IH]; intros t.
  - cbn [app]. rewrite (escape_cons_other c []) by exact Hdq.
    destruct t as [|a t]; [reflexivity|].
    destruct (ascii_dec a dq) as [->|Ha].
    + rewrite escape_cons_quote. simpl.
      now rewrite (eqb_neq c bs Hbs), (eqb_neq c dq Hdq).
    + rewrite escape_cons_other by exact Ha. reflexivity.
  - cbn [app]. destruct t as [|a t].
    + destruct (ascii_dec b dq) as [->|Hb];
        [rewrite escape_cons_quote|rewrite escape_cons_other by exact Hb];
        reflexivity.
    + destruct (ascii_dec b dq) as [->|Hb], (ascii_dec a dq) as [->|Ha].
      * rewrite !escape_cons_quote. cbn [prefixb]. rewrite !Ascii.eqb_refl.
        cbn [andb]. apply IH.
      * rewrite escape_cons_quote, escape_cons_other by exact Ha.
        cbn [prefixb]. rewrite (eqb_neq dq a) by congruence.
        destruct (Ascii.eqb bs a); [|reflexivity]. cbn [andb].
        destruct (escape_quotes t) as [|x rest] eqn:Et; [reflexivity|].
        apply escape_head in Et. now rewrite (eqb_neq dq x) by congruence.
      * rewrite escape_cons_quote, escape_cons_other by exact Hb.
        cbn [prefixb]. rewrite (eqb_neq b dq Hb).
        destruct (Ascii.eqb b bs); [|reflexivity]. cbn [andb].
        apply prefixb_quote_escape. now destruct k.
      * rewrite !escape_cons_other by assumption. cbn [prefixb].
        now rewrite IH.
Qed.

Variables (k : str) (c : ascii) (new : str).
Hypothesis c_not_bs : c <> bs.
Hypothesis c_not_dq : c <> dq.

Lemma marker_not_nil : k ++ [c] <> [].
Proof. now destruct k. Qed.

Lemma escaped_marker_not_nil : escape_quotes (k ++ [c]) <> [].
Proof.
  rewrite escape_app, (escape_cons_other c []) by exact c_not_dq.
  now destruct (escape_quotes k).
Qed.

(** Replacing in the escaped text is escaping the replaced text. *)
Lemma replace_escape (t : str) :
  replace (escape_quotes t) (escape_quotes (k ++ [c])) (escape_quotes new) =
  escape_quotes (replace t (k ++ [c]) new).
Proof.
  induction t as [| r IH | a t Hp IH] using (replace_scan_ind (k ++ [c]) marker_not_nil).
  - rewrite (replace_nil (k ++ [c]) new marker_not_nil).
    apply (replace_nil _ _ escaped_marker_not_nil).
  - rewrite (replace_hit _ _ marker_not_nil).
    rewrite (escape_app (k ++ [c]) r), (escape_app new).
    rewrite (replace_hit _ _ escaped_marker_not_nil). now rewrite IH.
  - rewrite (replace_miss _ _ marker_not_nil) by exact Hp.
    rewrite <- (prefixb_escape c k (a :: t) c_not_bs c_not_dq) in Hp.
    destruct (ascii_dec a dq) as [->|Ha].
    + rewrite !escape_cons_quote in *.
      rewrite (replace_miss _ _ escaped_marker_not_nil) by exact Hp.
      rewrite (replace_miss _ _ escaped_marker_not_nil)
        by (apply prefixb_quote_escape, marker_not_nil).
      now rewrite IH.
    + rewrite !escape_cons_other in * by exact Ha.
      rewrite (replace_miss _ _ escaped_marker_not_nil) by exact Hp.
      now rewrite IH.
Qed.

End Escaped.

Lemma replace_all_escape (pairs : list (str * str)) (t : str) :
  (forall key value, In (key, value) pairs ->
     exists k c, key = k ++ [c] /\ c <> bs /\ c <> dq) ->
  replace_all (map escape_pair pairs) (escape_quotes t) =
  escape_quotes (replace_all pairs t).
Proof.
  revert t. induction pairs as [|[key value] pairs IH]; intros t H; [reflexivity|].
  unfold replace_all. simpl.
  fold (replace_all pairs (replace t key value)).
  fold (replace_all (map escape_pair pairs)
          (replace (escape_quotes t) (escape_quotes key) (escape_quotes value))).
  destruct (H key value (or_introl eq_refl)) as (k & c & -> & Hbs & Hdq).
  rewrite (replace_escape k c value Hbs Hdq).
  apply IH. intros key' value' Hin. apply (H key' value'). now right.
Qed.

Section JsonAndHtml.

Variable get_map : str -> dict.

Lemma escape_search_key (font_id code_point : str) :
  ~ In dq font_id -> ~ In dq (replace code_point "uni" "&#x") ->
  escape_quotes (search_key font_id code_point) = json_key font_id code_point.
Proof.
  intros Hf Hk. unfold search_key, json_key.
  rewrite !escape_app, (escape_quote_free font_id Hf), (escape_quote_free _ Hk).
  reflexivity.
Qed.

Lemma escape_search_value (font_id character : str) :
  ~ In dq font_id -> ~ In dq character ->
  escape_quotes (search_value font_id character) = json_value font_id character.
Proof.
  intros Hf Hc. unfold search_value, json_value.
  rewrite !escape_app, (escape_quote_free font_id Hf), (escape_quote_free _ Hc).
  reflexivity.
Qed.

Lemma json_pairs_escape (file_map : dict) :
  quote_free get_map file_map ->
  json_pairs get_map file_map = map escape_pair (search_pairs get_map file_map).
Proof.
  unfold json_pairs, search_pairs.
  induction file_map as [|[font_id font_path] fm IH]; intros H; [reflexivity|].
  cbn [flat_map]. rewrite map_app, <- IH.
  - f_equal. rewrite map_map. apply map_ext_in. intros [cp ch] Hin.
    destruct (H font_id font_path (or_introl eq_refl)) as [Hf Hitems].
    destruct (Hitems cp ch Hin) as [Hk Hc].
    unfold escape_pair. cbn [fst snd].
    now rewrite escape_search_key, escape_search_value.
  - intros f p Hin. apply H. now right.
Qed.

Lemma search_key_ends (file_map : dict) (key value : str) :
  In (key, value) (search_pairs get_map file_map) ->
  exists k c, key = k ++ [c] /\ c <> bs /\ c <> dq.
Proof.
  intros H. apply (in_pairs_of get_map RawSpan) in H as (f & cp & ch & _ & -> & _).
  exists ([dq] ++ f ++ [dq] ++ ">" ++ replace cp "uni" "&#x"), ";"%char.
  split; [|split; discriminate].
  unfold search_key. now rewrite <- !app_assoc.
Qed.

End JsonAndHtml.

(** X18.  The JSON decoder is the search decoder seen through the escaping
    of quotes.  When no font identifier, glyph name or replacement character
    has a double quote, decoding a text whose quotes are escaped gives the
    decoded text with its quotes escaped. *)
Theorem json_decoder_is_search_decoder_escaped (get_map : str -> dict)
    (file_map : dict) (text : str) :
  quote_free get_map file_map ->
  replace_json_text get_map (escape_quotes text) file_map =
  escape_quotes (replace_search_html get_map text file_map).
Proof.
  intros H. rewrite json_as_pairs, search_as_pairs, (json_pairs_escape get_map file_map H).
  apply replace_all_escape. intros key value Hin.
  exact (search_key_ends get_map file_map key value Hin).
Qed.

Open Scope Z_scope.

(** ** The cookie and the search URL *)

Lemma update_cookie_runs (raw : str) (st : state) :
  update_cookie raw st =
  (Return tt, set_cookie (Some raw) st,
   [EvPrint "Cookie has been updated from the global configuration."]).
Proof. reflexivity. Qed.

(** X19.  A cookie set by [update_cookie] is the one the next dispatch
    sends: in the modes with cookie every request made with headers after
    the update carries the new value, whatever cookie was stored before, and
    it is still the stored cookie when the dispatch ends. *)
Theorem updated_cookie_is_sent (E : env) (fuel : nat) (url request_type : str)
    (raw : str) (st : state) (o : outcome response) (st' : state)
    (ev : list event) :
  request_type = "no proxy, cookie" \/ request_type = "proxy, cookie" ->
  (update_cookie raw ;;; get_requests E fuel url request_type) st = (o, st', ev) ->
  cookie st' = Some raw /\
  Forall (fun e => is_credentialed e = true ->
                   cookie_header e = Some (Some raw)) ev.
Proof.
  intros Hrt H. unfold bind in H. rewrite update_cookie_runs in H.
  destruct (get_requests E fuel url request_type (set_cookie (Some raw) st))
    as [[o1 st1] ev1] eqn:Hg.
  injection H as <- <- <-.
  destruct (get_requests_with_cookie E url (Some raw) fuel request_type Hrt
              (set_cookie (Some raw) st) o1 st1 ev1 eq_refl Hg) as [Hc Hev].
  split; [exact Hc|].
  constructor; [discriminate|exact Hev].
Qed.

Lemma str_of_int_inj (a b : Z) : str_of_int a = str_of_int b -> a = b.
Proof.
  unfold str_of_int. intros H.
  apply (f_equal string_of_list_ascii) in H.
  rewrite !string_of_list_ascii_of_string in H.
  apply (f_equal NilEmpty.int_of_string) in H.
  rewrite !NilEmpty.isi in H. injection H as H.
  now apply DecimalZ.to_int_inj.
Qed.

(** X20.  Search pages always go out in mode [proxy, cookie], which is one
    of the modes the dispatch accepts; the test on the first page changes
    nothing, the URL being the base followed by the page number in both
    branches; and different pages of the same search have different URLs. *)
Theorem get_search_url_is_uniform (cur_page : Z) (city_id keyword : str) :
  get_search_url cur_page city_id keyword =
  ("http://www.dianping.com/search/keyword/" ++ city_id ++ "/0_" ++ keyword
     ++ "/p" ++ str_of_int cur_page,
   list_ascii_of_string "proxy, cookie") /\
  str_mem (snd (get_search_url cur_page city_id keyword)) valid_request_types = true /\
  forall other_page,
    fst (get_search_url other_page city_id keyword) =
    fst (get_search_url cur_page city_id keyword) ->
    other_page = cur_page.
Proof.
  assert (Heq : forall p,
             get_search_url p city_id keyword =
             ("http://www.dianping.com/search/keyword/" ++ city_id ++ "/0_"
                ++ keyword ++ "/p" ++ str_of_int p,
              list_ascii_of_string "proxy, cookie")).
  { intros p. unfold get_search_url. destruct (p =? 1) eqn:Hp.
    - apply Z.eqb_eq in Hp. subst p. cbv zeta. rewrite <- !app_assoc. reflexivity.
    - cbv zeta. rewrite <- !app_assoc. reflexivity. }
  split; [apply Heq|]. split.
  - rewrite Heq. reflexivity.
  - intros other_page. rewrite !Heq. cbn [fst]. intros H.
    apply app_inv_head in H. apply app_inv_head in H. apply app_inv_head in H.
    apply app_inv_head in H. apply app_inv_head in H.
    now apply str_of_int_inj.
Qed.

Open Scope Z_scope.

(** ** The exceptions of a dispatch *)

Section RaisesOnly.

Variable allowed : exn -> bool.







Lemma raises_out_of_fuel {A} : raises_only allowed (@out_of_fuel A).
Proof. intros st e st' ev [=]. Qed.









End RaisesOnly.


Section DispatchErrors.

Variable E : env.




















End DispatchErrors.


Open Scope Z_scope.

(** ** The further properties at the sample inputs *)

Lemma quote_freeb_sound (get_map : str -> dict) (file_map : dict) :
  quote_freeb get_map file_map = true -> quote_free get_map file_map.
Proof.
  unfold quote_freeb, quote_free. rewrite forallb_forall.
  intros H font_id font_path Hin. specialize (H _ Hin). cbn [fst snd] in H.
  apply andb_true_iff in H as [Hf H]. split.
  - intros Hq. apply char_in_iff in Hq. now rewrite Hq in Hf.
  - rewrite forallb_forall in H. intros code_point character Hitem.
    specialize (H _ Hitem). cbn [fst snd] in H.
    apply andb_true_iff in H as [Hk Hc]. split.
    + intros Hq. apply char_in_iff in Hq. now rewrite Hq in Hk.
    + intros Hq. apply char_in_iff in Hq. now rewrite Hq in Hc.
Defined.

Section FurtherSamples.

Import Sample.
Import Cases.

Lemma parse_stop_time_rows_reversed_witness :
  nth 0 (parse_stop_time "100,5;200,10") [] = split "200,10" ","%char.
Proof.
  refine (proj2 (proj2 (parse_stop_time_rows_reversed "100,5;200,10")) 0%nat _).
  vm_compute. lia.
Defined.

Lemma freeze_time_counts_exactly_once_witness :
  snd (fst (freeze_time (local_after 199))) =
    set_global_time (global_time (local_after 199) + 1) (local_after 199) /\
  Forall (fun e => e = EvSleep) (snd (freeze_time (local_after 199))).
Proof.
  apply (freeze_time_counts_exactly_once (local_after 199)
           (fst (fst (freeze_time (local_after 199))))).
  vm_compute. reflexivity.
Defined.


Lemma get_requests_never_returns_a_challenge_witness :
  contains "verify" (r_url page) = false.
Proof.
  apply (get_requests_never_returns_a_challenge (local_env redirected) 2 shop_url
           "no proxy, cookie" local_start page (snd (fst redirected_run))
           (snd redirected_run)).
  - intros H. vm_compute in H. discriminate H.
  - vm_compute. reflexivity.
Defined.

Lemma cookie_is_sent_exactly_in_the_cookie_modes_witness :
  Forall (fun e => is_credentialed e = true ->
                   cookie_header e = Some (cookie local_start))
         (snd redirected_run).
Proof.
  refine (proj2 (proj2 (cookie_is_sent_exactly_in_the_cookie_modes
                          (local_env redirected) 2 shop_url "no proxy, cookie"
                          local_start (fst (fst redirected_run))
                          (snd (fst redirected_run)) (snd redirected_run) _)) _).
  - vm_compute. reflexivity.
  - left. reflexivity.
Defined.



Lemma interface_returns_success_or_unparsed_witness :
  unparsed_or_success (status 200).
Proof.
  apply (interface_returns_success_or_unparsed (local_env (always (status 200))) 1
           api_url local_start (status 200) (snd (fst success_call))
           (snd success_call)).
  vm_compute. reflexivity.
Defined.

Lemma negative_repeat_number_raises_unbound_local_witness :
  get_request_for_interface (mkEnv negative_config down "faker") 1 api_url
    (initial_state negative_config true) =
  (Raise UnboundLocalError, initial_state negative_config true, []).
Proof.
  apply (negative_repeat_number_raises_unbound_local
           (mkEnv negative_config down "faker") 1 api_url
           (initial_state negative_config true)).
  reflexivity.
Defined.

Lemma non_object_body_raises_attribute_error_witness :
  get_request_for_interface (local_env (always array_answer)) 1 api_url local_start =
  (Raise AttributeError, snd (fst array_dispatch), snd array_dispatch).
Proof.
  apply (non_object_body_raises_attribute_error (local_env (always array_answer)) 1
           api_url local_start array_answer (snd (fst array_dispatch))
           (snd array_dispatch) (JArr [])).
  - reflexivity.
  - vm_compute. reflexivity.
  - reflexivity.
  - discriminate.
Defined.

Lemma challenge_without_url_raises_witness :
  get_request_for_interface (local_env (always (status 406))) 1 api_url local_start =
    (Raise KeyError, snd (fst bare_challenge_dispatch), snd bare_challenge_dispatch) /\
  (KeyError = KeyError \/ KeyError = TypeError) /\
  count is_api_prompt (snd bare_challenge_dispatch) = 0%nat.
Proof.
  apply (challenge_without_url_raises (local_env (always (status 406))) 1 api_url
           local_start (status 406) (snd (fst bare_challenge_dispatch))
           (snd bare_challenge_dispatch) (status_body 406) (JInt 406) KeyError).
  - reflexivity.
  - vm_compute. reflexivity.
  - reflexivity.
  - reflexivity.
  - reflexivity.
  - reflexivity.
  - left. reflexivity.
Defined.

Lemma always_answered : answers (local_env (always (status 500))) (fun _ => True).
Proof. intros n. exists (status 500). repeat split. Defined.

Lemma direct_interface_requests_are_bounded_witness :
  fst (fst failure_call) <> OutOfFuel /\
  fst (fst failure_call) <> Raise RecursionError /\
  (count is_get (snd failure_call) <=
   Z.to_nat (get_retry_time local_config) + 1)%nat.
Proof.
  apply (direct_interface_requests_are_bounded (local_env (always (status 500))) 0
           api_url local_start (fst (fst failure_call)) (snd (fst failure_call))
           (snd failure_call) always_answered).
  - reflexivity.
  - vm_compute. reflexivity.
Defined.

Lemma text_without_quote_is_unchanged_witness :
  decode glyph_map RawSpan plain_text font_files = plain_text.
Proof.
  apply (text_without_quote_is_unchanged glyph_map RawSpan font_files plain_text).
  intros H. apply char_in_iff in H. vm_compute in H. discriminate H.
Defined.

Lemma review_decoder_ignores_font_ids_witness :
  replace_review_html glyph_map span_text font_files =
  replace_review_html glyph_map span_text renamed_files.
Proof.
  apply (review_decoder_ignores_font_ids glyph_map span_text font_files renamed_files).
  reflexivity.
Defined.

Lemma json_decoder_is_search_decoder_escaped_witness :
  replace_json_text glyph_map (escape_quotes span_text) font_files =
  escape_quotes (replace_search_html glyph_map span_text font_files).
Proof.
  apply (json_decoder_is_search_decoder_escaped glyph_map font_files span_text).
  apply quote_freeb_sound. vm_compute. reflexivity.
Defined.

Lemma updated_cookie_is_sent_witness :
  cookie (snd (fst updated_run)) = Some new_cookie /\
  Forall (fun e => is_credentialed e = true ->
                   cookie_header e = Some (Some new_cookie))
         (snd updated_run).
Proof.
  apply (updated_cookie_is_sent (local_env (always page)) 1 shop_url
           "no proxy, cookie" new_cookie local_start (fst (fst updated_run))).
  - left. reflexivity.
  - vm_compute. reflexivity.
Defined.

Lemma get_search_url_is_uniform_witness :
  snd (get_search_url 2 "8" "salad") = list_ascii_of_string "proxy, cookie" /\
  2 = 2.
Proof.
  split.
  - exact (f_equal snd (proj1 (get_search_url_is_uniform 2 "8" "salad"))).
  - exact (proj2 (proj2 (get_search_url_is_uniform 2 "8" "salad")) 2 eq_refl).
Defined.

Lemma configured_user_agent_is_sent_witness :
  exists user_agent,
    USER_AGENT local_config = Some user_agent /\
    ua (snd (fst redirected_run)) = Some user_agent /\
    Forall (fun e => is_credentialed e = true ->
                     agent_header e = Some (Some user_agent))
           (snd redirected_run).
Proof.
  apply (configured_user_agent_is_sent (local_env redirected) true local_start 2
           shop_url "no proxy, cookie" local_start (fst (fst redirected_run))).
  - reflexivity.
  - reflexivity.
  - vm_compute. reflexivity.
Defined.


End FurtherSamples.
